(** * The multiplayer game server of [network/game_server.py] and its
      client of [network/game_client.py]

    A shallow embedding of [ClientConnection], [GameServer] and [GameClient]
    together with
    the Python built-ins they rely on (text and byte strings, the UTF-8 codec,
    [int.to_bytes] / [int.from_bytes], insertion-ordered dictionaries, a
    stream socket and [json.loads] / [json.dumps]), followed by the
    properties of the framing, the registry, the router and the broadcaster.

    Threads are not modelled.  Every function below is the body that the
    source runs under one lock ([send_lock], [clients_lock]); the theorems
    speak about sequences of such atomic steps. *)

From Stdlib Require Import String Ascii ZArith List Bool Lia Arith.
From Stdlib Require Import DecimalString.
From Stdlib Require DecimalNat.
Import ListNotations.

Local Open Scope Z_scope.

(** ** Python values *)

Module Py.

(** A [str] is a sequence of code points, a [bytes] object a sequence of
    octets.  Both are lists of integers; [is_bytes] states the octet range. *)
Definition str := list Z.
Definition bytes := list Z.

Definition is_byte (b : Z) : Prop := 0 <= b < 256.
Definition is_bytes (bs : bytes) : Prop := Forall is_byte bs.

(** A literal of the source, written as a Rocq string of ASCII characters. *)
Definition lit (s : string) : str :=
  map (fun a => Z.of_nat (nat_of_ascii a)) (list_ascii_of_string s).

(** [len(x)] *)
Definition len {A} (l : list A) : Z := Z.of_nat (length l).

Definition str_eq_dec : forall a b : str, {a = b} + {a <> b} :=
  list_eq_dec Z.eq_dec.

Definition str_eqb (a b : str) : bool :=
  if str_eq_dec a b then true else false.

(** The exceptions that the modelled code can meet. *)
Inductive exn :=
| OSError
| OverflowError
| UnicodeEncodeError
| UnicodeDecodeError
| AttributeError
| JSONDecodeError
| RecursionError.

(** A computation that returns or raises. *)
Inductive result (A : Type) :=
| Return (a : A)
| Raise (e : exn).
Arguments Return {A} a.
Arguments Raise {A} e.

Definition bind {A B} (r : result A) (k : A -> result B) : result B :=
  match r with
  | Return a => k a
  | Raise e => Raise e
  end.

(** f"{n}" for a non-negative integer: its decimal digits. *)
Definition format_int (n : nat) : str :=
  lit (NilZero.string_of_uint (Nat.to_uint n)).

(** *** [str.encode('utf-8')] and [bytes.decode('utf-8')] *)

Definition is_surrogate (c : Z) : bool := (0xD800 <=? c) && (c <=? 0xDFFF).

(** One code point to its UTF-8 octets; surrogates and values outside the
    Unicode range cannot be encoded. *)
Definition encode_cp (c : Z) : option bytes :=
  if c <? 0 then None
  else if c <? 0x80 then Some [c]
  else if c <? 0x800 then Some [0xC0 + c / 64; 0x80 + c mod 64]
  else if c <? 0x10000 then
    if is_surrogate c then None
    else Some [0xE0 + c / 4096; 0x80 + (c / 64) mod 64; 0x80 + c mod 64]
  else if c <? 0x110000 then
    Some [0xF0 + c / 262144; 0x80 + (c / 4096) mod 64;
          0x80 + (c / 64) mod 64; 0x80 + c mod 64]
  else None.

Fixpoint encode_utf8 (s : str) : result bytes :=
  match s with
  | [] => Return []
  | c :: s' =>
      match encode_cp c with
      | None => Raise UnicodeEncodeError
      | Some bs => bind (encode_utf8 s') (fun rest => Return (bs ++ rest))
      end
  end.

Definition is_cont (b : Z) : bool := (0x80 <=? b) && (b <? 0xC0).

(** The strict decoder: continuation octets are checked, and overlong forms,
    surrogates and values above U+10FFFF are rejected. *)
Fixpoint decode_utf8 (bs : bytes) : result str :=
  match bs with
  | [] => Return []
  | b0 :: r0 =>
      if (0 <=? b0) && (b0 <? 0x80) then
        bind (decode_utf8 r0) (fun s => Return (b0 :: s))
      else if (0xC2 <=? b0) && (b0 <? 0xE0) then
        match r0 with
        | b1 :: r1 =>
            if is_cont b1 then
              bind (decode_utf8 r1)
                   (fun s => Return ((b0 - 0xC0) * 64 + (b1 - 0x80) :: s))
            else Raise UnicodeDecodeError
        | _ => Raise UnicodeDecodeError
        end
      else if (0xE0 <=? b0) && (b0 <? 0xF0) then
        match r0 with
        | b1 :: b2 :: r2 =>
            let c := (b0 - 0xE0) * 4096 + (b1 - 0x80) * 64 + (b2 - 0x80) in
            if is_cont b1 && is_cont b2 && (0x800 <=? c)
               && negb (is_surrogate c) then
              bind (decode_utf8 r2) (fun s => Return (c :: s))
            else Raise UnicodeDecodeError
        | _ => Raise UnicodeDecodeError
        end
      else if (0xF0 <=? b0) && (b0 <? 0xF5) then
        match r0 with
        | b1 :: b2 :: b3 :: r3 =>
            let c := (b0 - 0xF0) * 262144 + (b1 - 0x80) * 4096
                     + (b2 - 0x80) * 64 + (b3 - 0x80) in
            if is_cont b1 && is_cont b2 && is_cont b3
               && (0x10000 <=? c) && (c <? 0x110000) then
              bind (decode_utf8 r3) (fun s => Return (c :: s))
            else Raise UnicodeDecodeError
        | _ => Raise UnicodeDecodeError
        end
      else Raise UnicodeDecodeError
  end.

(** *** [int.to_bytes(4, byteorder='big')] and [int.from_bytes(.., 'big')] *)

Definition to_bytes4 (n : Z) : result bytes :=
  if (n <? 0) || (2 ^ 32 <=? n) then Raise OverflowError
  else Return [n / 2 ^ 24; (n / 2 ^ 16) mod 256; (n / 2 ^ 8) mod 256; n mod 256].

Definition from_bytes (bs : bytes) : Z :=
  fold_left (fun acc b => acc * 256 + b) bs 0.

End Py.

Import Py.

(** ** Computations over a mutable object

    [M S A] is a computation that reads and updates an object of type [S] and
    either returns an [A] or raises.  The object is kept when an exception is
    raised, as a Python object keeps the mutations made before the [raise]. *)

Definition M (S A : Type) : Type := S -> result A * S.

Definition ret {S A} (a : A) : M S A := fun s => (Return a, s).

Definition throw {S A} (e : exn) : M S A := fun s => (Raise e, s).

Definition mbind {S A B} (c : M S A) (k : A -> M S B) : M S B :=
  fun s =>
    match c s with
    | (Return a, s') => k a s'
    | (Raise e, s') => (Raise e, s')
    end.

Definition lift {S A} (r : result A) : M S A := fun s => (r, s).

Declare Scope py_scope.
Delimit Scope py_scope with py.
Notation "x <- c ;; k" := (mbind c (fun x => k))
  (at level 61, c at next level, right associativity) : py_scope.
Notation "c ;;; k" := (mbind c (fun _ => k))
  (at level 61, right associativity) : py_scope.

(** ** Insertion-ordered dictionaries with [str] keys *)

Module Dict.

Definition dict (V : Type) := list (str * V).

Section Ops.
Context {V : Type}.

(** [d.get(k)] *)
Fixpoint get (d : dict V) (k : str) : option V :=
  match d with
  | [] => None
  | (k', v) :: d' => if str_eqb k' k then Some v else get d' k
  end.

(** [k in d] *)
Definition mem (d : dict V) (k : str) : bool :=
  match get d k with Some _ => true | None => false end.

(** [d[k] = v]: an existing key keeps its position, a new key goes last. *)
Fixpoint set (d : dict V) (k : str) (v : V) : dict V :=
  match d with
  | [] => [(k, v)]
  | (k', v') :: d' =>
      if str_eqb k' k then (k', v) :: d' else (k', v') :: set d' k v
  end.

(** [del d[k]], which the source guards with [k in d]: the entry of [k]
    goes, the others keep their order. *)
Definition del (d : dict V) (k : str) : dict V :=
  filter (fun kv => negb (str_eqb (fst kv) k)) d.

Definition keys (d : dict V) : list str := map fst d.

End Ops.
End Dict.

(** ** A connected stream socket

    [inbox] holds the segments that the peer's bytes arrive in, oldest first;
    an empty [inbox] is a stream the peer has shut down.  [outbox] records the
    argument of every [send] that did not raise.  [writable] is false once the
    peer is gone, so that [send] raises; [closed] is set by [close]. *)

Record socket := mkSocket {
  inbox : list bytes;
  outbox : list bytes;
  closed : bool;
  writable : bool
}.

Definition set_inbox (sk : socket) (i : list bytes) : socket :=
  mkSocket i (outbox sk) (closed sk) (writable sk).

(** [sock.recv(n)]: at most [n] bytes of the oldest segment; [b''] at the end
    of the stream; [OSError] on a socket that was closed locally. *)
Definition recv (n : Z) : M socket bytes :=
  fun sk =>
    if closed sk then (Raise OSError, sk)
    else
      match inbox sk with
      | [] => (Return [], sk)
      | c :: rest =>
          if len c <=? n then (Return c, set_inbox sk rest)
          else (Return (firstn (Z.to_nat n) c),
                set_inbox sk (skipn (Z.to_nat n) c :: rest))
      end.

(** [sock.send(data)]: the number of bytes handed over, or [OSError]. *)
Definition send (data : bytes) : M socket Z :=
  fun sk =>
    if closed sk || negb (writable sk) then (Raise OSError, sk)
    else (Return (len data),
          mkSocket (inbox sk) (outbox sk ++ [data]) (closed sk) (writable sk)).

(** [sock.close()] *)
Definition close (sk : socket) : socket :=
  mkSocket (inbox sk) (outbox sk) true (writable sk).

(** Two socket states that differ in what is left to read only. *)
Definition same_endpoint (a b : socket) : Prop :=
  outbox b = outbox a /\ closed b = closed a /\ writable b = writable a.

(** ** [ClientConnection]

    The lines that the two methods print in their handlers are left out. *)

Record ClientConnection := mkConn {
  client_id : str;
  socket_of : socket;
  address : str * Z;
  connected : bool
}.

Definition with_socket (self : ClientConnection) (sk : socket) :=
  mkConn (client_id self) sk (address self) (connected self).

Definition with_connected (self : ClientConnection) (b : bool) :=
  mkConn (client_id self) (socket_of self) (address self) b.

Local Open Scope py_scope.

(** The [while len(message) < msg_len] loop of [receive_message].  [None] is
    the [return None] taken when a read yields no bytes.  Every round adds at
    least one byte, so [Z.to_nat msg_len] rounds are enough (see
    [recv_loop_fuel]). *)
Fixpoint recv_loop (fuel : nat) (msg_len : Z) (message : bytes)
  : M socket (option bytes) :=
  if len message <? msg_len then
    match fuel with
    | O => ret None
    | S fuel' =>
        chunk <- recv (msg_len - len message) ;;
        match chunk with
        | [] => ret None
        | _ => recv_loop fuel' msg_len (message ++ chunk)
        end
    end
  else ret (Some message).

(** The [try] block of [receive_message]. *)
Definition receive_try : M socket (option str) :=
  length_data <- recv 4 ;;
  match length_data with
  | [] => ret None
  | _ =>
      let msg_len := from_bytes length_data in
      message <- recv_loop (Z.to_nat msg_len) msg_len [] ;;
      match message with
      | None => ret None
      | Some message => text <- lift (decode_utf8 message) ;; ret (Some text)
      end
  end.

(** [ClientConnection.receive_message]: [None] is Python's [None]. *)
Definition receive_message (self : ClientConnection)
  : option str * ClientConnection :=
  match receive_try (socket_of self) with
  | (Return r, sk) => (r, with_socket self sk)
  | (Raise _, sk) => (None, with_socket self sk)
  end.

(** The [try] block of [send_message]. *)
Definition send_try (message : str) : M socket bool :=
  data <- lift (encode_utf8 message) ;;
  length <- lift (to_bytes4 (len data)) ;;
  send (length ++ data) ;;;
  ret true.

(** [ClientConnection.send_message], the body run under [send_lock]. *)
Definition send_message (self : ClientConnection) (message : str)
  : bool * ClientConnection :=
  match send_try message (socket_of self) with
  | (Return r, sk) => (r, with_socket self sk)
  | (Raise _, sk) => (false, with_connected (with_socket self sk) false)
  end.

(** [ClientConnection(client_id, sock, address, server)] *)
Definition new_connection (cid : str) (sk : socket) (addr : str * Z)
  : ClientConnection :=
  mkConn cid sk addr true.

(** ** The wire protocol, as its description states it

    A frame is a 4-byte big-endian unsigned length followed by that many
    bytes of UTF-8 text.  These definitions speak about the whole byte
    stream; the code above is compared with them. *)

Module Wire.

Definition encode (message : str) : result bytes :=
  bind (encode_utf8 message)
       (fun data =>
          bind (to_bytes4 (len data)) (fun length => Return (length ++ data))).

Definition declared (stream : bytes) : Z := from_bytes (firstn 4 stream).

(** The stream ends before the four length bytes, or before the declared
    number of payload bytes. *)
Definition truncated (stream : bytes) : bool :=
  (len stream <? 4) || (len stream - 4 <? declared stream).

Definition payload (stream : bytes) : bytes :=
  firstn (Z.to_nat (declared stream)) (skipn 4 stream).

Definition decode (stream : bytes) : option str :=
  if truncated stream then None
  else
    match decode_utf8 (payload stream) with
    | Return text => Some text
    | Raise _ => None
    end.

End Wire.

(** No segment of a stream is empty. *)
Definition whole_segments (chunks : list bytes) : bool :=
  forallb (fun c => match c with [] => false | _ => true end) chunks.

(** The first segment, when there is one, holds the four length bytes. *)
Definition header_in_first (chunks : list bytes) : bool :=
  match chunks with
  | [] => true
  | c :: _ => 4 <=? len c
  end.

(** ** [json.loads] and [json.dumps]

    The decoder follows the pure-Python scanner of the standard library
    ([json.scanner.py_make_scanner], [json.decoder.py_scanstring],
    [JSONObject], [JSONArray]).  A float keeps its lexeme, since binary
    floating point is outside this development. *)

Module Json.

#[warnings="-register-all"]
Inductive json :=
| JNull
| JBool (b : bool)
| JInt (n : Z)
| JFloat (lexeme : str)
| JString (s : str)
| JArray (items : list json)
| JObject (members : list (str * json)).

Inductive parse (A : Type) :=
| Parsed (a : A) (rest : str)
| Invalid
| Starved.
Arguments Parsed {A} a rest.
Arguments Invalid {A}.
Arguments Starved {A}.

Definition is_ws (c : Z) : bool :=
  (c =? 32) || (c =? 9) || (c =? 10) || (c =? 13).

Fixpoint skip_ws (s : str) : str :=
  match s with
  | c :: r => if is_ws c then skip_ws r else s
  | [] => []
  end.

Fixpoint strip_prefix (p s : str) : option str :=
  match p, s with
  | [], _ => Some s
  | a :: p', b :: s' => if a =? b then strip_prefix p' s' else None
  | _ :: _, [] => None
  end.

Definition is_digit (c : Z) : bool := (48 <=? c) && (c <=? 57).

Fixpoint take_digits (s : str) : str * str :=
  match s with
  | c :: r =>
      if is_digit c then let (d, rest) := take_digits r in (c :: d, rest)
      else ([], s)
  | [] => ([], [])
  end.

Definition digits_value (d : str) : Z :=
  fold_left (fun acc c => acc * 10 + (c - 48)) d 0.

Definition hex_value (c : Z) : option Z :=
  if is_digit c then Some (c - 48)
  else if (97 <=? c) && (c <=? 102) then Some (c - 87)
  else if (65 <=? c) && (c <=? 70) then Some (c - 55)
  else None.

(** [_decode_uXXXX] *)
Definition decode_uXXXX (s : str) : option (Z * str) :=
  match s with
  | a :: b :: c :: d :: rest =>
      match hex_value a, hex_value b, hex_value c, hex_value d with
      | Some x, Some y, Some z, Some w =>
          Some (((x * 16 + y) * 16 + z) * 16 + w, rest)
      | _, _, _, _ => None
      end
  | _ => None
  end.

(** The [BACKSLASH] table of the decoder. *)
Definition unescape (c : Z) : option Z :=
  if c =? 34 then Some 34
  else if c =? 92 then Some 92
  else if c =? 47 then Some 47
  else if c =? 98 then Some 8
  else if c =? 102 then Some 12
  else if c =? 110 then Some 10
  else if c =? 114 then Some 13
  else if c =? 116 then Some 9
  else None.

(** [py_scanstring] with [strict=True], entered after the opening quote.
    [acc] holds the characters read so far, newest first. *)
Fixpoint scanstring (s : str) (acc : str) : parse str :=
  match s with
  | [] => Invalid
  | c :: r =>
      if c =? 34 then Parsed (rev acc) r
      else if c =? 92 then
        match r with
        | [] => Invalid
        | e :: r1 =>
            if e =? 117 then
              match r1 with
              | a :: b :: x :: d :: r2 =>
                  match decode_uXXXX (a :: b :: x :: d :: []) with
                  | None => Invalid
                  | Some (uni, _) =>
                      if (0xD800 <=? uni) && (uni <=? 0xDBFF) then
                        match r2 with
                        | 92 :: 117 :: a2 :: b2 :: x2 :: d2 :: r3 =>
                            match decode_uXXXX (a2 :: b2 :: x2 :: d2 :: []) with
                            | None => Invalid
                            | Some (uni2, _) =>
                                if (0xDC00 <=? uni2) && (uni2 <=? 0xDFFF) then
                                  scanstring r3
                                    (0x10000 + ((uni - 0xD800) * 1024
                                                + (uni2 - 0xDC00)) :: acc)
                                else scanstring r2 (uni :: acc)
                            end
                        | 92 :: 117 :: _ => Invalid
                        | _ => scanstring r2 (uni :: acc)
                        end
                      else scanstring r2 (uni :: acc)
                  end
              | _ => Invalid
              end
            else
              match unescape e with
              | Some x => scanstring r1 (x :: acc)
              | None => Invalid
              end
        end
      else if (0 <=? c) && (c <? 32) then Invalid
      else scanstring r (c :: acc)
  end.

(** [NUMBER_RE]: an optional minus sign, then a single zero or a digit from
    1 to 9 followed by digits; then, optionally, a dot with one digit or
    more; then, optionally, e or E, an optional sign and one digit or more.
    A fraction or an exponent makes the number a float. *)
Definition scan_number (s : str) : option (json * str) :=
  let (neg, s1) :=
    match s with
    | 45 :: r => (true, r)
    | _ => (false, s)
    end in
  let int_part :=
    match s1 with
    | 48 :: r => Some ([48], r)
    | c :: _ =>
        if is_digit c then Some (take_digits s1) else None
    | [] => None
    end in
  match int_part with
  | None => None
  | Some (ds, r) =>
      let sign := if neg then [45] else [] in
      let (frac, r1) :=
        match r with
        | 46 :: f =>
            match take_digits f with
            | ([], _) => ([], r)
            | (fd, rest) => (46 :: fd, rest)
            end
        | _ => ([], r)
        end in
      let (exp, r2) :=
        match r1 with
        | e :: x =>
            if (e =? 101) || (e =? 69) then
              let (sg, y) :=
                match x with
                | 43 :: y => ([43], y)
                | 45 :: y => ([45], y)
                | _ => ([], x)
                end in
              match take_digits y with
              | ([], _) => ([], r1)
              | (ed, rest) => (e :: sg ++ ed, rest)
              end
            else ([], r1)
        | [] => ([], r1)
        end in
      match frac, exp with
      | [], [] =>
          Some (JInt (if neg then - digits_value ds else digits_value ds), r2)
      | _, _ => Some (JFloat (sign ++ ds ++ frac ++ exp), r2)
      end
  end.

(** The constants accepted after numbers: [NaN], [Infinity], [-Infinity]. *)
Definition scan_constant (s : str) : parse json :=
  match strip_prefix (lit "NaN") s with
  | Some r => Parsed (JFloat (lit "NaN")) r
  | None =>
      match strip_prefix (lit "Infinity") s with
      | Some r => Parsed (JFloat (lit "Infinity")) r
      | None =>
          match strip_prefix (lit "-Infinity") s with
          | Some r => Parsed (JFloat (lit "-Infinity")) r
          | None => Invalid
          end
      end
  end.

(** [_scan_once], [JSONArray] and [JSONObject].  [array_items] is entered
    at an item, [object_members] after the opening quote of a key. *)
Fixpoint scan_once (fuel : nat) (s : str) : parse json :=
  match fuel with
  | O => Starved
  | S fuel' =>
      match s with
      | [] => Invalid
      | c :: r =>
          if c =? 34 then
            match scanstring r [] with
            | Parsed x rest => Parsed (JString x) rest
            | Invalid => Invalid
            | Starved => Starved
            end
          else if c =? 123 then
            match skip_ws r with
            | 125 :: rest => Parsed (JObject []) rest
            | 34 :: rest => object_members fuel' rest []
            | _ => Invalid
            end
          else if c =? 91 then
            match skip_ws r with
            | 93 :: rest => Parsed (JArray []) rest
            | r' => array_items fuel' r' []
            end
          else
            match strip_prefix (lit "null") s with
            | Some rest => Parsed JNull rest
            | None =>
            match strip_prefix (lit "true") s with
            | Some rest => Parsed (JBool true) rest
            | None =>
            match strip_prefix (lit "false") s with
            | Some rest => Parsed (JBool false) rest
            | None =>
            match scan_number s with
            | Some (v, rest) => Parsed v rest
            | None => scan_constant s
            end end end end
      end
  end

with array_items (fuel : nat) (s : str) (acc : list json) : parse json :=
  match fuel with
  | O => Starved
  | S fuel' =>
      match scan_once fuel' s with
      | Parsed v rest =>
          match skip_ws rest with
          | 93 :: rest' => Parsed (JArray (rev (v :: acc))) rest'
          | 44 :: rest' => array_items fuel' (skip_ws rest') (v :: acc)
          | _ => Invalid
          end
      | Invalid => Invalid
      | Starved => Starved
      end
  end

with object_members (fuel : nat) (s : str) (acc : Dict.dict json)
  : parse json :=
  match fuel with
  | O => Starved
  | S fuel' =>
      match scanstring s [] with
      | Parsed key rest =>
          match skip_ws rest with
          | 58 :: rest1 =>
              match scan_once fuel' (skip_ws rest1) with
              | Parsed v rest2 =>
                  let acc' := Dict.set acc key v in
                  match skip_ws rest2 with
                  | 125 :: rest3 => Parsed (JObject acc') rest3
                  | 44 :: rest3 =>
                      match skip_ws rest3 with
                      | 34 :: rest4 => object_members fuel' rest4 acc'
                      | _ => Invalid
                      end
                  | _ => Invalid
                  end
              | Invalid => Invalid
              | Starved => Starved
              end
          | _ => Invalid
          end
      | Invalid => Invalid
      | Starved => Starved
      end
  end.

(** [json.loads(s)]: leading and trailing whitespace is allowed, anything
    else after the value is "Extra data". *)
Definition loads (s : str) : result json :=
  match scan_once (2 * length s + 2) (skip_ws s) with
  | Parsed v rest =>
      match skip_ws rest with
      | [] => Return v
      | _ => Raise JSONDecodeError
      end
  | Invalid => Raise JSONDecodeError
  | Starved => Raise RecursionError
  end.

End Json.

Module JsonDumps.
Import Json.

Definition hex_digit (d : Z) : Z := if d <? 10 then 48 + d else 87 + d.

(** ['\\u{0:04x}'.format(n)] *)
Definition u_escape (n : Z) : str :=
  [92; 117; hex_digit (n / 4096); hex_digit ((n / 256) mod 16);
   hex_digit ((n / 16) mod 16); hex_digit (n mod 16)].

(** One character under [ensure_ascii=True] ([py_encode_basestring_ascii]). *)
Definition escape_char (c : Z) : str :=
  if c =? 34 then [92; 34]
  else if c =? 92 then [92; 92]
  else if c =? 10 then [92; 110]
  else if c =? 13 then [92; 114]
  else if c =? 9 then [92; 116]
  else if c =? 12 then [92; 102]
  else if c =? 8 then [92; 98]
  else if (32 <=? c) && (c <=? 126) then [c]
  else if c <? 0x10000 then u_escape c
  else
    let n := c - 0x10000 in
    u_escape (0xD800 + (n / 1024) mod 1024) ++ u_escape (0xDC00 + n mod 1024).

Definition quote (s : str) : str := [34] ++ flat_map escape_char s ++ [34].

Definition format_Z (n : Z) : str :=
  if n <? 0 then 45 :: format_int (Z.to_nat (- n)) else format_int (Z.to_nat n).

Fixpoint join (sep : str) (parts : list str) : str :=
  match parts with
  | [] => []
  | [p] => p
  | p :: rest => p ++ sep ++ join sep rest
  end.

(** [json.dumps(v)] with the default separators [', '] and [': ']. *)
Fixpoint dumps (v : json) : str :=
  match v with
  | JNull => lit "null"
  | JBool true => lit "true"
  | JBool false => lit "false"
  | JInt n => format_Z n
  | JFloat lexeme => lexeme
  | JString s => quote s
  | JArray items => [91] ++ join (lit ", ") (map dumps items) ++ [93]
  | JObject members =>
      [123]
      ++ join (lit ", ")
           (map (fun kv => quote (fst kv) ++ lit ": " ++ dumps (snd kv)) members)
      ++ [125]
  end.

End JsonDumps.

Import Json JsonDumps.

(** ** [GameServer] *)

(** The simulation entities are external to the server; an entity stands for
    the dictionary its [to_dict()] returns. *)
Record game_state_t := mkGameState {
  players : list json;
  boss : option json
}.

(** What the server prints. *)
Inductive line :=
| ConnectedFrom (cid : str) (addr : str * Z)
| AcceptError
| Disconnected (cid : str)
| InvalidJSON (cid : str).

(** The observable actions of the server, in the order they happen. *)
Inductive effect :=
| Dumped (text : str)
| Sent (ref : nat) (message : str) (ok : bool)
| Closed (ref : nat)
| Deleted (cid : str)
| Submitted (ref : nat)
| PlayerAction (cid : str) (data : json)
| SkillUse (cid : str) (data : json)
| Printed (l : line).

(** [clients] maps an id to a reference into [objects], the store of every
    [ClientConnection] constructed so far (a reference is a position, and an
    object is never moved); the handler threads, listed in [serving], hold
    such references too (the pool's limit of ten workers only delays a
    handler).  [strays] keeps the sockets that were accepted and turned
    away. *)
Record GameServer := mkServer {
  max_players : Z;
  clients : Dict.dict nat;
  objects : list ClientConnection;
  strays : list socket;
  game_state : game_state_t;
  message_queue : list (str * str);
  serving : list nat;
  running : bool;
  effects : list effect
}.

(** [GameServer(host, port, max_players)] after [start()]. *)
Definition new_server (max : Z) : GameServer :=
  mkServer max [] [] [] (mkGameState [] None) [] [] true [].

Definition set_clients (s : GameServer) (c : Dict.dict nat) : GameServer :=
  mkServer (max_players s) c (objects s) (strays s) (game_state s)
           (message_queue s) (serving s) (running s) (effects s).

Definition set_objects (s : GameServer) (o : list ClientConnection) :=
  mkServer (max_players s) (clients s) o (strays s) (game_state s)
           (message_queue s) (serving s) (running s) (effects s).

Definition add_stray (s : GameServer) (sk : socket) : GameServer :=
  mkServer (max_players s) (clients s) (objects s) (strays s ++ [sk])
           (game_state s) (message_queue s) (serving s) (running s) (effects s).

Definition put (s : GameServer) (m : str * str) : GameServer :=
  mkServer (max_players s) (clients s) (objects s) (strays s) (game_state s)
           (message_queue s ++ [m]) (serving s) (running s) (effects s).

Definition emit (s : GameServer) (es : list effect) : GameServer :=
  mkServer (max_players s) (clients s) (objects s) (strays s) (game_state s)
           (message_queue s) (serving s) (running s) (effects s ++ es).

(** [thread_pool.submit(self._handle_client, client_conn)] and the end of
    that thread. *)
Definition submit (s : GameServer) (ref : nat) : GameServer :=
  mkServer (max_players s) (clients s) (objects s) (strays s) (game_state s)
           (message_queue s) (serving s ++ [ref]) (running s) (effects s).

Definition retire (s : GameServer) (ref : nat) : GameServer :=
  mkServer (max_players s) (clients s) (objects s) (strays s) (game_state s)
           (message_queue s)
           (filter (fun r => negb (Nat.eqb ref r)) (serving s))
           (running s) (effects s).

(** Mutation of the object behind a reference. *)
Fixpoint update {A} (l : list A) (i : nat) (f : A -> A) : list A :=
  match l, i with
  | [], _ => []
  | x :: l', O => f x :: l'
  | x :: l', S i' => x :: update l' i' f
  end.

(** The [with self.clients_lock] block of [_accept_connections] and the two
    statements after it, for one accepted socket. *)
Definition accept_try (client_socket : socket) (addr : str * Z)
  : M GameServer unit :=
  fun s =>
    if len (clients s) >=? max_players s then
      match send (lit "Server full") client_socket with
      | (Return _, sk) => (Return tt, add_stray s (close sk))
      | (Raise e, sk) => (Raise e, add_stray s sk)
      end
    else
      let cid := lit "player_" ++ format_int (length (clients s) + 1) in
      let client_conn := new_connection cid client_socket addr in
      let ref := length (objects s) in
      let s1 := set_objects s (objects s ++ [client_conn]) in
      let s2 := set_clients s1 (Dict.set (clients s1) cid ref) in
      (Return tt,
       emit (submit s2 ref) [Submitted ref; Printed (ConnectedFrom cid addr)]).

(** One round of the [while self.running] loop of [_accept_connections],
    after [accept()] has returned [client_socket]. *)
Definition _accept_connections (client_socket : socket) (addr : str * Z)
  (s : GameServer) : GameServer :=
  match accept_try client_socket addr s with
  | (Return _, s') => s'
  | (Raise _, s') => if running s' then emit s' [Printed AcceptError] else s'
  end.

(** [GameServer._disconnect_client] *)
Definition _disconnect_client (cid : str) (s : GameServer) : GameServer :=
  match Dict.get (clients s) cid with
  | Some ref =>
      let s1 :=
        set_objects s
          (update (objects s) ref
                  (fun c => with_socket c (close (socket_of c)))) in
      let s2 := set_clients s1 (Dict.del (clients s1) cid) in
      emit s2 [Closed ref; Deleted cid; Printed (Disconnected cid)]
  | None => s
  end.

(** [GameServer._serialize_game_state] *)
Definition _serialize_game_state (s : GameServer) : json :=
  JObject
    [(lit "players", JArray (players (game_state s)));
     (lit "boss",
      match boss (game_state s) with
      | Some b => b
      | None => JNull
      end)].

(** The first [for] loop of [_broadcast_game_state] over
    [self.clients.items()]; returns the [disconnected] list. *)
Fixpoint fan_out (state_data : str) (items : list (str * nat))
  (disconnected : list str) (s : GameServer) : list str * GameServer :=
  match items with
  | [] => (disconnected, s)
  | (cid, ref) :: rest =>
      match nth_error (objects s) ref with
      | Some conn =>
          let (ok, conn') := send_message conn state_data in
          let s1 := set_objects s (update (objects s) ref (fun _ => conn')) in
          let s2 := emit s1 [Sent ref state_data ok] in
          fan_out state_data rest
                  (if ok then disconnected else disconnected ++ [cid]) s2
      | None => fan_out state_data rest disconnected s
      end
  end.

(** The second loop: [for cid in disconnected: self._disconnect_client(cid)] *)
Definition clean_up (disconnected : list str) (s : GameServer) : GameServer :=
  fold_left (fun s cid => _disconnect_client cid s) disconnected s.

(** [GameServer._broadcast_game_state] *)
Definition _broadcast_game_state (s : GameServer) : GameServer :=
  let state_data := dumps (_serialize_game_state s) in
  let s0 := emit s [Dumped state_data] in
  let (disconnected, s1) := fan_out state_data (clients s0) [] s0 in
  clean_up disconnected s1.

(** [data.get('type')] on the value that [json.loads] returned: only a
    dictionary has a [get]. *)
Definition get_type (data : json) : result (option json) :=
  match data with
  | JObject members => Return (Dict.get members (lit "type"))
  | _ => Raise AttributeError
  end.

(** [msg_type == text] for a decoded value and a [str]. *)
Definition is_str (v : option json) (text : str) : bool :=
  match v with
  | Some (JString s) => str_eqb s text
  | _ => false
  end.

(** The [try] block of [_process_game_message]; both handlers are [pass]. *)
Definition process_try (cid message : str) : M GameServer unit :=
  data <- lift (loads message) ;;
  msg_type <- lift (get_type data) ;;
  if is_str msg_type (lit "player_action") then
    fun s => (Return tt, emit s [PlayerAction cid data])
  else if is_str msg_type (lit "skill_use") then
    fun s => (Return tt, emit s [SkillUse cid data])
  else ret tt.

(** [GameServer._process_game_message]: only [json.JSONDecodeError] is
    caught. *)
Definition _process_game_message (cid message : str) : M GameServer unit :=
  fun s =>
    match process_try cid message s with
    | (Raise JSONDecodeError, s') =>
        (Return tt, emit s' [Printed (InvalidJSON cid)])
    | r => r
    end.

(** One round of [_handle_client] for the connection behind [ref], whose
    handler thread is in [serving]: the loop test, one [receive_message] and
    the [if data] test.  Leaving the loop runs the [finally] clause and ends
    the thread. *)
Definition _handle_client (ref : nat) (s : GameServer) : GameServer :=
  if existsb (Nat.eqb ref) (serving s) then
    match nth_error (objects s) ref with
    | Some conn =>
        if running s && connected conn then
          let (data, conn') := receive_message conn in
          let s1 := set_objects s (update (objects s) ref (fun _ => conn')) in
          match data with
          | Some (c :: text) => put s1 (client_id conn', c :: text)
          | _ => _disconnect_client (client_id conn') (retire s1 ref)
          end
        else _disconnect_client (client_id conn) (retire s ref)
    | None => s
    end
  else s.

(** What can happen to a running server. *)
Inductive event :=
| Accept (client_socket : socket) (addr : str * Z)
| Disconnect (cid : str)
| Receive (ref : nat)
| Broadcast
| Route (cid message : str)
| PeerGone (ref : nat)
| Stop.

(** The peer of a connection goes away: the rest of its stream never
    arrives and writes to it fail. *)
Definition peer_gone (ref : nat) (s : GameServer) : GameServer :=
  set_objects s
    (update (objects s) ref
       (fun c =>
          with_socket c
            (mkSocket [] (outbox (socket_of c)) (closed (socket_of c)) false))).

(** [GameServer.stop]; the listening socket and the pool are not part of
    the state.  A connection that [accept()] returned just before is still
    handled, so [Accept] stays possible after [Stop]. *)
Definition stop (s : GameServer) : GameServer :=
  mkServer (max_players s) (clients s) (objects s) (strays s) (game_state s)
           (message_queue s) (serving s) false (effects s).

Definition step (s : GameServer) (e : event) : GameServer :=
  match e with
  | Accept sk addr => _accept_connections sk addr s
  | Disconnect cid => _disconnect_client cid s
  | Receive ref => _handle_client ref s
  | Broadcast => _broadcast_game_state s
  | Route cid message => snd (_process_game_message cid message s)
  | PeerGone ref => peer_gone ref s
  | Stop => stop s
  end.

Definition run (s : GameServer) (es : list event) : GameServer :=
  fold_left step es s.

(** ** Predicates on server states *)

(** The registry of a server: keys are unique (it is a dictionary), no two
    ids share a connection object, and every reference points into the
    store. *)
Definition wf (s : GameServer) : Prop :=
  NoDup (Dict.keys (clients s))
  /\ NoDup (map snd (clients s))
  /\ Forall (fun ref => (ref < length (objects s))%nat) (map snd (clients s)).

(** A later state of a connection object: the same id, and a liveness flag
    that was not raised. *)
Definition later (c c' : ClientConnection) : Prop :=
  client_id c' = client_id c /\ (connected c' = true -> connected c = true).

(** A later state of the object store: every object is still there, in a
    later state. *)
Definition evolves (o o' : list ClientConnection) : Prop :=
  forall ref c,
    nth_error o ref = Some c ->
    exists c', nth_error o' ref = Some c' /\ later c c'.

(** A connection as the tests set it up: an open, writable socket whose
    peer's stream arrives in [chunks]. *)
Definition incoming (chunks : list bytes) : ClientConnection :=
  new_connection (lit "player_1") (mkSocket chunks [] false true)
                 (lit "127.0.0.1", 50000).

Definition peer (chunks : list bytes) : socket := mkSocket chunks [] false true.

Definition localhost : str * Z := (lit "127.0.0.1", 50000).

(** The serialized snapshot of a game with no players and no boss:
    {"players": [], "boss": null} *)
Definition empty_snapshot : str :=
  [123; 34; 112; 108; 97; 121; 101; 114; 115; 34; 58; 32; 91; 93; 44; 32;
   34; 98; 111; 115; 115; 34; 58; 32; 110; 117; 108; 108; 125].

(** ** The trace of one broadcast, as its contract states it *)

(** Whether [send_message] succeeds for the connection behind an entry of
    the registry. *)
Definition delivered (s : GameServer) (text : str) (entry : str * nat) : bool :=
  match nth_error (objects s) (snd entry) with
  | Some conn => fst (send_message conn text)
  | None => true
  end.

(** The trace of [_disconnect_client] for an entry of the registry. *)
Definition removal (entry : str * nat) : list effect :=
  [Closed (snd entry); Deleted (fst entry); Printed (Disconnected (fst entry))].

(** One serialization, then one send of that text to every entry of the
    registry, in its order, and only then the removals of the entries whose
    send failed. *)
Definition broadcast_effects (s : GameServer) (text : str) : list effect :=
  [Dumped text]
  ++ map (fun entry => Sent (snd entry) text (delivered s text entry))
         (clients s)
  ++ flat_map (fun entry => if delivered s text entry then [] else removal entry)
              (clients s).

(** The state of a registered connection after the broadcast of [text]. *)
Definition after_broadcast (text : str) (conn : ClientConnection)
  : ClientConnection :=
  let (ok, conn') := send_message conn text in
  if ok then conn' else with_socket conn' (close (socket_of conn')).

(** [conn.socket.close()] on a connection object. *)
Definition close_connection (c : ClientConnection) : ClientConnection :=
  with_socket c (close (socket_of c)).

(** The trace of [_disconnect_client] for an id, given the registry. *)
Definition removal_of (d : Dict.dict nat) (cid : str) : list effect :=
  match Dict.get d cid with
  | Some ref => removal (cid, ref)
  | None => []
  end.

(** Whether the registry maps [cid] to the object behind [r]. *)
Definition refers (d : Dict.dict nat) (r : nat) (cid : str) : bool :=
  match Dict.get d cid with
  | Some ref => Nat.eqb ref r
  | None => false
  end.

(** The entries of the registry whose send of [text] fails. *)
Definition failed (s : GameServer) (text : str) : list (str * nat) :=
  filter (fun e => negb (delivered s text e)) (clients s).

(** ** The message processor of the server *)

Definition set_queue (s : GameServer) (q : list (str * str)) : GameServer :=
  mkServer (max_players s) (clients s) (objects s) (strays s) (game_state s)
           q (serving s) (running s) (effects s).

(** One round of the [while self.running] loop of [_message_processor]:
    [queue.get] takes the oldest message, or times out on an empty queue and
    the loop goes on.  An exception of [_process_game_message] is not caught
    here and ends the thread. *)
Definition _message_processor (s : GameServer) : result unit * GameServer :=
  if running s then
    match message_queue s with
    | [] => (Return tt, s)
    | (client_id, message) :: rest =>
        _process_game_message client_id message (set_queue s rest)
    end
  else (Return tt, s).

(** [n] rounds of the processor, as long as its thread lives. *)
Fixpoint processor_rounds (n : nat) (s : GameServer)
  : result unit * GameServer :=
  match n with
  | O => (Return tt, s)
  | S n' =>
      match _message_processor s with
      | (Return _, s') => processor_rounds n' s'
      | (Raise e, s') => (Raise e, s')
      end
  end.

(** What the dispatch of one message adds to the trace of the server. *)
Definition reaction (m : str * str) : list effect :=
  effects (snd (_process_game_message (fst m) (snd m) (new_server 0))).

(** A message whose dispatch returns. *)
Definition harmless (m : str * str) : bool :=
  match fst (_process_game_message (fst m) (snd m) (new_server 0)) with
  | Return _ => true
  | Raise _ => false
  end.

(** [n] rounds of the handler thread of the connection behind [ref]. *)
Fixpoint handler_rounds (n : nat) (ref : nat) (s : GameServer) : GameServer :=
  match n with
  | O => s
  | S n' => handler_rounds n' ref (_handle_client ref s)
  end.

(** ** [GameClient] ([network/game_client.py])

    The two threads of a client are not modelled; [_receive_loop] and
    [_send_loop] below are one round of their [while self.connected] loops,
    and the boolean they return tells whether the loop goes on. *)

Record GameClient := mkClient {
  socket_opt : option socket;
  is_connected : bool;
  incoming_messages : list str;
  outgoing_messages : list str
}.

(** [GameClient()] *)
Definition new_client : GameClient := mkClient None false [] [].

(** A socket that [socket.socket()] made and that is not connected. *)
Definition unconnected : socket := mkSocket [] [] false false.

(** [GameClient.connect]: [established] is the connected socket, or [None]
    when [socket.connect] raises. *)
Definition connect (established : option socket) (self : GameClient)
  : bool * GameClient :=
  match established with
  | Some sk =>
      (true,
       mkClient (Some sk) true (incoming_messages self)
                (outgoing_messages self))
  | None =>
      (false,
       mkClient (Some unconnected) (is_connected self)
                (incoming_messages self) (outgoing_messages self))
  end.

(** The inner [while len(message) < msg_len] loop of [_receive_loop]: a read
    that yields no bytes leaves the loop with what was read so far. *)
Fixpoint client_recv_loop (fuel : nat) (msg_len : Z) (message : bytes)
  : M socket bytes :=
  if len message <? msg_len then
    match fuel with
    | O => ret message
    | S fuel' =>
        chunk <- recv (msg_len - len message) ;;
        match chunk with
        | [] => ret message
        | _ => client_recv_loop fuel' msg_len (message ++ chunk)
        end
    end
  else ret message.

(** The [try] block of [_receive_loop]: [None] is the [break] after an empty
    first read, [Some None] a round that puts nothing, [Some (Some text)] a
    round that puts [text]. *)
Definition client_receive_try : M socket (option (option str)) :=
  length_data <- recv 4 ;;
  match length_data with
  | [] => ret None
  | _ =>
      let msg_len := from_bytes length_data in
      message <- client_recv_loop (Z.to_nat msg_len) msg_len [] ;;
      if len message =? msg_len then
        text <- lift (decode_utf8 message) ;; ret (Some (Some text))
      else ret (Some None)
  end.

Definition client_state (self : GameClient) (sk : option socket)
  (on : bool) (inq : list str) : GameClient :=
  mkClient sk on inq (outgoing_messages self).

(** One round of [GameClient._receive_loop], from the loop test on; when
    the loop is left, [self.connected = False] runs. *)
Definition _receive_loop (self : GameClient) : bool * GameClient :=
  let leave sk :=
    (false, client_state self sk false (incoming_messages self)) in
  if is_connected self then
    match socket_opt self with
    | None => leave None
    | Some sk =>
        match client_receive_try sk with
        | (Return (Some (Some text)), sk') =>
            (true, client_state self (Some sk') true
                                (incoming_messages self ++ [text]))
        | (Return (Some None), sk') =>
            (true, client_state self (Some sk') true (incoming_messages self))
        | (Return None, sk') => leave (Some sk')
        | (Raise _, sk') => leave (Some sk')
        end
    end
  else leave (socket_opt self).

(** One round of [GameClient._send_loop], from the loop test on: an empty
    queue times out and the loop goes on; any other exception leaves the
    loop, and nothing else happens. *)
Definition _send_loop (self : GameClient) : bool * GameClient :=
  if is_connected self then
    match outgoing_messages self with
    | [] => (true, self)
    | message :: rest =>
        match socket_opt self with
        | None =>
            (false,
             mkClient None (is_connected self) (incoming_messages self) rest)
        | Some sk =>
            match send_try message sk with
            | (Return _, sk') =>
                (true,
                 mkClient (Some sk') (is_connected self)
                          (incoming_messages self) rest)
            | (Raise _, sk') =>
                (false,
                 mkClient (Some sk') (is_connected self)
                          (incoming_messages self) rest)
            end
        end
    end
  else (false, self).

Definition enqueue (self : GameClient) (message : str) : GameClient :=
  mkClient (socket_opt self) (is_connected self) (incoming_messages self)
           (outgoing_messages self ++ [message]).

(** The dictionary that [send_player_action] serializes. *)
Definition player_action (action data : json) : json :=
  JObject [(lit "type", JString (lit "player_action"));
           (lit "action", action);
           (lit "data", data)].

(** [GameClient.send_player_action] *)
Definition send_player_action (action data : json) (self : GameClient)
  : GameClient :=
  enqueue self (dumps (player_action action data)).

(** The dictionary that [send_skill_use] serializes. *)
Definition skill_use (skill_index target_id : json) : json :=
  JObject [(lit "type", JString (lit "skill_use"));
           (lit "skill_index", skill_index);
           (lit "target_id", target_id)].

(** [GameClient.send_skill_use]; [target_id] defaults to [None]. *)
Definition send_skill_use (skill_index target_id : json) (self : GameClient)
  : GameClient :=
  enqueue self (dumps (skill_use skill_index target_id)).

(** The loop of [get_messages] over the queue [inq], with the list built
    so far. *)
Fixpoint get_loop (inq : list str) (messages : list json)
  : result (list json) * list str :=
  match inq with
  | [] => (Return messages, [])
  | text :: rest =>
      match loads text with
      | Return v => get_loop rest (messages ++ [v])
      | Raise e => (Raise e, rest)
      end
  end.

(** [GameClient.get_messages]: [json.loads] is not guarded. *)
Definition get_messages (self : GameClient)
  : result (list json) * GameClient :=
  let (r, inq) := get_loop (incoming_messages self) [] in
  (r, client_state self (socket_opt self) (is_connected self) inq).

(** [GameClient.disconnect] *)
Definition disconnect (self : GameClient) : GameClient :=
  client_state self
    (match socket_opt self with
     | Some sk => Some (close sk)
     | None => None
     end)
    false (incoming_messages self).

(** ** Further predicates on server states and event sequences *)

(** Every entry of the registry leads to a connection object that carries
    the entry's key as its id and, when [strict] is set, whose socket has
    not been closed. *)
Definition sound (strict : bool) (s : GameServer) : Prop :=
  wf s
  /\ forall cid ref,
       In (cid, ref) (clients s) ->
       exists c,
         nth_error (objects s) ref = Some c
         /\ client_id c = cid
         /\ (strict = true -> closed (socket_of c) = false).

(** Every socket that [accept()] returns in [es] is open. *)
Definition accepts_open (es : list event) : Prop :=
  forall sk addr, In (Accept sk addr) es -> closed sk = false.

(** The states of a connection that differ in what the socket has read,
    written or lost, and in the liveness flag. *)
Definition same_identity (c c' : ClientConnection) : Prop :=
  client_id c' = client_id c
  /\ closed (socket_of c') = closed (socket_of c).

(** [frames] are the frames of the messages [ms], one for one. *)
Definition framed (ms : list str) (frames : list bytes) : Prop :=
  Forall2 (fun m frame => Wire.encode m = Return frame) ms frames.

(** No message of [ms] is the empty text. *)
Definition nonempty_texts (ms : list str) : Prop :=
  Forall (fun m : str => m <> []) ms.

(** The connection object behind [ref] after its socket has read up to
    [rest]. *)
Definition read_up_to (c : ClientConnection) (rest : list bytes)
  : ClientConnection :=
  with_socket c (set_inbox (socket_of c) rest).

(** [n] rounds of the send thread of a client, as long as its loop goes on. *)
Fixpoint send_rounds (n : nat) (self : GameClient) : GameClient :=
  match n with
  | O => self
  | S n' =>
      let (on, self') := _send_loop self in
      if on then send_rounds n' self' else self'
  end.

(** The length that the first read of a stream declares is not negative
    (as it is for every stream of octets). *)
Definition header_nonneg (sk : socket) : Prop :=
  match inbox sk with
  | [] => True
  | c :: _ => 0 <= from_bytes (firstn 4 c)
  end.

(** Every segment of the stream holds octets. *)
Definition octets (sk : socket) : Prop := Forall is_bytes (inbox sk).

(** A client that reads from the socket state [sk]. *)
Definition reading (sk : socket) (inq : list str) : GameClient :=
  mkClient (Some sk) true inq [].

(** A client that is about to send [out] on the socket state [sk]. *)
Definition sending (sk : socket) (out : list str) : GameClient :=
  mkClient (Some sk) true [] out.

(** ** Values that [json.dumps] and [json.loads] carry unchanged *)

(** A code point of the Unicode range that is not a surrogate. *)
Definition is_scalar (c : Z) : bool :=
  (0 <=? c) && (c <? 0x110000) && negb (is_surrogate c).

Definition is_text (s : str) : bool := forallb is_scalar s.

Fixpoint distinct (ks : list str) : bool :=
  match ks with
  | [] => true
  | k :: rest => negb (existsb (str_eqb k) rest) && distinct rest
  end.

(** A value without floats, whose strings and keys hold scalar code points
    only, and whose dictionaries have distinct keys (as every [dict] with
    [str] keys has). *)
Fixpoint portable (v : json) : bool :=
  match v with
  | JNull | JBool _ | JInt _ => true
  | JFloat _ => false
  | JString s => is_text s
  | JArray items => forallb portable items
  | JObject members =>
      forallb (fun kv => is_text (fst kv) && portable (snd kv)) members
      && distinct (map fst members)
  end.

(** The number of calls that the decoder needs for a value. *)
Fixpoint weight (v : json) : nat :=
  match v with
  | JArray items => S (fold_right (fun x a => S (weight x + a)) O items)
  | JObject members =>
      S (fold_right (fun kv a => S (weight (snd kv) + a)) O members)
  | _ => 1
  end.

(** What can follow a value in the output of [dumps]: nothing, a comma, or
    the end of the enclosing array or dictionary. *)
Definition follower (rest : str) : Prop :=
  match rest with
  | [] => True
  | c :: _ => c = 44 \/ c = 93 \/ c = 125
  end.

(** * Properties *)

(** ** The length prefix and the UTF-8 codec *)

(** Decide the integer tests of the goal from linear hypotheses. *)
Ltac ztest :=
  repeat match goal with
    | |- context [?a <? ?b] =>
        destruct (Z.ltb_spec a b); [ try (exfalso; lia) | try (exfalso; lia) ]
    | |- context [?a <=? ?b] =>
        destruct (Z.leb_spec a b); [ try (exfalso; lia) | try (exfalso; lia) ]
    end.

(** Name quotient and remainder of a division by 64. *)
Ltac split64 c q r :=
  pose proof (Z.div_mod c 64 ltac:(lia));
  pose proof (Z.mod_pos_bound c 64 ltac:(lia));
  set (q := c / 64) in *; set (r := c mod 64) in *; clearbody q r.

Lemma len_app {A} (a b : list A) : len (a ++ b) = len a + len b.
Proof. unfold len. rewrite length_app. lia. Qed.

Lemma len_nonneg {A} (a : list A) : 0 <= len a.
Proof. unfold len. lia. Qed.

Lemma to_bytes4_ok (n : Z) :
  0 <= n < 2 ^ 32 ->
  to_bytes4 n =
    Return [n / 2 ^ 24; (n / 2 ^ 16) mod 256; (n / 2 ^ 8) mod 256; n mod 256].
Proof.
  intros H. unfold to_bytes4.
  destruct (Z.ltb_spec n 0); [lia|].
  destruct (Z.leb_spec (2 ^ 32) n); [lia|]. reflexivity.
Qed.

Lemma to_bytes4_overflow (n : Z) : 2 ^ 32 <= n -> to_bytes4 n = Raise OverflowError.
Proof.
  intros H. unfold to_bytes4.
  destruct (Z.leb_spec (2 ^ 32) n); [|lia].
  now rewrite orb_true_r.
Qed.

Lemma from_bytes_to_bytes4 (n : Z) (bs : bytes) :
  to_bytes4 n = Return bs -> from_bytes bs = n /\ length bs = 4%nat.
Proof.
  unfold to_bytes4.
  destruct (Z.ltb_spec n 0); [discriminate|].
  destruct (Z.leb_spec (2 ^ 32) n); [discriminate|].
  cbn [orb]. intros E. injection E as <-. split; [|reflexivity].
  unfold from_bytes. cbn [fold_left].
  change (Z.pow_pos 2 24) with (256 * 256 * 256).
  change (Z.pow_pos 2 16) with (256 * 256).
  change (Z.pow_pos 2 8) with 256.
  rewrite <- !Z.div_div by lia.
  pose proof (Z.div_mod n 256 ltac:(lia)).
  pose proof (Z.div_mod (n / 256) 256 ltac:(lia)).
  pose proof (Z.div_mod (n / 256 / 256) 256 ltac:(lia)).
  pose proof (Z.mod_pos_bound n 256 ltac:(lia)).
  pose proof (Z.mod_pos_bound (n / 256) 256 ltac:(lia)).
  pose proof (Z.mod_pos_bound (n / 256 / 256) 256 ltac:(lia)).
  assert (n / 256 / 256 / 256 < 256).
  { change (2 ^ 32) with (256 * 256 * 256 * 256) in *.
    repeat (apply Z.div_lt_upper_bound; [lia|]). lia. }
  lia.
Qed.

Lemma decode_1 (b0 : Z) (rest : bytes) :
  0 <= b0 < 0x80 ->
  decode_utf8 (b0 :: rest) = bind (decode_utf8 rest) (fun s => Return (b0 :: s)).
Proof. intros H. cbn [decode_utf8]. ztest. reflexivity. Qed.

Lemma decode_2 (b0 b1 : Z) (rest : bytes) :
  0xC2 <= b0 < 0xE0 -> 0x80 <= b1 < 0xC0 ->
  decode_utf8 (b0 :: b1 :: rest) =
    bind (decode_utf8 rest)
         (fun s => Return ((b0 - 0xC0) * 64 + (b1 - 0x80) :: s)).
Proof.
  intros H0 H1. cbn [decode_utf8]. unfold is_cont. ztest. reflexivity.
Qed.

Lemma decode_3 (b0 b1 b2 : Z) (rest : bytes) :
  0xE0 <= b0 < 0xF0 -> 0x80 <= b1 < 0xC0 -> 0x80 <= b2 < 0xC0 ->
  let c := (b0 - 0xE0) * 4096 + (b1 - 0x80) * 64 + (b2 - 0x80) in
  0x800 <= c -> c < 0xD800 \/ 0xDFFF < c ->
  decode_utf8 (b0 :: b1 :: b2 :: rest) =
    bind (decode_utf8 rest) (fun s => Return (c :: s)).
Proof.
  intros H0 H1 H2 c Hc Hs. cbn [decode_utf8]. fold c.
  unfold is_cont, is_surrogate. generalize dependent c. intros c Hc Hs.
  ztest; reflexivity.
Qed.

Lemma decode_4 (b0 b1 b2 b3 : Z) (rest : bytes) :
  0xF0 <= b0 < 0xF5 -> 0x80 <= b1 < 0xC0 -> 0x80 <= b2 < 0xC0 ->
  0x80 <= b3 < 0xC0 ->
  let c := (b0 - 0xF0) * 262144 + (b1 - 0x80) * 4096
           + (b2 - 0x80) * 64 + (b3 - 0x80) in
  0x10000 <= c < 0x110000 ->
  decode_utf8 (b0 :: b1 :: b2 :: b3 :: rest) =
    bind (decode_utf8 rest) (fun s => Return (c :: s)).
Proof.
  intros H0 H1 H2 H3 c Hc. cbn [decode_utf8]. fold c.
  unfold is_cont. generalize dependent c. intros c Hc.
  ztest; reflexivity.
Qed.

Lemma Some_inj {A} (a b : A) : Some a = Some b -> a = b.
Proof. congruence. Qed.

Lemma decode_encode_cp (c : Z) (bs rest : bytes) :
  encode_cp c = Some bs ->
  decode_utf8 (bs ++ rest) = bind (decode_utf8 rest) (fun s => Return (c :: s)).
Proof.
  unfold encode_cp, is_surrogate.
  destruct (Z.ltb_spec c 0); [discriminate|].
  destruct (Z.ltb_spec c 0x80).
  { intros E. apply Some_inj in E. subst bs. apply decode_1. lia. }
  destruct (Z.ltb_spec c 0x800).
  { intros E. apply Some_inj in E. subst bs.
    split64 c q r. unfold app. rewrite decode_2 by lia.
    replace ((192 + q - 192) * 64 + (128 + r - 128)) with c by lia.
    reflexivity. }
  destruct (Z.ltb_spec c 0x10000).
  { destruct (Z.leb_spec 0xD800 c); destruct (Z.leb_spec c 0xDFFF);
      cbn [andb]; try discriminate;
      intros E; apply Some_inj in E; subst bs;
      change 4096 with (64 * 64); rewrite <- Z.div_div by lia;
      split64 c q r; split64 q q1 r1; unfold app;
      rewrite decode_3 by lia;
      replace ((224 + q1 - 224) * 4096 + (128 + r1 - 128) * 64
               + (128 + r - 128)) with c by lia;
      reflexivity. }
  destruct (Z.ltb_spec c 0x110000); [|discriminate].
  intros E. apply Some_inj in E. subst bs.
  change 262144 with (64 * 64 * 64). change 4096 with (64 * 64).
  rewrite <- !Z.div_div by lia.
  split64 c q r. split64 q q1 r1. split64 q1 q2 r2. unfold app.
  rewrite decode_4 by lia.
  replace ((240 + q2 - 240) * 262144 + (128 + r2 - 128) * 4096
           + (128 + r1 - 128) * 64 + (128 + r - 128)) with c by lia.
  reflexivity.
Qed.

Lemma decode_encode_utf8 (s : str) (bs : bytes) :
  encode_utf8 s = Return bs -> decode_utf8 bs = Return s.
Proof.
  revert bs. induction s as [|c s IH]; intros bs; cbn [encode_utf8].
  - intros E. injection E as <-. reflexivity.
  - destruct (encode_cp c) as [cb|] eqn:Ec; [|discriminate].
    destruct (encode_utf8 s) as [rest|] eqn:Es; [|discriminate].
    cbn [bind]. intros E. injection E as <-.
    rewrite (decode_encode_cp _ _ _ Ec), (IH _ eq_refl). reflexivity.
Qed.

(** ** Reading one frame from a socket *)

Lemma same_endpoint_refl (a : socket) : same_endpoint a a.
Proof. repeat split. Qed.

Lemma same_endpoint_trans (a b c : socket) :
  same_endpoint a b -> same_endpoint b c -> same_endpoint a c.
Proof. unfold same_endpoint. intuition congruence. Qed.

Lemma same_endpoint_set_inbox (a : socket) (i : list bytes) :
  same_endpoint a (set_inbox a i).
Proof. repeat split. Qed.

Lemma recv_loop_done (fuel : nat) (msg_len : Z) (message : bytes) (sk : socket) :
  msg_len <= len message ->
  recv_loop fuel msg_len message sk = (Return (Some message), sk).
Proof.
  intros H. destruct fuel; cbn [recv_loop];
    destruct (Z.ltb_spec (len message) msg_len); try lia; reflexivity.
Qed.

Lemma recv_loop_step (fuel : nat) (msg_len : Z) (message : bytes) (sk : socket) :
  len message < msg_len ->
  recv_loop (S fuel) msg_len message sk =
    match recv (msg_len - len message) sk with
    | (Return [], sk') => (Return None, sk')
    | (Return chunk, sk') => recv_loop fuel msg_len (message ++ chunk) sk'
    | (Raise e, sk') => (Raise e, sk')
    end.
Proof.
  intros H. cbn [recv_loop].
  destruct (Z.ltb_spec (len message) msg_len); [|lia].
  unfold mbind. destruct (recv (msg_len - len message) sk) as [[[|b chunk]|e] sk'];
    reflexivity.
Qed.

Lemma len_firstn {A} (n : nat) (l : list A) :
  (n <= length l)%nat -> len (firstn n l) = Z.of_nat n.
Proof. intros H. unfold len. rewrite length_firstn. lia. Qed.

(** The payload loop returns the next [msg_len - len message] bytes of the
    stream, however they are cut into segments, or [None] when the stream
    ends before. *)
Lemma recv_loop_spec (chunks : list bytes) :
  forall (fuel : nat) (msg_len : Z) (message : bytes) (sk : socket),
    closed sk = false ->
    inbox sk = chunks ->
    whole_segments chunks = true ->
    (Z.to_nat (msg_len - len message) <= fuel)%nat ->
    let need := Z.to_nat (msg_len - len message) in
    let stream := concat chunks in
    exists sk',
      recv_loop fuel msg_len message sk =
        (Return (if len stream <? msg_len - len message then None
                 else Some (message ++ firstn need stream)), sk')
      /\ same_endpoint sk sk'
      /\ whole_segments (inbox sk') = true
      /\ (msg_len - len message <= len stream ->
          concat (inbox sk') = skipn need stream).
Proof.
  induction chunks as [|c rest IH]; intros fuel msg_len message sk Hc Hi Hw Hf;
    cbv zeta.
  - (* the stream has ended *)
    cbn [concat]. change (len (@nil Z)) with 0.
    destruct (Z.ltb_spec 0 (msg_len - len message)) as [Hn|Hn].
    + destruct fuel as [|fuel]; [lia|].
      rewrite recv_loop_step by lia. unfold recv. rewrite Hc, Hi.
      exists sk. repeat split; try assumption; try (now rewrite Hi). lia.
    + rewrite recv_loop_done by lia. exists sk.
      replace (Z.to_nat (msg_len - len message)) with 0%nat by lia.
      cbn [firstn skipn]. rewrite app_nil_r.
      repeat split; try assumption; now rewrite Hi.
  - cbn [whole_segments forallb] in Hw. apply andb_true_iff in Hw as [Hne Hw].
    destruct c as [|b c]; [discriminate|]. clear Hne.
    set (seg := b :: c) in *.
    assert (Hseg : 0 < len seg) by (unfold len, seg; cbn [length]; lia).
    cbn [concat]. rewrite len_app.
    destruct (Z.ltb_spec 0 (msg_len - len message)) as [Hn|Hn].
    + destruct fuel as [|fuel]; [lia|].
      rewrite recv_loop_step by lia. unfold recv. rewrite Hc, Hi.
      destruct (Z.leb_spec (len seg) (msg_len - len message)) as [Hl|Hl].
      * (* the whole segment is taken *)
        unfold seg at 1.
        destruct (IH fuel msg_len (message ++ seg) (set_inbox sk rest))
          as (sk' & E & Hs & Hw' & Hrest); try assumption; try reflexivity.
        { rewrite len_app. lia. }
        exists sk'. rewrite E. rewrite len_app.
        assert (Hlen : (length seg <= Z.to_nat (msg_len - len message))%nat)
          by (unfold len in *; lia).
        split.
        { f_equal.
          destruct (Z.ltb_spec (len (concat rest)) (msg_len - (len message + len seg)));
            destruct (Z.ltb_spec (len seg + len (concat rest)) (msg_len - len message));
            try lia; try reflexivity.
          do 2 f_equal. rewrite <- app_assoc. f_equal.
          rewrite firstn_app.
          rewrite (firstn_all2 seg) by lia. do 2 f_equal.
          unfold len. lia. }
        split; [exact (same_endpoint_trans _ _ _ (same_endpoint_set_inbox sk rest) Hs)|].
        split; [assumption|].
        intros Hge. rewrite len_app in Hrest. rewrite Hrest by lia.
        rewrite skipn_app. rewrite (skipn_all2 seg) by lia. cbn [app].
        f_equal. unfold len. lia.
      * (* the segment holds more than is needed *)
        assert (Hlt : (Z.to_nat (msg_len - len message) < length seg)%nat)
          by (unfold len in *; lia).
        destruct (firstn (Z.to_nat (msg_len - len message)) seg) as [|b' c'] eqn:Ef.
        { apply (f_equal (@length Z)) in Ef. rewrite length_firstn in Ef.
          cbn [length] in Ef. lia. }
        rewrite <- Ef.
        rewrite recv_loop_done.
        2:{ rewrite len_app, len_firstn by lia. lia. }
        exists (set_inbox sk (skipn (Z.to_nat (msg_len - len message)) seg :: rest)).
        split.
        { destruct (Z.ltb_spec (len seg + len (concat rest)) (msg_len - len message));
            [pose proof (len_nonneg (concat rest)); lia|].
          do 3 f_equal. rewrite firstn_app.
          replace (Z.to_nat (msg_len - len message) - length seg)%nat with 0%nat by lia.
          cbn [firstn]. now rewrite app_nil_r. }
        split; [apply same_endpoint_set_inbox|].
        split.
        { cbn [set_inbox inbox whole_segments forallb].
          destruct (skipn (Z.to_nat (msg_len - len message)) seg) eqn:Es.
          - apply (f_equal (@length Z)) in Es. rewrite length_skipn in Es.
            cbn [length] in Es. lia.
          - exact Hw. }
        intros _. cbn [set_inbox inbox concat]. rewrite skipn_app.
        replace (Z.to_nat (msg_len - len message) - length seg)%nat with 0%nat by lia.
        reflexivity.
    + rewrite recv_loop_done by lia. exists sk.
      replace (Z.to_nat (msg_len - len message)) with 0%nat by lia.
      cbn [firstn skipn]. rewrite app_nil_r.
      destruct (Z.ltb_spec (len seg + len (concat rest)) (msg_len - len message));
        [pose proof (len_nonneg (concat rest)); lia|].
      repeat split; try assumption.
      * rewrite Hi. cbn [whole_segments forallb]. exact Hw.
      * now rewrite Hi.
Qed.

Lemma whole_segments_tail (seg : bytes) (n : nat) (rest : list bytes) :
  (n < length seg)%nat ->
  whole_segments rest = true ->
  whole_segments (skipn n seg :: rest) = true.
Proof.
  intros Hn Hw. cbn [whole_segments forallb].
  destruct (skipn n seg) eqn:E; [|exact Hw].
  apply (f_equal (@length Z)) in E. rewrite length_skipn in E.
  cbn [length] in E. lia.
Qed.

(** The first read of [receive_message], on a stream whose first segment
    holds the length prefix: it returns the first four bytes. *)
Lemma recv_header (sk : socket) (seg : bytes) (rest : list bytes) :
  closed sk = false ->
  inbox sk = seg :: rest ->
  whole_segments (seg :: rest) = true ->
  4 <= len seg ->
  exists b tl sk1,
    recv 4 sk = (Return (b :: tl), sk1)
    /\ b :: tl = firstn 4 (concat (seg :: rest))
    /\ same_endpoint sk sk1
    /\ whole_segments (inbox sk1) = true
    /\ concat (inbox sk1) = skipn 4 (concat (seg :: rest)).
Proof.
  intros Hc Hi Hw H4. unfold recv. rewrite Hc, Hi.
  cbn [whole_segments forallb] in Hw. apply andb_true_iff in Hw as [_ Hw].
  assert (Hl : (4 <= length seg)%nat) by (unfold len in H4; lia).
  cbn [concat]. rewrite firstn_app, skipn_app.
  replace (4 - length seg)%nat with 0%nat by lia.
  rewrite firstn_O, skipn_O, app_nil_r.
  destruct (Z.leb_spec (len seg) 4) as [Hle|Hgt].
  - assert (length seg = 4%nat) by (unfold len in Hle; lia).
    rewrite firstn_all2 by lia. rewrite skipn_all2 by lia.
    destruct seg as [|b tl]; [discriminate|].
    exists b, tl, (set_inbox sk rest).
    repeat split; try assumption.
  - change (Z.to_nat 4) with 4%nat.
    assert (Hlt : (4 < length seg)%nat) by (unfold len in Hgt; lia).
    destruct (firstn 4 seg) as [|b tl] eqn:Ef.
    { apply (f_equal (@length Z)) in Ef. rewrite length_firstn in Ef.
      cbn [length] in Ef. lia. }
    exists b, tl, (set_inbox sk (skipn 4 seg :: rest)).
    repeat split; try assumption.
    apply whole_segments_tail; assumption.
Qed.

Lemma len_skipn {A} (n : nat) (l : list A) :
  len (skipn n l) = Z.max 0 (len l - Z.of_nat n).
Proof. unfold len. rewrite length_skipn. lia. Qed.

(** What the [try] block of [receive_message] computes on such a stream. *)
Lemma receive_try_spec (sk : socket) :
  closed sk = false ->
  whole_segments (inbox sk) = true ->
  header_in_first (inbox sk) = true ->
  let stream := concat (inbox sk) in
  exists sk',
    receive_try sk =
      (if Wire.truncated stream then Return None
       else
         match decode_utf8 (Wire.payload stream) with
         | Return text => Return (Some text)
         | Raise e => Raise e
         end, sk')
    /\ same_endpoint sk sk'
    /\ (Wire.truncated stream = false ->
        concat (inbox sk') =
          skipn (4 + Z.to_nat (Wire.declared stream)) stream).
Proof.
  intros Hc Hw Hh. cbv zeta. destruct (inbox sk) as [|seg rest] eqn:Hi.
  - exists sk. unfold receive_try, mbind, recv. rewrite Hc, Hi.
    cbn [concat]. unfold Wire.truncated. cbn.
    repeat split; discriminate.
  - cbn [header_in_first] in Hh. apply Z.leb_le in Hh.
    destruct (recv_header sk seg rest Hc Hi Hw Hh)
      as (b & tl & sk1 & Er & Eh & Hs1 & Hw1 & Hr1).
    set (stream := concat (seg :: rest)) in *.
    assert (Hlen : 4 <= len stream).
    { unfold stream. cbn [concat]. rewrite len_app.
      pose proof (len_nonneg (concat rest)). lia. }
    unfold receive_try, mbind. rewrite Er. rewrite Eh.
    fold (Wire.declared stream). set (n := Wire.declared stream).
    destruct (recv_loop_spec (inbox sk1) (Z.to_nat n) n [] sk1)
      as (sk2 & El & Hs2 & _ & Hr2);
      try assumption; try reflexivity.
    { destruct Hs1 as (_ & Hcl & _). congruence. }
    { change (len (@nil Z)) with 0. lia. }
    change (len (@nil Z)) with 0 in El, Hr2. rewrite Z.sub_0_r in El, Hr2.
    rewrite El. cbn [app] in *. rewrite Hr1 in *.
    assert (Hls : len (skipn 4 stream) = len stream - 4).
    { rewrite len_skipn. lia. }
    rewrite Hls in *.
    exists sk2. unfold Wire.truncated. fold n.
    destruct (Z.ltb_spec (len stream) 4); [lia|]. cbn [orb].
    split.
    { destruct (Z.ltb_spec (len stream - 4) n); [reflexivity|].
      unfold lift, ret. fold (Wire.payload stream).
      unfold Wire.payload. fold n.
      destruct (decode_utf8 (firstn (Z.to_nat n) (skipn 4 stream)));
        reflexivity. }
    split; [exact (same_endpoint_trans _ _ _ Hs1 Hs2)|].
    intros Ht. apply Z.ltb_ge in Ht. rewrite Hr2 by lia.
    rewrite skipn_skipn. f_equal. lia.
Qed.

(** The rounds given to the payload loop are enough on every socket: with
    at least as many rounds as bytes are missing, one more round changes
    nothing. *)
Lemma recv_loop_fuel (fuel : nat) :
  forall (msg_len : Z) (message : bytes) (sk : socket),
    (Z.to_nat (msg_len - len message) <= fuel)%nat ->
    recv_loop (S fuel) msg_len message sk = recv_loop fuel msg_len message sk.
Proof.
  induction fuel as [|fuel IH]; intros msg_len message sk Hf.
  - rewrite !recv_loop_done by lia. reflexivity.
  - destruct (Z.ltb_spec (len message) msg_len) as [Hlt|Hge].
    + rewrite (recv_loop_step (S fuel)), (recv_loop_step fuel) by assumption.
      destruct (recv (msg_len - len message) sk) as [[[|b chunk]|e] sk'];
        try reflexivity.
      apply IH. rewrite len_app. unfold len at 2. cbn [length]. lia.
    + rewrite !recv_loop_done by lia. reflexivity.
Qed.

(** ** Writing one frame to a socket *)

(** [send_try] hands the frame of the wire protocol to [send], in one piece. *)
Lemma send_try_encode (message : str) (sk : socket) :
  send_try message sk =
    match Wire.encode message with
    | Return frame =>
        if closed sk || negb (writable sk) then (Raise OSError, sk)
        else (Return true,
              mkSocket (inbox sk) (outbox sk ++ [frame]) (closed sk) (writable sk))
    | Raise e => (Raise e, sk)
    end.
Proof.
  unfold send_try, Wire.encode, mbind, lift, ret, send.
  destruct (encode_utf8 message) as [data|e]; cbn [bind]; [|reflexivity].
  destruct (to_bytes4 (len data)) as [length|e]; cbn [bind]; [|reflexivity].
  destruct (closed sk || negb (writable sk)); reflexivity.
Qed.

Lemma send_message_ok (self : ClientConnection) (message : str) (frame : bytes) :
  Wire.encode message = Return frame ->
  closed (socket_of self) = false ->
  writable (socket_of self) = true ->
  send_message self message =
    (true,
     with_socket self
       (mkSocket (inbox (socket_of self)) (outbox (socket_of self) ++ [frame])
                 false true)).
Proof.
  intros He Hc Hw. unfold send_message. rewrite send_try_encode, He, Hc, Hw.
  reflexivity.
Qed.

Lemma send_message_failed (self : ClientConnection) (message : str) :
  fst (send_message self message) = false ->
  send_message self message = (false, with_connected self false).
Proof.
  unfold send_message. rewrite send_try_encode.
  destruct (Wire.encode message) as [frame|e].
  - destruct (closed (socket_of self) || negb (writable (socket_of self)));
      cbn [fst]; [|discriminate].
    intros _. destruct self; reflexivity.
  - intros _. destruct self; reflexivity.
Qed.

Lemma send_message_sent (self : ClientConnection) (message : str) :
  fst (send_message self message) = true ->
  exists frame,
    Wire.encode message = Return frame
    /\ send_message self message =
         (true,
          with_socket self
            (mkSocket (inbox (socket_of self))
                      (outbox (socket_of self) ++ [frame])
                      (closed (socket_of self)) (writable (socket_of self)))).
Proof.
  unfold send_message. rewrite send_try_encode.
  destruct (Wire.encode message) as [frame|e]; [|discriminate].
  destruct (closed (socket_of self) || negb (writable (socket_of self)));
    cbn [fst]; [discriminate|].
  intros _. exists frame. split; reflexivity.
Qed.

Lemma encode_frame (message : str) (data : bytes) :
  encode_utf8 message = Return data ->
  len data < 2 ^ 32 ->
  exists length,
    to_bytes4 (len data) = Return length
    /\ Wire.encode message = Return (length ++ data)
    /\ from_bytes length = len data
    /\ List.length length = 4%nat.
Proof.
  intros He Hl. pose proof (len_nonneg data).
  eexists. split; [apply to_bytes4_ok; lia|].
  unfold Wire.encode. rewrite He. cbn [bind].
  rewrite to_bytes4_ok by lia. cbn [bind].
  split; [reflexivity|].
  apply from_bytes_to_bytes4. apply to_bytes4_ok. lia.
Qed.

(** The stream [frame ++ more] decodes to the message that was framed. *)
Lemma wire_decode_encode (message : str) (frame more : bytes) :
  Wire.encode message = Return frame ->
  Wire.truncated (frame ++ more) = false
  /\ Wire.decode (frame ++ more) = Some message
  /\ skipn (4 + Z.to_nat (Wire.declared (frame ++ more))) (frame ++ more) = more.
Proof.
  unfold Wire.encode.
  destruct (encode_utf8 message) as [data|] eqn:Ed; [|discriminate].
  cbn [bind].
  destruct (to_bytes4 (len data)) as [length|] eqn:El; [|discriminate].
  cbn [bind]. intros E. injection E as <-.
  destruct (from_bytes_to_bytes4 _ _ El) as [Hf H4].
  assert (Hdecl : Wire.declared ((length ++ data) ++ more) = len data).
  { unfold Wire.declared. rewrite <- app_assoc, firstn_app.
    rewrite firstn_all2 by lia. rewrite H4. cbn [Nat.sub firstn].
    rewrite app_nil_r. exact Hf. }
  assert (Ht : Wire.truncated ((length ++ data) ++ more) = false).
  { unfold Wire.truncated. rewrite Hdecl. rewrite !len_app.
    pose proof (len_nonneg data). pose proof (len_nonneg more).
    assert (len length = 4) by (unfold len; lia).
    apply orb_false_iff. split; [apply Z.ltb_ge|apply Z.ltb_ge]; lia. }
  split; [exact Ht|]. split.
  - unfold Wire.decode. rewrite Ht. unfold Wire.payload. rewrite Hdecl.
    rewrite <- app_assoc, skipn_app. rewrite skipn_all2 by lia.
    rewrite H4. cbn [Nat.sub skipn app]. rewrite firstn_app.
    rewrite firstn_all2 by (unfold len; lia).
    replace (Z.to_nat (len data) - List.length data)%nat with 0%nat
      by (unfold len; lia).
    rewrite firstn_O, app_nil_r.
    now rewrite (decode_encode_utf8 _ _ Ed).
  - rewrite Hdecl. rewrite <- app_assoc.
    replace (4 + Z.to_nat (len data))%nat with (List.length (length ++ data)).
    2:{ rewrite length_app. unfold len. lia. }
    rewrite app_assoc. rewrite skipn_app, skipn_all, Nat.sub_diag. reflexivity.
Qed.

Lemma receive_message_spec (self : ClientConnection) :
  closed (socket_of self) = false ->
  whole_segments (inbox (socket_of self)) = true ->
  header_in_first (inbox (socket_of self)) = true ->
  let stream := concat (inbox (socket_of self)) in
  fst (receive_message self) = Wire.decode stream
  /\ same_endpoint (socket_of self) (socket_of (snd (receive_message self)))
  /\ connected (snd (receive_message self)) = connected self
  /\ client_id (snd (receive_message self)) = client_id self
  /\ (Wire.truncated stream = false ->
      concat (inbox (socket_of (snd (receive_message self)))) =
        skipn (4 + Z.to_nat (Wire.declared stream)) stream).
Proof.
  intros Hc Hw Hh. cbv zeta.
  destruct (receive_try_spec _ Hc Hw Hh) as (sk' & E & Hs & Hr).
  unfold receive_message. rewrite E. unfold Wire.decode.
  destruct (Wire.truncated (concat (inbox (socket_of self)))).
  - cbn. repeat split; try apply Hs. discriminate.
  - destruct (decode_utf8 (Wire.payload (concat (inbox (socket_of self)))));
      cbn; repeat split; try apply Hs; intros _; apply Hr; reflexivity.
Qed.

(** ** Frame decoding (C4) *)

(** C4, as stated, fails on a complete frame whose payload is not UTF-8:
    all five bytes of the frame [00 00 00 01 ff] are there, the stream is
    not truncated, and [receive_message] returns [None] all the same. *)
Lemma receive_message_complete_frame_fails :
  Wire.truncated (concat (inbox (socket_of (incoming [[0; 0; 0; 1; 255]]))))
    = false
  /\ fst (receive_message (incoming [[0; 0; 0; 1; 255]])) = None.
Proof. split; reflexivity. Qed.

(** When the first read does not bring all four length bytes, the length is
    taken from what it brought: the stream [00 00 | 00 01 61] yields the empty
    message and leaves [00 01 61] unread. *)
Example receive_message_short_header :
  receive_message (incoming [[0; 0]; [0; 1; 97]])
  = (Some [], incoming [[0; 1; 97]]).
Proof. reflexivity. Qed.

(** C4 (amended).  On an open socket whose first segment brings the four
    length bytes (or whose stream has ended), [receive_message] returns
    [None] exactly when the stream is truncated -- it ends before the four
    length bytes or before the declared number of payload bytes -- or the
    payload is not valid UTF-8; it returns a message exactly when the stream
    holds the whole frame and the payload decodes to that message; and then
    it has consumed the four length bytes and the declared number of payload
    bytes, no more. *)
Theorem receive_message_decodes_frame (self : ClientConnection) :
  closed (socket_of self) = false ->
  whole_segments (inbox (socket_of self)) = true ->
  header_in_first (inbox (socket_of self)) = true ->
  let stream := concat (inbox (socket_of self)) in
  (fst (receive_message self) = None <->
     Wire.truncated stream = true
     \/ exists e, decode_utf8 (Wire.payload stream) = Raise e)
  /\ (forall text,
        fst (receive_message self) = Some text <->
          Wire.truncated stream = false
          /\ decode_utf8 (Wire.payload stream) = Return text)
  /\ (Wire.truncated stream = false ->
      concat (inbox (socket_of (snd (receive_message self)))) =
        skipn (4 + Z.to_nat (Wire.declared stream)) stream).
Proof.
  intros Hc Hw Hh stream.
  destruct (receive_message_spec self Hc Hw Hh) as (E & _ & _ & _ & Hr).
  fold stream in E, Hr. rewrite E. unfold Wire.decode.
  split; [|split; [|exact Hr]].
  - destruct (Wire.truncated stream); [intuition|].
    destruct (decode_utf8 (Wire.payload stream)) as [text|e].
    + split; [discriminate|]. intros [H|[e H]]; discriminate.
    + split; [|reflexivity]. intros _. right. now exists e.
  - intros text. destruct (Wire.truncated stream).
    + split; [discriminate|]. intros [H _]. discriminate.
    + destruct (decode_utf8 (Wire.payload stream)) as [text'|e].
      * split; [intros [= ->]; now split|]. intros [_ [= ->]]. reflexivity.
      * split; [discriminate|]. intros [_ H]. discriminate.
Qed.

(** The stream [00 00 00 02 68 | 69 21]: the message "hi" arrives in two
    segments, and the byte after the frame stays in the stream. *)
Lemma receive_message_decodes_frame_witness :
  fst (receive_message (incoming [[0; 0; 0; 2; 104]; [105; 33]]))
    = Some [104; 105]
  /\ concat (inbox (socket_of
       (snd (receive_message (incoming [[0; 0; 0; 2; 104]; [105; 33]])))))
     = [33].
Proof.
  pose proof (receive_message_decodes_frame
                (incoming [[0; 0; 0; 2; 104]; [105; 33]])
                eq_refl eq_refl eq_refl) as H.
  cbv zeta in H. destruct H as (_ & Hsome & Hrest). split.
  - apply Hsome. split; reflexivity.
  - rewrite Hrest by reflexivity. reflexivity.
Defined.

(** ** The framing round trip (C5) *)



(** ** Messages too long for the length prefix (C10) *)

(** C10.  For every message whose UTF-8 encoding has 2^32 bytes or more,
    [send_message] returns [False], leaves the socket as it was -- nothing
    is handed to [send] -- and sets [connected] to [False]: the conversion
    of the length to four bytes raises [OverflowError], which the handler of
    [send_message] catches. *)
Theorem send_message_overflow
  (self : ClientConnection) (message : str) (data : bytes) :
  encode_utf8 message = Return data ->
  2 ^ 32 <= len data ->
  to_bytes4 (len data) = Raise OverflowError
  /\ send_message self message = (false, with_connected self false).
Proof.
  intros He Hl. split; [now apply to_bytes4_overflow|].
  unfold send_message. rewrite send_try_encode. unfold Wire.encode.
  rewrite He. cbn [bind]. rewrite to_bytes4_overflow by exact Hl. cbn [bind].
  destruct self; reflexivity.
Qed.

Lemma encode_utf8_repeat_a (n : nat) :
  encode_utf8 (repeat 97 n) = Return (repeat 97 n).
Proof.
  induction n as [|n IH]; [reflexivity|].
  cbn [repeat encode_utf8]. rewrite IH. reflexivity.
Qed.

(** A message of 2^32 letters "a". *)
Lemma send_message_overflow_witness :
  send_message (incoming []) (repeat 97 (Z.to_nat 4294967296))
  = (false, with_connected (incoming []) false).
Proof.
  apply (send_message_overflow (incoming []) (repeat 97 (Z.to_nat 4294967296))
           (repeat 97 (Z.to_nat 4294967296))).
  - apply encode_utf8_repeat_a.
  - unfold len. rewrite repeat_length. rewrite Z2Nat.id by lia.
    change (2 ^ 32) with 4294967296. lia.
Defined.

(** ** Dictionaries *)

Lemma str_eqb_eq (a b : str) : str_eqb a b = true <-> a = b.
Proof. unfold str_eqb. destruct (str_eq_dec a b); intuition discriminate. Qed.

Lemma str_eqb_refl (a : str) : str_eqb a a = true.
Proof. now apply str_eqb_eq. Qed.

Lemma str_eqb_neq (a b : str) : str_eqb a b = false <-> a <> b.
Proof. unfold str_eqb. destruct (str_eq_dec a b); intuition discriminate. Qed.

Section DictFacts.
Context {V : Type}.
Implicit Types (d : Dict.dict V) (k : str) (v : V).

Lemma dict_length_set d k v :
  (length (Dict.set d k v) <= S (length d))%nat.
Proof.
  induction d as [|[k' v'] d IH]; cbn [Dict.set length]; [lia|].
  destruct (str_eqb k' k); cbn [length]; lia.
Qed.

Lemma dict_get_set_same d k v : Dict.get (Dict.set d k v) k = Some v.
Proof.
  induction d as [|[k' v'] d IH]; cbn [Dict.set Dict.get].
  - now rewrite str_eqb_refl.
  - destruct (str_eqb k' k) eqn:E; cbn [Dict.get]; rewrite E; auto.
Qed.

Lemma dict_get_set_other d k k0 v :
  k0 <> k -> Dict.get (Dict.set d k v) k0 = Dict.get d k0.
Proof.
  intros Hne. induction d as [|[k' v'] d IH]; cbn [Dict.set Dict.get].
  - apply str_eqb_neq in Hne. destruct (str_eqb k k0) eqn:E; [|reflexivity].
    apply str_eqb_eq in E. subst. now rewrite str_eqb_refl in Hne.
  - destruct (str_eqb k' k) eqn:E; cbn [Dict.get].
    + apply str_eqb_eq in E. subst k'.
      destruct (str_eqb k k0) eqn:E0; [|reflexivity].
      apply str_eqb_eq in E0. congruence.
    + now rewrite IH.
Qed.

Lemma dict_length_del d k : (length (Dict.del d k) <= length d)%nat.
Proof. apply filter_length_le. Qed.

Lemma dict_get_del_same d k : Dict.get (Dict.del d k) k = None.
Proof.
  induction d as [|[k' v'] d IH]; [reflexivity|].
  unfold Dict.del in *. cbn [filter fst].
  destruct (str_eqb k' k) eqn:E; cbn [negb]; [exact IH|].
  cbn [Dict.get]. now rewrite E.
Qed.

Lemma dict_get_del_other d k k0 :
  k0 <> k -> Dict.get (Dict.del d k) k0 = Dict.get d k0.
Proof.
  intros Hne. induction d as [|[k' v'] d IH]; [reflexivity|].
  unfold Dict.del in *. cbn [filter fst].
  destruct (str_eqb k' k) eqn:E; cbn [negb Dict.get].
  - apply str_eqb_eq in E. subst k'.
    destruct (str_eqb k k0) eqn:E0; [|exact IH].
    apply str_eqb_eq in E0. congruence.
  - now rewrite IH.
Qed.

Lemma dict_del_absent d k : Dict.get d k = None -> Dict.del d k = d.
Proof.
  induction d as [|[k' v'] d IH]; [reflexivity|].
  unfold Dict.del in *. cbn [Dict.get filter fst].
  destruct (str_eqb k' k); [discriminate|]. cbn [negb].
  intros H. now rewrite IH.
Qed.

Lemma dict_get_In d k v : Dict.get d k = Some v -> In (k, v) d.
Proof.
  induction d as [|[k' v'] d IH]; cbn [Dict.get]; [discriminate|].
  destruct (str_eqb k' k) eqn:E.
  - apply str_eqb_eq in E. intros [= ->]. subst. now left.
  - intros H. right. auto.
Qed.

Lemma dict_In_get d k v :
  NoDup (Dict.keys d) -> In (k, v) d -> Dict.get d k = Some v.
Proof.
  unfold Dict.keys.
  induction d as [|[k' v'] d IH]; cbn [map fst Dict.get]; [intros _ []|].
  intros Hnd [H|H]; inversion Hnd as [|? ? Hni Hnd']; subst.
  - injection H as -> ->. now rewrite str_eqb_refl.
  - destruct (str_eqb k' k) eqn:E; [|auto].
    apply str_eqb_eq in E. subst k'. exfalso. apply Hni.
    apply in_map_iff. now exists (k, v).
Qed.

Lemma dict_In_set d k v k0 v0 :
  In (k0, v0) (Dict.set d k v) -> (k0 = k /\ v0 = v) \/ In (k0, v0) d.
Proof.
  induction d as [|[k' v'] d IH]; cbn [Dict.set].
  - intros [[= <- <-]|[]]. now left.
  - destruct (str_eqb k' k) eqn:E.
    + apply str_eqb_eq in E. subst k'.
      intros [[= <- <-]|H]; [now left|right; now right].
    + intros [H|H]; [right; now left|].
      destruct (IH H) as [?|?]; [now left|right; now right].
Qed.

Lemma dict_keys_set d k v :
  NoDup (Dict.keys d) -> NoDup (Dict.keys (Dict.set d k v)).
Proof.
  unfold Dict.keys.
  induction d as [|[k' v'] d IH]; cbn [Dict.set map fst]; intros Hnd.
  - repeat constructor. intros [].
  - inversion Hnd as [|? ? Hni Hnd']; subst.
    destruct (str_eqb k' k) eqn:E; cbn [map fst].
    + now constructor.
    + constructor; [|auto]. intros Hin. apply in_map_iff in Hin.
      destruct Hin as ([k0 v0] & Hk & Hin). cbn [fst] in Hk. subst k0.
      destruct (dict_In_set _ _ _ _ _ Hin) as [[-> _]|Hin'].
      * now rewrite str_eqb_refl in E.
      * apply Hni. apply in_map_iff. now exists (k', v0).
Qed.

Lemma dict_In_del d k k0 v0 :
  In (k0, v0) (Dict.del d k) <-> In (k0, v0) d /\ k0 <> k.
Proof.
  unfold Dict.del. rewrite filter_In. cbn [fst].
  rewrite negb_true_iff, str_eqb_neq. reflexivity.
Qed.

Lemma NoDup_map_filter {E K} (key : E -> K) (keep : E -> bool)
  (entries : list E) :
  NoDup (map key entries) -> NoDup (map key (filter keep entries)).
Proof.
  induction entries as [|e entries IH]; cbn [map filter]; [auto|].
  intros Hnd. inversion Hnd as [|? ? Hni Hnd']; subst.
  destruct (keep e); cbn [map]; [|auto].
  constructor; [|auto]. intros Hin. apply Hni.
  apply in_map_iff in Hin. destruct Hin as (x & Hx & Hin).
  apply filter_In in Hin. apply in_map_iff. exists x. tauto.
Qed.

Lemma dict_keys_del d k :
  NoDup (Dict.keys d) -> NoDup (Dict.keys (Dict.del d k)).
Proof. apply NoDup_map_filter. Qed.

End DictFacts.

Lemma dict_values_del (d : Dict.dict nat) (k : str) :
  NoDup (map snd d) -> NoDup (map snd (Dict.del d k)).
Proof. apply NoDup_map_filter. Qed.

Lemma dict_values_set (d : Dict.dict nat) (k : str) (v : nat) :
  ~ In v (map snd d) -> NoDup (map snd d) -> NoDup (map snd (Dict.set d k v)).
Proof.
  induction d as [|[k' v'] d IH]; cbn [Dict.set map snd]; intros Hv Hnd.
  - repeat constructor. intros [].
  - inversion Hnd as [|? ? Hni Hnd']; subst.
    destruct (str_eqb k' k); cbn [map snd].
    + constructor; [|assumption]. intros Hin. apply Hv. now right.
    + constructor.
      * intros Hin. apply in_map_iff in Hin.
        destruct Hin as ([k0 v0] & Hk & Hin). cbn [snd] in Hk. subst v0.
        destruct (dict_In_set _ _ _ _ _ Hin) as [[_ ->]|Hin'].
        -- apply Hv. now left.
        -- apply Hni. apply in_map_iff. now exists (k0, v').
      * apply IH; [|assumption]. intros Hin. apply Hv. now right.
Qed.

(** ** The object store *)

Lemma length_update {A} (l : list A) (i : nat) (f : A -> A) :
  length (update l i f) = length l.
Proof.
  revert i. induction l as [|x l IH]; intros [|i]; cbn [update length]; auto.
Qed.

Lemma nth_error_update_same {A} (l : list A) (i : nat) (f : A -> A) :
  nth_error (update l i f) i = option_map f (nth_error l i).
Proof.
  revert i. induction l as [|x l IH]; intros [|i];
    cbn [update nth_error option_map]; auto.
Qed.

Lemma nth_error_update_other {A} (l : list A) (i j : nat) (f : A -> A) :
  i <> j -> nth_error (update l i f) j = nth_error l j.
Proof.
  revert i j. induction l as [|x l IH]; intros [|i] [|j] H;
    cbn [update nth_error]; auto; congruence.
Qed.

Lemma later_refl (c : ClientConnection) : later c c.
Proof. split; auto. Qed.

Lemma later_trans (a b c : ClientConnection) : later a b -> later b c -> later a c.
Proof. unfold later. intuition congruence. Qed.

Lemma evolves_refl (o : list ClientConnection) : evolves o o.
Proof. intros ref c H. exists c. split; [assumption|apply later_refl]. Qed.

Lemma evolves_trans (a b c : list ClientConnection) :
  evolves a b -> evolves b c -> evolves a c.
Proof.
  intros Hab Hbc ref x Hx.
  destruct (Hab _ _ Hx) as (y & Hy & Lxy).
  destruct (Hbc _ _ Hy) as (z & Hz & Lyz).
  exists z. split; [assumption|]. eapply later_trans; eassumption.
Qed.

Lemma evolves_update (o : list ClientConnection) (i : nat)
  (f : ClientConnection -> ClientConnection) :
  (forall c, nth_error o i = Some c -> later c (f c)) ->
  evolves o (update o i f).
Proof.
  intros Hf ref c Hc. destruct (Nat.eq_dec i ref) as [->|Hne].
  - rewrite nth_error_update_same, Hc. cbn [option_map].
    exists (f c). split; auto.
  - rewrite nth_error_update_other by assumption.
    exists c. split; [assumption|apply later_refl].
Qed.

Lemma evolves_app (o : list ClientConnection) (more : list ClientConnection) :
  evolves o (o ++ more).
Proof.
  intros ref c Hc. exists c. split; [|apply later_refl].
  rewrite nth_error_app1; [assumption|].
  apply nth_error_Some. congruence.
Qed.

Lemma evolves_length (o o' : list ClientConnection) :
  evolves o o' -> (length o <= length o')%nat.
Proof.
  intros H. destruct (Nat.le_gt_cases (length o) (length o')) as [|Hlt]; auto.
  destruct (nth_error o (length o')) as [c|] eqn:E.
  - destruct (H _ _ E) as (c' & E' & _).
    assert (nth_error o' (length o') = None) by (apply nth_error_None; lia).
    congruence.
  - apply nth_error_None in E. lia.
Qed.

(** ** What the methods of a connection leave as it was *)

Lemma send_message_later (c : ClientConnection) (m : str) :
  later c (snd (send_message c m)).
Proof.
  unfold send_message.
  destruct (send_try m (socket_of c)) as [[r|e] sk]; cbn; split; auto.
  discriminate.
Qed.

Lemma receive_message_later (c : ClientConnection) :
  later c (snd (receive_message c)).
Proof.
  unfold receive_message.
  destruct (receive_try (socket_of c)) as [[r|e] sk]; cbn; split; auto.
Qed.

Lemma send_message_keeps_closed (c : ClientConnection) (m : str) :
  closed (socket_of (snd (send_message c m))) = closed (socket_of c).
Proof.
  unfold send_message. rewrite send_try_encode.
  destruct (Wire.encode m) as [frame|e]; [|reflexivity].
  destruct (closed (socket_of c) || negb (writable (socket_of c))); reflexivity.
Qed.

(** ** What the methods of the server leave as it was *)

Lemma disconnect_clients (cid : str) (s : GameServer) :
  clients (_disconnect_client cid s) = Dict.del (clients s) cid.
Proof.
  unfold _disconnect_client.
  destruct (Dict.get (clients s) cid) eqn:E; [reflexivity|].
  symmetry. now apply dict_del_absent.
Qed.

Lemma disconnect_max (cid : str) (s : GameServer) :
  max_players (_disconnect_client cid s) = max_players s.
Proof.
  unfold _disconnect_client. destruct (Dict.get (clients s) cid); reflexivity.
Qed.

Lemma disconnect_evolves (cid : str) (s : GameServer) :
  evolves (objects s) (objects (_disconnect_client cid s)).
Proof.
  unfold _disconnect_client.
  destruct (Dict.get (clients s) cid); [|apply evolves_refl].
  cbn. apply evolves_update. intros c _. split; auto.
Qed.

Lemma disconnect_length (cid : str) (s : GameServer) :
  length (objects (_disconnect_client cid s)) = length (objects s).
Proof.
  unfold _disconnect_client.
  destruct (Dict.get (clients s) cid); [|reflexivity].
  cbn. apply length_update.
Qed.

Lemma fan_out_frame (text : str) (items : list (str * nat)) :
  forall (dis : list str) (s : GameServer),
    let s' := snd (fan_out text items dis s) in
    clients s' = clients s
    /\ max_players s' = max_players s
    /\ length (objects s') = length (objects s)
    /\ evolves (objects s) (objects s').
Proof.
  induction items as [|[cid ref] items IH]; intros dis s; cbn [fan_out].
  - cbn. repeat split. apply evolves_refl.
  - destruct (nth_error (objects s) ref) as [conn|] eqn:E; [|apply IH].
    pose proof (send_message_later conn text) as Hl.
    destruct (send_message conn text) as [ok conn']. cbn [snd] in Hl.
    match goal with
    | |- context [fan_out text items ?d ?s1] =>
        destruct (IH d s1) as (Hc & Hm & Hn & He)
    end.
    cbv zeta. rewrite Hc, Hm, Hn. cbn [clients max_players objects emit set_objects].
    rewrite length_update. repeat split.
    eapply evolves_trans; [|exact He]. cbn.
    apply evolves_update. intros c Hc'. congruence.
Qed.

Lemma clean_up_frame (dis : list str) :
  forall s : GameServer,
    let s' := clean_up dis s in
    (length (clients s') <= length (clients s))%nat
    /\ max_players s' = max_players s
    /\ length (objects s') = length (objects s)
    /\ evolves (objects s) (objects s').
Proof.
  unfold clean_up.
  induction dis as [|cid dis IH]; intros s; cbn [fold_left].
  - repeat split; auto. apply evolves_refl.
  - destruct (IH (_disconnect_client cid s)) as (Hc & Hm & Hn & He).
    cbv zeta. rewrite Hm, Hn, disconnect_max, disconnect_length.
    repeat split.
    + rewrite disconnect_clients in Hc.
      pose proof (dict_length_del (clients s) cid). lia.
    + eapply evolves_trans; [apply disconnect_evolves|exact He].
Qed.

Lemma broadcast_frame (s : GameServer) :
  let s' := _broadcast_game_state s in
  (length (clients s') <= length (clients s))%nat
  /\ max_players s' = max_players s
  /\ evolves (objects s) (objects s').
Proof.
  unfold _broadcast_game_state. cbv zeta.
  match goal with
  | |- context [fan_out ?t ?i ?d ?s0] =>
      pose proof (fan_out_frame t i d s0) as H;
      destruct (fan_out t i d s0) as [dis s1]
  end.
  cbv zeta in H. cbn [snd] in H. destruct H as (Hc & Hm & Hn & He).
  destruct (clean_up_frame dis s1) as (Hc' & Hm' & Hn' & He').
  rewrite Hc in Hc'. rewrite Hm', Hm.
  repeat split; auto.
  eapply evolves_trans; [exact He|exact He'].
Qed.

Lemma accept_frame (sk : socket) (addr : str * Z) (s : GameServer) :
  let s' := _accept_connections sk addr s in
  max_players s' = max_players s
  /\ evolves (objects s) (objects s')
  /\ (0 <= max_players s ->
      len (clients s) <= max_players s -> len (clients s') <= max_players s).
Proof.
  unfold _accept_connections, accept_try. cbv zeta.
  destruct (Z.geb_spec (len (clients s)) (max_players s)) as [Hfull|Hroom].
  - destruct (send (lit "Server full") sk) as [[n|e] sk'].
    + cbn. repeat split; auto. apply evolves_refl.
    + cbn [add_stray running]. destruct (running s); cbn;
        repeat split; auto; apply evolves_refl.
  - cbn [fst snd max_players objects clients emit submit set_clients
            set_objects].
    repeat split.
    + apply evolves_app.
    + intros _ _.
      pose proof (dict_length_set (clients s)
                    (lit "player_" ++ format_int (length (clients s) + 1))
                    (length (objects s))).
      unfold len in *. lia.
Qed.

Lemma handle_client_frame (ref : nat) (s : GameServer) :
  let s' := _handle_client ref s in
  (length (clients s') <= length (clients s))%nat
  /\ max_players s' = max_players s
  /\ evolves (objects s) (objects s').
Proof.
  unfold _handle_client. cbv zeta.
  destruct (existsb (Nat.eqb ref) (serving s));
    [|repeat split; auto; apply evolves_refl].
  destruct (nth_error (objects s) ref) as [conn|] eqn:E;
    [|repeat split; auto; apply evolves_refl].
  assert (Hleave : forall (s1 : GameServer) (cid : str),
             clients s1 = clients s -> max_players s1 = max_players s ->
             evolves (objects s) (objects s1) ->
             (length (clients (_disconnect_client cid s1)) <= length (clients s))%nat
             /\ max_players (_disconnect_client cid s1) = max_players s
             /\ evolves (objects s) (objects (_disconnect_client cid s1))).
  { intros s1 cid Hc Hm He. rewrite disconnect_clients, disconnect_max, Hc, Hm.
    repeat split; [apply dict_length_del|].
    eapply evolves_trans; [exact He|apply disconnect_evolves]. }
  destruct (running s && connected conn).
  - pose proof (receive_message_later conn) as Hl.
    destruct (receive_message conn) as [data conn']. cbn [snd] in Hl.
    assert (Hev : evolves (objects s) (update (objects s) ref (fun _ => conn'))).
    { apply evolves_update. intros c Hc. congruence. }
    destruct data as [[|ch text]|].
    + apply Hleave; auto.
    + repeat split; auto.
    + apply Hleave; auto.
  - apply Hleave; auto. apply evolves_refl.
Qed.

Lemma process_frame (cid message : str) (s : GameServer) :
  let s' := snd (_process_game_message cid message s) in
  clients s' = clients s
  /\ max_players s' = max_players s
  /\ objects s' = objects s
  /\ strays s' = strays s
  /\ serving s' = serving s.
Proof.
  unfold _process_game_message, process_try, mbind, lift, ret.
  destruct (loads message) as [data|e].
  - destruct (get_type data) as [t|e].
    + destruct (is_str t (lit "player_action")); [cbn; auto|].
      destruct (is_str t (lit "skill_use")); cbn; auto.
    + destruct e; cbn; auto.
  - destruct e; cbn; auto.
Qed.

(** Every step keeps the capacity, bounds the registry and lets the objects
    evolve. *)
Lemma step_frame (s : GameServer) (e : event) :
  max_players (step s e) = max_players s
  /\ evolves (objects s) (objects (step s e))
  /\ (0 <= max_players s ->
      len (clients s) <= max_players s ->
      len (clients (step s e)) <= max_players s).
Proof.
  destruct e as [sk addr|cid|ref| |cid message|ref| ]; cbn [step].
  - apply accept_frame.
  - split; [apply disconnect_max|]. split; [apply disconnect_evolves|].
    intros _ H. rewrite disconnect_clients.
    pose proof (dict_length_del (clients s) cid). unfold len in *. lia.
  - destruct (handle_client_frame ref s) as (Hc & Hm & He).
    repeat split; auto. unfold len in *. lia.
  - destruct (broadcast_frame s) as (Hc & Hm & He).
    repeat split; auto. unfold len in *. lia.
  - destruct (process_frame cid message s) as (Hc & Hm & Ho & _).
    rewrite Hc, Hm, Ho. repeat split; auto. apply evolves_refl.
  - cbn. repeat split; auto. apply evolves_update. intros c _. split; auto.
  - cbn. repeat split; auto. apply evolves_refl.
Qed.

Lemma run_frame (es : list event) :
  forall s : GameServer,
    max_players (run s es) = max_players s
    /\ evolves (objects s) (objects (run s es))
    /\ (0 <= max_players s ->
        len (clients s) <= max_players s ->
        len (clients (run s es)) <= max_players s).
Proof.
  unfold run. induction es as [|e es IH]; intros s; cbn [fold_left].
  - repeat split; auto. apply evolves_refl.
  - destruct (step_frame s e) as (Hm & He & Hc).
    destruct (IH (step s e)) as (Hm' & He' & Hc').
    rewrite Hm' , Hm in *. repeat split.
    + eapply evolves_trans; eassumption.
    + intros H0 H1. apply Hc'; auto.
Qed.

(** ** Connection ids (C1) *)

(** C1.  The claim fails on the code.  With room for four players, two
    clients connect, the first one ends its stream and is disconnected, and
    a third client connects: its id is "player_2" again
    ([len(self.clients) + 1] is 2), the id of the second client, which is
    still connected, still served by its handler thread and still has an
    open socket.  The assignment to [self.clients] replaces the second
    client's entry by the third. *)
Lemma two_live_connections_share_an_id :
  let s := run (new_server 4)
               [Accept (peer []) localhost;
                Accept (peer [[0; 0; 0; 1; 97]]) localhost;
                Receive 0%nat;
                Accept (peer []) localhost] in
  map client_id (objects s)
    = [lit "player_1"; lit "player_2"; lit "player_2"]
  /\ map connected (objects s) = [true; true; true]
  /\ map (fun c => closed (socket_of c)) (objects s) = [true; false; false]
  /\ serving s = [1%nat; 2%nat]
  /\ clients s = [(lit "player_2", 2%nat)].
Proof. cbv zeta. repeat split; reflexivity. Qed.

(** ** The capacity of the registry (C2) *)



(** ** Messages that are not JSON objects (C3) *)

(** C3.  The claim fails on the code for a payload that is valid JSON and
    not an object: [json.loads("[]")] returns a list, [data.get] raises
    [AttributeError], and [_process_game_message] catches
    [json.JSONDecodeError] only, so the exception leaves it. *)
Lemma process_game_message_raises_on_array (s : GameServer) :
  loads (lit "[]") = Return (JArray [])
  /\ _process_game_message (lit "player_1") (lit "[]") s
     = (Raise AttributeError, s).
Proof. split; reflexivity. Qed.

(** What does hold for every payload: the registry, the connections and the
    sockets are left as they were, malformed JSON is caught and logged, and
    the exceptions that can leave are [AttributeError], for JSON that is
    not an object, and [RecursionError]. *)
Lemma process_game_message_outcomes (cid message : str) (s : GameServer) :
  let r := _process_game_message cid message s in
  clients (snd r) = clients s
  /\ objects (snd r) = objects s
  /\ (fst r = Return tt
      \/ (fst r = Raise AttributeError
          /\ exists data, loads message = Return data
                          /\ get_type data = Raise AttributeError)
      \/ (fst r = Raise RecursionError
          /\ loads message = Raise RecursionError)).
Proof.
  cbv zeta.
  destruct (process_frame cid message s) as (Hc & _ & Ho & _).
  split; [exact Hc|]. split; [exact Ho|].
  unfold _process_game_message, process_try, mbind, lift, ret.
  unfold loads.
  destruct (scan_once (2 * length message + 2) (skip_ws message))
    as [v rest| |].
  - destruct (skip_ws rest); [|left; reflexivity].
    destruct v; try (right; left; split;
                     [reflexivity|eexists; split; reflexivity]).
    cbn [get_type].
    destruct (is_str _ (lit "player_action")); [left; reflexivity|].
    destruct (is_str _ (lit "skill_use")); left; reflexivity.
  - left. reflexivity.
  - right. right. split; reflexivity.
Qed.

(** ** Connections beyond the capacity (C6) *)



(** When the client is gone before the notice is written, [send] raises, the
    [close()] after it is skipped and the accept loop logs the error. *)
Example full_server_unreachable_client :
  let s := run (new_server 0) [Accept (mkSocket [] [] false false) localhost] in
  strays s = [mkSocket [] [] false false]
  /\ effects s = [Printed AcceptError].
Proof. split; reflexivity. Qed.

(** ** Removal from the registry (C9) *)

(** C9.  [_disconnect_client] is idempotent.  For an id that is not in the
    registry it changes nothing.  For an id that is, the first call closes
    the socket of its connection and deletes the entry, and a second call
    for the same id -- from the receive path after the broadcast path, or
    the other way round -- changes nothing more: over both calls the socket
    is closed once and the entry is deleted once. *)
Theorem disconnect_client_idempotent (s : GameServer) (cid : str) :
  let s1 := _disconnect_client cid s in
  let s2 := _disconnect_client cid s1 in
  s2 = s1
  /\ Dict.get (clients s1) cid = None
  /\ match Dict.get (clients s) cid with
     | None => s1 = s
     | Some ref =>
         effects s2 =
           effects s ++ [Closed ref; Deleted cid; Printed (Disconnected cid)]
         /\ clients s2 = Dict.del (clients s) cid
         /\ nth_error (objects s2) ref =
              option_map (fun c => with_socket c (close (socket_of c)))
                         (nth_error (objects s) ref)
     end.
Proof.
  cbv zeta.
  assert (Hgone : Dict.get (clients (_disconnect_client cid s)) cid = None).
  { rewrite disconnect_clients. apply dict_get_del_same. }
  assert (Hsame : _disconnect_client cid (_disconnect_client cid s)
                  = _disconnect_client cid s).
  { unfold _disconnect_client at 1. now rewrite Hgone. }
  rewrite Hsame. split; [reflexivity|]. split; [exact Hgone|].
  unfold _disconnect_client.
  destruct (Dict.get (clients s) cid) as [ref|]; [|reflexivity].
  cbn [effects clients objects emit set_clients set_objects].
  repeat split. apply nth_error_update_same.
Qed.

(** The scenario of a frame that declares five bytes and brings three, from
    a client that is gone: whichever of the broadcast and the receive loop
    notices first, the connection is closed and deleted once. *)
Example truncated_frame_removed_once :
  let s := run (new_server 2)
               [Accept (mkSocket [[0; 0; 0; 5; 97; 98; 99]] [] false false)
                       localhost] in
  let gone := [Closed 0; Deleted (lit "player_1");
               Printed (Disconnected (lit "player_1"))] in
  effects (run s [Receive 0%nat; Broadcast])
    = effects s ++ gone ++ [Dumped empty_snapshot]
  /\ effects (run s [Broadcast; Receive 0%nat])
     = effects s
       ++ [Dumped empty_snapshot; Sent 0 empty_snapshot false]
       ++ gone.
Proof. split; reflexivity. Qed.

(** After [stop()] the handler of a connection leaves its loop at the next
    round and removes the connection, whose flag is still on. *)
Example stop_ends_handler :
  let s := run (new_server 2)
               [Accept (peer [[0; 0; 0; 1; 97]]) localhost; Stop;
                Receive 0%nat] in
  clients s = []
  /\ message_queue s = []
  /\ serving s = []
  /\ map connected (objects s) = [true]
  /\ map (fun c => closed (socket_of c)) (objects s) = [true].
Proof. repeat split; reflexivity. Qed.

(** ** The broadcast *)

Lemma flat_map_filter {E T} (out : E -> list T) (keep : E -> bool)
  (entries : list E) :
  flat_map out (filter keep entries)
  = flat_map (fun e => if keep e then out e else []) entries.
Proof.
  induction entries as [|e entries IH]; cbn [filter flat_map]; [reflexivity|].
  destruct (keep e); cbn [flat_map app]; now rewrite IH.
Qed.

Lemma flat_map_map {A B C} (f : B -> list C) (g : A -> B) (l : list A) :
  flat_map f (map g l) = flat_map (fun x => f (g x)) l.
Proof.
  induction l as [|a l IH]; cbn [map flat_map]; [reflexivity|]. now rewrite IH.
Qed.

Lemma flat_map_ext_in {A B} (f g : A -> list B) (l : list A) :
  (forall x, In x l -> f x = g x) -> flat_map f l = flat_map g l.
Proof.
  induction l as [|a l IH]; cbn [flat_map]; [reflexivity|].
  intros H. rewrite H by now left. rewrite IH; [reflexivity|].
  intros x Hx. apply H. now right.
Qed.

Lemma existsb_ext_in {A} (f g : A -> bool) (l : list A) :
  (forall x, In x l -> f x = g x) -> existsb f l = existsb g l.
Proof.
  induction l as [|a l IH]; cbn [existsb]; [reflexivity|].
  intros H. rewrite H by now left. rewrite IH; [reflexivity|].
  intros x Hx. apply H. now right.
Qed.

Lemma filter_twice {A} (p q : A -> bool) (l : list A) :
  filter q (filter p l) = filter (fun x => p x && q x) l.
Proof.
  induction l as [|a l IH]; cbn [filter]; [reflexivity|].
  destruct (p a); cbn [filter andb]; [destruct (q a)|]; now rewrite IH.
Qed.

Lemma existsb_eqb_In (r : nat) (l : list nat) :
  existsb (Nat.eqb r) l = true <-> In r l.
Proof.
  rewrite existsb_exists. split.
  - intros (x & Hin & E). apply Nat.eqb_eq in E. now subst.
  - intros H. exists r. split; [assumption|apply Nat.eqb_refl].
Qed.

Lemma delivered_same_object (s1 s2 : GameServer) (text : str) (e : str * nat) :
  nth_error (objects s2) (snd e) = nth_error (objects s1) (snd e) ->
  delivered s2 text e = delivered s1 text e.
Proof. unfold delivered. now intros ->. Qed.

(** The first loop of the broadcast sends [text] once to every entry, in
    order, collects the ids whose send failed, and touches the connection
    objects of the entries only. *)
Lemma fan_out_spec (text : str) (items : list (str * nat)) :
  forall (dis : list str) (s : GameServer),
    NoDup (map snd items) ->
    Forall (fun ref => (ref < length (objects s))%nat) (map snd items) ->
    exists s',
      fan_out text items dis s =
        (dis ++ map fst (filter (fun e => negb (delivered s text e)) items), s')
      /\ effects s' =
           effects s
           ++ map (fun e => Sent (snd e) text (delivered s text e)) items
      /\ clients s' = clients s
      /\ (forall r,
            nth_error (objects s') r =
              if existsb (Nat.eqb r) (map snd items)
              then option_map (fun c => snd (send_message c text))
                              (nth_error (objects s) r)
              else nth_error (objects s) r).
Proof.
  induction items as [|[cid ref] items IH]; intros dis s Hnd Hin.
  - exists s. cbn. rewrite !app_nil_r. repeat split.
  - cbn [map snd] in Hnd, Hin.
    inversion Hnd as [|? ? Hni Hnd']; subst.
    inversion Hin as [|? ? Href Hin']; subst.
    destruct (nth_error (objects s) ref) as [conn|] eqn:E.
    2:{ apply nth_error_None in E. lia. }
    cbn [fan_out]. rewrite E.
    assert (Hd : delivered s text (cid, ref) = fst (send_message conn text)).
    { unfold delivered. cbn [snd]. now rewrite E. }
    destruct (send_message conn text) as [ok conn'] eqn:Es. cbn [fst] in Hd.
    set (s2 := emit (set_objects s (update (objects s) ref (fun _ => conn')))
                    [Sent ref text ok]).
    assert (Hother : forall r, r <> ref ->
                       nth_error (objects s2) r = nth_error (objects s) r).
    { intros r Hr. cbn. apply nth_error_update_other. congruence. }
    assert (Hrest : forall e, In e items ->
                      delivered s2 text e = delivered s text e).
    { intros e He. apply delivered_same_object. apply Hother.
      intros Heq. apply Hni. rewrite <- Heq. now apply in_map. }
    destruct (IH (if ok then dis else dis ++ [cid]) s2 Hnd')
      as (s' & Ef & Ee & Ec & Eo).
    { cbn. rewrite length_update. exact Hin'. }
    exists s'. cbv zeta. fold s2. rewrite Ef. split; [|split; [|split]].
    + f_equal. cbn [filter]. rewrite Hd.
      rewrite (filter_ext_in _ (fun e => negb (delivered s text e)))
        by (intros e He; now rewrite Hrest).
      destruct ok; cbn [negb map fst]; [reflexivity|].
      symmetry. apply (app_assoc dis [cid]).
    + rewrite Ee. unfold s2. cbn [effects emit set_objects map snd]. rewrite Hd.
      rewrite <- app_assoc. cbn [app]. do 2 f_equal.
      apply map_ext_in. intros e He. now rewrite Hrest.
    + rewrite Ec. reflexivity.
    + intros r. rewrite Eo. cbn [map snd existsb].
      destruct (Nat.eqb_spec r ref) as [->|Hr].
      * cbn [orb].
        destruct (existsb (Nat.eqb ref) (map snd items)) eqn:Ex.
        { apply existsb_eqb_In in Ex. contradiction. }
        cbn. rewrite nth_error_update_same, E. cbn [option_map].
        now rewrite Es.
      * cbn [orb]. rewrite Hother by assumption. reflexivity.
Qed.

Lemma close_connection_twice (c : ClientConnection) :
  close_connection (close_connection c) = close_connection c.
Proof. reflexivity. Qed.

Lemma disconnect_effects (cid : str) (s : GameServer) :
  effects (_disconnect_client cid s) = effects s ++ removal_of (clients s) cid.
Proof.
  unfold _disconnect_client, removal_of.
  destruct (Dict.get (clients s) cid); [reflexivity|]. now rewrite app_nil_r.
Qed.

Lemma disconnect_objects (cid : str) (s : GameServer) (r : nat) :
  nth_error (objects (_disconnect_client cid s)) r =
    if refers (clients s) r cid
    then option_map close_connection (nth_error (objects s) r)
    else nth_error (objects s) r.
Proof.
  unfold _disconnect_client, refers.
  destruct (Dict.get (clients s) cid) as [ref|]; [|reflexivity].
  cbn [objects emit set_clients set_objects].
  destruct (Nat.eqb_spec ref r) as [->|Hne].
  - apply nth_error_update_same.
  - now apply nth_error_update_other.
Qed.

(** The second loop of the broadcast, for ids that are pairwise distinct. *)
Lemma clean_up_spec (dis : list str) :
  forall s : GameServer,
    NoDup dis ->
    effects (clean_up dis s)
      = effects s ++ flat_map (removal_of (clients s)) dis
    /\ clients (clean_up dis s)
       = filter (fun e => negb (existsb (str_eqb (fst e)) dis)) (clients s)
    /\ (forall r,
          nth_error (objects (clean_up dis s)) r =
            if existsb (refers (clients s) r) dis
            then option_map close_connection (nth_error (objects s) r)
            else nth_error (objects s) r).
Proof.
  unfold clean_up. induction dis as [|cid dis IH]; intros s Hnd.
  - cbn. rewrite app_nil_r. repeat split.
    induction (clients s) as [|e l IHl]; cbn; [reflexivity|]. now rewrite <- IHl.
  - inversion Hnd as [|? ? Hni Hnd']; subst. cbn [fold_left].
    destruct (IH (_disconnect_client cid s) Hnd') as (Ee & Ec & Eo).
    assert (Hget : forall k, In k dis ->
              Dict.get (clients (_disconnect_client cid s)) k
              = Dict.get (clients s) k).
    { intros k Hk. rewrite disconnect_clients. apply dict_get_del_other.
      intros ->. contradiction. }
    split; [|split].
    + rewrite Ee, disconnect_effects. cbn [flat_map]. rewrite <- app_assoc.
      do 2 f_equal. apply flat_map_ext_in.
      intros k Hk. unfold removal_of. now rewrite Hget.
    + rewrite Ec, disconnect_clients. unfold Dict.del. rewrite filter_twice.
      apply filter_ext. intros e. cbn [existsb].
      now rewrite negb_orb.
    + intros r. rewrite Eo, disconnect_objects. cbn [existsb].
      rewrite (existsb_ext_in (refers (clients (_disconnect_client cid s)) r)
                              (refers (clients s) r)).
      2:{ intros k Hk. unfold refers. now rewrite Hget. }
      destruct (refers (clients s) r cid); cbn [orb];
        destruct (existsb (refers (clients s) r) dis); try reflexivity.
      destruct (nth_error (objects s) r); reflexivity.
Qed.

Lemma NoDup_map_eq {A B} (f : A -> B) (l : list A) (a b : A) :
  NoDup (map f l) -> In a l -> In b l -> f a = f b -> a = b.
Proof.
  induction l as [|x l IH]; cbn [map]; [intros _ []|].
  intros Hnd Ha Hb E. inversion Hnd as [|? ? Hni Hnd']; subst.
  destruct Ha as [->|Ha], Hb as [->|Hb]; auto.
  - exfalso. apply Hni. rewrite E. now apply in_map.
  - exfalso. apply Hni. rewrite <- E. now apply in_map.
Qed.

Section Broadcast.

Variables (s : GameServer) (text : str).
Hypothesis Hwf : wf s.

Lemma failed_keys_distinct : NoDup (map fst (failed s text)).
Proof. destruct Hwf as (Hk & _). now apply NoDup_map_filter. Qed.

Lemma registered_get (e : str * nat) :
  In e (clients s) -> Dict.get (clients s) (fst e) = Some (snd e).
Proof.
  destruct Hwf as (Hk & _). destruct e as [cid ref]. now apply dict_In_get.
Qed.

(** An id is among the failed ones exactly when its send failed. *)
Lemma failed_key (e : str * nat) :
  In e (clients s) ->
  existsb (str_eqb (fst e)) (map fst (failed s text)) = negb (delivered s text e).
Proof.
  intros He. destruct (delivered s text e) eqn:Ed; cbn [negb].
  - destruct (existsb _ _) eqn:Ex; [|reflexivity].
    apply existsb_exists in Ex. destruct Ex as (k & Hk & Ek).
    apply str_eqb_eq in Ek. apply in_map_iff in Hk.
    destruct Hk as (e' & Hf & He'). apply filter_In in He'.
    destruct He' as (He' & Hnd).
    assert (e' = e).
    { destruct Hwf as (Hkeys & _).
      apply (NoDup_map_eq fst (clients s)); auto. congruence. }
    subst e'. rewrite Ed in Hnd. discriminate.
  - apply existsb_exists. exists (fst e). split; [|apply str_eqb_refl].
    apply in_map. apply filter_In. split; [assumption|]. now rewrite Ed.
Qed.

(** A connection object is closed by the clean-up exactly when the send to
    it failed. *)
Lemma failed_ref (e : str * nat) :
  In e (clients s) ->
  existsb (refers (clients s) (snd e)) (map fst (failed s text))
  = negb (delivered s text e).
Proof.
  intros He. destruct (delivered s text e) eqn:Ed; cbn [negb].
  - destruct (existsb _ _) eqn:Ex; [|reflexivity].
    apply existsb_exists in Ex. destruct Ex as (k & Hk & Ek).
    apply in_map_iff in Hk. destruct Hk as (e' & Hf & He').
    apply filter_In in He'. destruct He' as (He' & Hnd). subst k.
    unfold refers in Ek. rewrite (registered_get e' He') in Ek.
    apply Nat.eqb_eq in Ek.
    assert (e' = e).
    { destruct Hwf as (_ & Hrefs & _).
      apply (NoDup_map_eq snd (clients s)); auto. }
    subst e'. rewrite Ed in Hnd. discriminate.
  - apply existsb_exists. exists (fst e). split.
    + apply in_map. apply filter_In. split; [assumption|]. now rewrite Ed.
    + unfold refers. rewrite (registered_get e He). apply Nat.eqb_refl.
Qed.

Lemma failed_removals :
  flat_map (removal_of (clients s)) (map fst (failed s text))
  = flat_map (fun e => if delivered s text e then [] else removal e) (clients s).
Proof.
  unfold failed. rewrite flat_map_map. rewrite flat_map_filter.
  apply flat_map_ext_in. intros e He.
  destruct (delivered s text e); cbn [negb]; [reflexivity|].
  unfold removal_of. rewrite (registered_get e He). now destruct e.
Qed.

End Broadcast.

(** ** One broadcast (C7) *)

(** C7.  In a server whose registry is well formed, one call of
    [_broadcast_game_state] serializes the snapshot once, to the text of the
    JSON object with the keys "players" and "boss" (the boss state or
    null); sends that one text with [send_message] to every connection of
    the registry, in the order of the registry; and only after the last
    send removes the connections whose send failed: for each of them the
    socket is closed and the entry deleted.  Afterwards the registry holds
    the entries whose send succeeded, and each connection that was
    registered is in the state [send_message] left it in, with its socket
    closed when the send failed. *)
Theorem broadcast_serializes_once (s : GameServer) :
  wf s ->
  let text :=
    dumps (JObject
             [(lit "players", JArray (players (game_state s)));
              (lit "boss",
               match boss (game_state s) with
               | Some b => b
               | None => JNull
               end)]) in
  let s' := _broadcast_game_state s in
  effects s' = effects s ++ broadcast_effects s text
  /\ clients s' = filter (delivered s text) (clients s)
  /\ (forall cid ref conn,
        In (cid, ref) (clients s) ->
        nth_error (objects s) ref = Some conn ->
        nth_error (objects s') ref = Some (after_broadcast text conn)).
Proof.
  intros Hwf text s'. pose proof Hwf as (Hk & Hr & Hin).
  unfold s', _broadcast_game_state. cbv zeta.
  change (dumps (_serialize_game_state s)) with text.
  set (s0 := emit s [Dumped text]).
  destruct (fan_out_spec text (clients s0) [] s0) as (s1 & Ef & Ee & Ec & Eo);
    [exact Hr|exact Hin|].
  rewrite Ef. cbn [app].
  change (clients s0) with (clients s) in *.
  change (filter (fun e => negb (delivered s0 text e)) (clients s))
    with (filter (fun e => negb (delivered s text e)) (clients s)).
  change (effects s0) with (effects s ++ [Dumped text]) in Ee.
  change (map (fun e => Sent (snd e) text (delivered s0 text e)) (clients s))
    with (map (fun e => Sent (snd e) text (delivered s text e)) (clients s))
    in Ee.
  destruct (clean_up_spec
              (map fst (filter (fun e => negb (delivered s text e)) (clients s)))
              s1 (failed_keys_distinct s text Hwf)) as (Ee' & Ec' & Eo').
  rewrite Ec in Ee', Ec', Eo'.
  split; [|split].
  - pose proof (failed_removals s text Hwf) as Hrem. unfold failed in Hrem.
    rewrite Ee', Ee, Hrem.
    unfold broadcast_effects. rewrite <- !app_assoc. reflexivity.
  - rewrite Ec'. apply filter_ext_in. intros e He.
    pose proof (failed_key s text Hwf e He) as Hkey. unfold failed in Hkey.
    rewrite Hkey. apply negb_involutive.
  - intros cid ref conn He Hconn.
    pose proof (failed_ref s text Hwf (cid, ref) He) as Hf.
    unfold failed in Hf. cbn [snd] in Hf. rewrite Eo', Hf, Eo.
    assert (Hx : existsb (Nat.eqb ref) (map snd (clients s)) = true).
    { apply existsb_eqb_In. apply in_map_iff. now exists (cid, ref). }
    rewrite Hx. change (objects s0) with (objects s). rewrite Hconn.
    unfold delivered, after_broadcast. cbn [snd option_map]. rewrite Hconn.
    destruct (send_message conn text) as [ok conn']. cbn [fst snd negb].
    destruct ok; reflexivity.
Qed.

(** ** Well-formed registries are all a server ever has *)

Lemma wf_same (s s' : GameServer) :
  clients s' = clients s ->
  length (objects s') = length (objects s) ->
  wf s -> wf s'.
Proof. unfold wf. intros -> ->. auto. Qed.

Lemma wf_disconnect (cid : str) (s : GameServer) :
  wf s -> wf (_disconnect_client cid s).
Proof.
  unfold wf. intros (Hk & Hr & Hin).
  rewrite disconnect_clients, disconnect_length.
  split; [now apply dict_keys_del|]. split; [now apply dict_values_del|].
  rewrite Forall_forall in *. intros r Hr'. apply Hin.
  apply in_map_iff in Hr'. destruct Hr' as ([k v] & <- & Hin').
  apply dict_In_del in Hin'. apply in_map_iff. exists (k, v). tauto.
Qed.

Lemma wf_clean_up (dis : list str) (s : GameServer) :
  wf s -> wf (clean_up dis s).
Proof.
  unfold clean_up. revert s.
  induction dis as [|cid dis IH]; intros s H; cbn [fold_left]; auto.
  apply IH. now apply wf_disconnect.
Qed.

Lemma wf_accept (sk : socket) (addr : str * Z) (s : GameServer) :
  wf s -> wf (_accept_connections sk addr s).
Proof.
  intros Hwf. unfold _accept_connections, accept_try.
  destruct (len (clients s) >=? max_players s).
  - destruct (send (lit "Server full") sk) as [[n|e] sk'];
      [exact Hwf|].
    cbn [add_stray running]. destruct (running s); exact Hwf.
  - destruct Hwf as (Hk & Hr & Hin). unfold wf.
    cbn [fst snd objects clients emit submit set_clients set_objects].
    rewrite Forall_forall in Hin.
    split; [now apply dict_keys_set|]. split.
    + apply dict_values_set; [|assumption].
      intros H. apply Hin in H. lia.
    + rewrite Forall_forall. intros r Hr'. rewrite length_app. cbn [length].
      apply in_map_iff in Hr'. destruct Hr' as ([k v] & <- & Hin').
      destruct (dict_In_set _ _ _ _ _ Hin') as [[_ ->]|Hold]; cbn [snd]; [lia|].
      assert (v < length (objects s))%nat; [|lia].
      apply Hin. apply in_map_iff. now exists (k, v).
Qed.

Lemma wf_step (s : GameServer) (e : event) : wf s -> wf (step s e).
Proof.
  intros Hwf. destruct e as [sk addr|cid|ref| |cid message|ref| ]; cbn [step].
  - now apply wf_accept.
  - now apply wf_disconnect.
  - unfold _handle_client.
    destruct (existsb (Nat.eqb ref) (serving s)); [|assumption].
    destruct (nth_error (objects s) ref) as [conn|]; [|assumption].
    destruct (running s && connected conn).
    + destruct (receive_message conn) as [data conn'].
      assert (Hs1 : forall s1, clients s1 = clients s ->
                length (objects s1) = length (update (objects s) ref (fun _ => conn')) ->
                wf s1).
      { intros s1 Hc Hl. apply (wf_same s); auto. now rewrite Hl, length_update. }
      destruct data as [[|ch t]|].
      * apply wf_disconnect. now apply Hs1.
      * now apply Hs1.
      * apply wf_disconnect. now apply Hs1.
    + apply wf_disconnect. now apply (wf_same s).
  - unfold _broadcast_game_state.
    match goal with
    | |- context [fan_out ?t ?i ?d ?s0] =>
        pose proof (fan_out_frame t i d s0) as H;
        destruct (fan_out t i d s0) as [dis s1]
    end.
    cbv zeta in H. cbn [snd] in H. destruct H as (Hc & _ & Hn & _).
    apply wf_clean_up. now apply (wf_same s).
  - destruct (process_frame cid message s) as (Hc & _ & Ho & _).
    apply (wf_same s); auto. now rewrite Ho.
  - apply (wf_same s); [reflexivity| |assumption]. cbn. apply length_update.
  - exact Hwf.
Qed.

Lemma wf_run (max : Z) (es : list event) : wf (run (new_server max) es).
Proof.
  unfold run.
  assert (H : wf (new_server max)) by (repeat split; constructor).
  revert H. generalize (new_server max).
  induction es as [|e es IH]; intros s H; cbn [fold_left]; auto.
  apply IH. now apply wf_step.
Qed.

(** Three clients, the second of which is gone by the time of the
    broadcast. *)
Lemma broadcast_serializes_once_witness :
  let s := run (new_server 3)
               [Accept (peer []) localhost;
                Accept (mkSocket [] [] false false) localhost;
                Accept (peer []) localhost] in
  effects (_broadcast_game_state s)
    = effects s
      ++ [Dumped empty_snapshot;
          Sent 0 empty_snapshot true;
          Sent 1 empty_snapshot false;
          Sent 2 empty_snapshot true;
          Closed 1; Deleted (lit "player_2");
          Printed (Disconnected (lit "player_2"))]
  /\ clients (_broadcast_game_state s)
     = [(lit "player_1", 0%nat); (lit "player_3", 2%nat)].
Proof.
  cbv zeta.
  destruct (broadcast_serializes_once
              (run (new_server 3)
                   [Accept (peer []) localhost;
                    Accept (mkSocket [] [] false false) localhost;
                    Accept (peer []) localhost])
              (wf_run 3 _)) as (H1 & H2 & _).
  split; [rewrite H1|rewrite H2]; reflexivity.
Defined.

(** ** The liveness flag of a connection (C8) *)



(** ** What reading and writing never change *)

Lemma recv_same_endpoint (n : Z) (sk : socket) :
  same_endpoint sk (snd (recv n sk)).
Proof.
  unfold recv. destruct (closed sk); [apply same_endpoint_refl|].
  destruct (inbox sk) as [|c rest]; [apply same_endpoint_refl|].
  destruct (len c <=? n); apply same_endpoint_set_inbox.
Qed.

Lemma recv_loop_same_endpoint (fuel : nat) :
  forall (n : Z) (message : bytes) (sk : socket),
    same_endpoint sk (snd (recv_loop fuel n message sk)).
Proof.
  induction fuel as [|fuel IH]; intros n message sk; cbn [recv_loop];
    destruct (len message <? n); try apply same_endpoint_refl.
  unfold mbind. pose proof (recv_same_endpoint (n - len message) sk) as H.
  destruct (recv (n - len message) sk) as [[[|b chunk]|e] sk1];
    cbn [snd] in *; try exact H.
  eapply same_endpoint_trans; [exact H|apply IH].
Qed.

Lemma receive_try_same_endpoint (sk : socket) :
  same_endpoint sk (snd (receive_try sk)).
Proof.
  unfold receive_try, mbind.
  pose proof (recv_same_endpoint 4 sk) as H.
  destruct (recv 4 sk) as [[[|b tl]|e] sk1]; cbn [snd] in *; try exact H.
  match goal with
  | |- context [recv_loop ?f ?n ?m sk1] =>
      pose proof (recv_loop_same_endpoint f n m sk1) as H1;
      destruct (recv_loop f n m sk1) as [[[m1|]|e] sk2]
  end; cbn [snd] in *;
    try exact (same_endpoint_trans _ _ _ H H1).
  unfold lift, ret. destruct (decode_utf8 m1); cbn [snd];
    exact (same_endpoint_trans _ _ _ H H1).
Qed.

Lemma receive_message_same_identity (c : ClientConnection) :
  same_identity c (snd (receive_message c)).
Proof.
  unfold receive_message.
  pose proof (receive_try_same_endpoint (socket_of c)) as (_ & H & _).
  destruct (receive_try (socket_of c)) as [[r|e] sk]; cbn [snd] in *;
    split; auto.
Qed.

Lemma send_message_same_identity (c : ClientConnection) (m : str) :
  same_identity c (snd (send_message c m)).
Proof.
  split; [apply send_message_later|apply send_message_keeps_closed].
Qed.

(** ** The registry and the connection objects *)

Section Sound.

Variable strict : bool.

Lemma sound_same (s s' : GameServer) :
  clients s' = clients s -> objects s' = objects s -> sound strict s -> sound strict s'.
Proof.
  unfold sound. intros Hc Ho (Hwf & H). split.
  - apply (wf_same s); auto. now rewrite Ho.
  - rewrite Hc, Ho. exact H.
Qed.

Lemma sound_update (s : GameServer) (r : nat)
  (f : ClientConnection -> ClientConnection) :
  (forall c, nth_error (objects s) r = Some c -> same_identity c (f c)) ->
  sound strict s -> sound strict (set_objects s (update (objects s) r f)).
Proof.
  intros Hf (Hwf & H). split.
  - apply (wf_same s); auto. cbn. apply length_update.
  - intros cid ref Hin. cbn [clients objects set_objects] in *.
    destruct (H _ _ Hin) as (c & Hc & Hid & Hopen).
    destruct (Nat.eq_dec r ref) as [->|Hne].
    + rewrite nth_error_update_same, Hc. cbn [option_map].
      destruct (Hf c Hc) as (Hi & Hcl). exists (f c).
      split; [reflexivity|]. split; [congruence|].
      intros Hst. rewrite Hcl. auto.
    + rewrite nth_error_update_other by assumption. now exists c.
Qed.

Lemma sound_disconnect (cid : str) (s : GameServer) :
  sound strict s -> sound strict (_disconnect_client cid s).
Proof.
  intros (Hwf & H). split; [now apply wf_disconnect|].
  intros k v Hin. rewrite disconnect_clients in Hin.
  apply dict_In_del in Hin. destruct Hin as (Hin & Hk).
  destruct (H _ _ Hin) as (c & Hc & Hid & Hopen).
  rewrite disconnect_objects. unfold refers.
  destruct (Dict.get (clients s) cid) as [ref|] eqn:Eg; [|now exists c].
  destruct (Nat.eqb_spec ref v) as [->|Hne]; [|now exists c].
  exfalso. apply Hk. apply dict_get_In in Eg.
  destruct Hwf as (_ & Hrefs & _).
  pose proof (NoDup_map_eq snd (clients s) (k, v) (cid, v) Hrefs Hin Eg eq_refl)
    as E.
  congruence.
Qed.

Lemma sound_clean_up (dis : list str) (s : GameServer) :
  sound strict s -> sound strict (clean_up dis s).
Proof.
  unfold clean_up. revert s.
  induction dis as [|cid dis IH]; intros s H; cbn [fold_left]; auto.
  apply IH. now apply sound_disconnect.
Qed.

Lemma sound_fan_out (text : str) (items : list (str * nat)) :
  forall (dis : list str) (s : GameServer),
    sound strict s -> sound strict (snd (fan_out text items dis s)).
Proof.
  induction items as [|[cid ref] items IH]; intros dis s H; cbn [fan_out];
    [exact H|].
  destruct (nth_error (objects s) ref) as [conn|] eqn:E; [|now apply IH].
  pose proof (send_message_same_identity conn text) as Hs.
  destruct (send_message conn text) as [ok conn']. cbn [snd] in Hs.
  apply IH.
  apply (sound_same (set_objects s (update (objects s) ref (fun _ => conn'))));
    try reflexivity.
  apply sound_update; [|exact H]. intros c Hc. congruence.
Qed.

Lemma sound_accept (sk : socket) (addr : str * Z) (s : GameServer) :
  (strict = true -> closed sk = false) ->
  sound strict s -> sound strict (_accept_connections sk addr s).
Proof.
  intros Hopen Hs. split; [apply wf_accept; apply Hs|].
  destruct Hs as (Hwf & H).
  unfold _accept_connections, accept_try.
  destruct (len (clients s) >=? max_players s).
  - destruct (send (lit "Server full") sk) as [[n|e] sk']; [exact H|].
    cbn [add_stray running]. destruct (running s); exact H.
  - cbn [fst snd objects clients emit submit set_clients set_objects].
    intros k v Hin.
    destruct (dict_In_set _ _ _ _ _ Hin) as [[-> ->]|Hold].
    + eexists. split; [|split].
      * rewrite nth_error_app2 by lia. rewrite Nat.sub_diag. reflexivity.
      * reflexivity.
      * exact Hopen.
    + destruct (H _ _ Hold) as (c & Hc & Hid & Hcl). exists c.
      split; [|auto]. rewrite nth_error_app1; [assumption|].
      apply nth_error_Some. congruence.
Qed.

Lemma sound_handle_client (ref : nat) (s : GameServer) :
  sound strict s -> sound strict (_handle_client ref s).
Proof.
  intros Hs. unfold _handle_client.
  destruct (existsb (Nat.eqb ref) (serving s)); [|assumption].
  destruct (nth_error (objects s) ref) as [conn|] eqn:E; [|assumption].
  destruct (running s && connected conn).
  - pose proof (receive_message_same_identity conn) as Hr.
    destruct (receive_message conn) as [data conn']. cbn [snd] in Hr.
    assert (Hs1 : sound strict (set_objects s (update (objects s) ref (fun _ => conn')))).
    { apply sound_update; [|exact Hs]. intros c Hc. congruence. }
    destruct data as [[|ch t]|].
    + apply sound_disconnect. revert Hs1. now apply sound_same.
    + revert Hs1. now apply sound_same.
    + apply sound_disconnect. revert Hs1. now apply sound_same.
  - apply sound_disconnect. revert Hs. now apply sound_same.
Qed.

Lemma sound_step (s : GameServer) (e : event) :
  (forall sk addr, e = Accept sk addr -> strict = true -> closed sk = false) ->
  sound strict s -> sound strict (step s e).
Proof.
  intros He Hs.
  destruct e as [sk addr|cid|ref| |cid message|ref| ]; cbn [step].
  - apply sound_accept; [|assumption]. now apply (He sk addr).
  - now apply sound_disconnect.
  - now apply sound_handle_client.
  - unfold _broadcast_game_state.
    match goal with
    | |- context [fan_out ?t ?i ?d ?s0] =>
        pose proof (sound_fan_out t i d s0) as H;
        destruct (fan_out t i d s0) as [dis s1]
    end.
    cbn [snd] in H. apply sound_clean_up. apply H.
    revert Hs. now apply sound_same.
  - destruct (process_frame cid message s) as (Hc & _ & Ho & _).
    revert Hs. now apply sound_same.
  - apply sound_update; [|assumption]. intros c _. split; reflexivity.
  - exact Hs.
Qed.

Lemma sound_run (es : list event) :
  forall s : GameServer,
    (strict = true -> accepts_open es) ->
    sound strict s -> sound strict (run s es).
Proof.
  unfold run, accepts_open.
  induction es as [|e es IH]; intros s Ha Hs; cbn [fold_left]; auto.
  apply IH.
  - intros Hst sk addr Hin. apply (Ha Hst sk addr). now right.
  - apply sound_step; [|assumption].
    intros sk addr -> Hst. apply (Ha Hst sk addr). now left.
Qed.

Lemma sound_new_server (max : Z) : sound strict (new_server max).
Proof.
  split; [repeat split; constructor|]. intros cid ref [].
Qed.

End Sound.

(** ** A frame that arrives as one segment *)

Lemma recv_whole (n : Z) (sk : socket) (c : bytes) (rest : list bytes) :
  closed sk = false -> inbox sk = c :: rest -> len c <= n ->
  recv n sk = (Return c, set_inbox sk rest).
Proof.
  intros Hc Hi Hl. unfold recv. rewrite Hc, Hi.
  destruct (Z.leb_spec (len c) n); [reflexivity|lia].
Qed.

Lemma recv_part (n : Z) (sk : socket) (c : bytes) (rest : list bytes) :
  closed sk = false -> inbox sk = c :: rest -> n < len c ->
  recv n sk =
    (Return (firstn (Z.to_nat n) c),
     set_inbox sk (skipn (Z.to_nat n) c :: rest)).
Proof.
  intros Hc Hi Hl. unfold recv. rewrite Hc, Hi.
  destruct (Z.leb_spec (len c) n); [lia|reflexivity].
Qed.

(** The parts of a frame. *)
Lemma encode_parts (m : str) (frame : bytes) :
  Wire.encode m = Return frame ->
  exists b0 b1 b2 b3 data,
    frame = b0 :: b1 :: b2 :: b3 :: data
    /\ from_bytes [b0; b1; b2; b3] = len data
    /\ decode_utf8 data = Return m.
Proof.
  unfold Wire.encode.
  destruct (encode_utf8 m) as [data|] eqn:Ed; [|discriminate]. cbn [bind].
  destruct (to_bytes4 (len data)) as [length|] eqn:El; [|discriminate].
  cbn [bind]. intros E. apply (f_equal (fun r => match r with
                                                | Return x => x
                                                | Raise _ => []
                                                end)) in E.
  cbv beta iota in E. subst frame.
  destruct (from_bytes_to_bytes4 _ _ El) as [Hf H4].
  destruct length as [|b0 [|b1 [|b2 [|b3 [|? ?]]]]]; try discriminate.
  exists b0, b1, b2, b3, data. repeat split; auto.
  now apply decode_encode_utf8.
Qed.

Lemma decode_nil_text (m : str) : decode_utf8 [] = Return m -> m = [].
Proof. cbn. congruence. Qed.

(** A frame that is the first segment of the stream is read whole, and
    the segments after it stay as they are. *)
Lemma receive_message_one_frame
  (c : ClientConnection) (m : str) (frame : bytes) (rest : list bytes) :
  Wire.encode m = Return frame ->
  closed (socket_of c) = false ->
  inbox (socket_of c) = frame :: rest ->
  receive_message c = (Some m, read_up_to c rest).
Proof.
  intros He Hc Hi.
  destruct (encode_parts _ _ He) as (b0 & b1 & b2 & b3 & data & -> & Hf & Hd).
  unfold receive_message, receive_try, mbind.
  destruct data as [|d data].
  - rewrite (recv_whole 4 _ _ rest Hc Hi) by (unfold len; cbn [length]; lia).
    rewrite Hf. change (len (@nil Z)) with 0.
    rewrite recv_loop_done by (change (len (@nil Z)) with 0; lia).
    unfold ret, lift. rewrite Hd. reflexivity.
  - rewrite (recv_part 4 _ _ rest Hc Hi)
      by (unfold len; cbn [length]; lia).
    change (Z.to_nat 4) with 4%nat. cbn [firstn skipn].
    rewrite Hf. set (body := d :: data) in *.
    set (sk1 := set_inbox (socket_of c) (body :: rest)).
    assert (Hlen : Z.to_nat (len body) = S (length data))
      by (unfold len, body; cbn [length]; lia).
    rewrite Hlen.
    rewrite recv_loop_step
      by (change (len (@nil Z)) with 0; unfold len, body; cbn [length]; lia).
    change (len (@nil Z)) with 0. rewrite Z.sub_0_r.
    rewrite (recv_whole (len body) sk1 body rest) by (auto; lia).
    unfold body at 1. cbn [app].
    rewrite recv_loop_done by lia.
    unfold lift, ret. rewrite Hd. reflexivity.
Qed.

(** ** One round of a handler thread *)

Lemma handle_client_one_frame
  (s : GameServer) (ref : nat) (c : ClientConnection) (m : str)
  (frame : bytes) (rest : list bytes) :
  existsb (Nat.eqb ref) (serving s) = true ->
  nth_error (objects s) ref = Some c ->
  running s = true -> connected c = true ->
  closed (socket_of c) = false ->
  inbox (socket_of c) = frame :: rest ->
  Wire.encode m = Return frame ->
  m <> [] ->
  _handle_client ref s =
    put (set_objects s (update (objects s) ref (fun _ => read_up_to c rest)))
        (client_id c, m).
Proof.
  intros Hs Ho Hr Hc Hcl Hi He Hm. unfold _handle_client.
  rewrite Hs, Ho, Hr, Hc. cbn [andb].
  rewrite (receive_message_one_frame c m frame rest He Hcl Hi).
  destruct m as [|ch m]; [contradiction|]. reflexivity.
Qed.

(** The frames of a list of messages are read and enqueued one per round,
    in their order. *)
Lemma handler_rounds_frames (ms : list str) :
  forall (frames rest : list bytes) (s : GameServer) (ref : nat)
         (c : ClientConnection),
    framed ms frames -> nonempty_texts ms ->
    existsb (Nat.eqb ref) (serving s) = true ->
    nth_error (objects s) ref = Some c ->
    running s = true -> connected c = true ->
    closed (socket_of c) = false ->
    inbox (socket_of c) = frames ++ rest ->
    let s' := handler_rounds (length ms) ref s in
    message_queue s' = message_queue s ++ map (pair (client_id c)) ms
    /\ nth_error (objects s') ref = Some (read_up_to c rest)
    /\ clients s' = clients s
    /\ serving s' = serving s
    /\ effects s' = effects s.
Proof.
  induction ms as [|m ms IH];
    intros frames rest s ref c Hf Hne Hs Ho Hr Hc Hcl Hi; cbv zeta.
  - inversion Hf; subst. cbn [app] in Hi. cbn [length handler_rounds map].
    rewrite app_nil_r. repeat split. rewrite Ho. f_equal.
    unfold read_up_to, set_inbox, with_socket. rewrite <- Hi.
    destruct c as [? [? ? ? ?] ? ?]; reflexivity.
  - inversion Hf as [|? frame ? frames' He Hf']; subst.
    inversion Hne as [|? ? Hm Hne']; subst.
    cbn [length handler_rounds].
    rewrite (handle_client_one_frame s ref c m frame (frames' ++ rest));
      auto.
    set (c1 := read_up_to c (frames' ++ rest)).
    destruct (IH frames' rest
                 (put (set_objects s (update (objects s) ref (fun _ => c1)))
                      (client_id c, m))
                 ref c1) as (Hq & Hobj & Hcl' & Hsv & Hef); auto.
    { cbn. rewrite nth_error_update_same, Ho. reflexivity. }
    cbv zeta in *. rewrite Hq, Hobj, Hcl', Hsv, Hef.
    cbn [message_queue put set_objects clients serving effects map].
    rewrite <- app_assoc. repeat split.
Qed.

(** ** The rounds of the message processor *)

Lemma emit_nil (s : GameServer) : emit s [] = s.
Proof. destruct s. unfold emit. cbn. now rewrite app_nil_r. Qed.

(** The outcome of a dispatch does not depend on the state, and the state
    changes by what the dispatch adds to the trace. *)
Lemma process_game_message_reaction (cid message : str) (s : GameServer) :
  _process_game_message cid message s =
    (fst (_process_game_message cid message (new_server 0)),
     emit s (reaction (cid, message))).
Proof.
  unfold reaction. cbn [fst snd].
  unfold _process_game_message, process_try, mbind, lift, ret.
  destruct (loads message) as [data|e].
  - destruct (get_type data) as [t|e].
    + destruct (is_str t (lit "player_action")); [reflexivity|].
      destruct (is_str t (lit "skill_use")); [reflexivity|].
      cbn. now rewrite emit_nil.
    + destruct e; cbn; now rewrite ?emit_nil.
  - destruct e; cbn; now rewrite ?emit_nil.
Qed.

Lemma processor_rounds_harmless (q : list (str * str)) :
  forall (rest : list (str * str)) (s : GameServer),
    running s = true ->
    message_queue s = q ++ rest ->
    forallb harmless q = true ->
    processor_rounds (length q) s =
      (Return tt, emit (set_queue s rest) (flat_map reaction q)).
Proof.
  induction q as [|[cid m] q IH]; intros rest s Hr Hq Hh.
  - cbn [length processor_rounds flat_map]. rewrite emit_nil.
    cbn [app] in Hq. rewrite <- Hq. destruct s; reflexivity.
  - cbn [forallb] in Hh. apply andb_true_iff in Hh as [Hm Hh].
    cbn [length processor_rounds]. unfold _message_processor.
    rewrite Hr, Hq. cbn [app].
    rewrite process_game_message_reaction.
    unfold harmless in Hm. cbn [fst snd] in Hm.
    destruct (fst (_process_game_message cid m (new_server 0))) as [[]|e];
      [|discriminate].
    rewrite (IH rest); auto.
    cbn [flat_map]. unfold emit, set_queue. cbn.
    now rewrite app_assoc.
Qed.

(** ** What the methods of the server leave as it was, continued *)

Lemma disconnect_rest (cid : str) (s : GameServer) :
  let s' := _disconnect_client cid s in
  message_queue s' = message_queue s
  /\ serving s' = serving s
  /\ running s' = running s
  /\ strays s' = strays s.
Proof.
  unfold _disconnect_client.
  destruct (Dict.get (clients s) cid); repeat split.
Qed.

Lemma clean_up_rest (dis : list str) :
  forall s : GameServer,
    let s' := clean_up dis s in
    message_queue s' = message_queue s
    /\ serving s' = serving s
    /\ running s' = running s.
Proof.
  unfold clean_up. induction dis as [|cid dis IH]; intros s; cbn [fold_left].
  - repeat split.
  - destruct (IH (_disconnect_client cid s)) as (Hq & Hs & Hr).
    destruct (disconnect_rest cid s) as (Hq' & Hs' & Hr' & _).
    cbv zeta. rewrite Hq, Hs, Hr. auto.
Qed.

Lemma fan_out_rest (text : str) (items : list (str * nat)) :
  forall (dis : list str) (s : GameServer),
    let s' := snd (fan_out text items dis s) in
    message_queue s' = message_queue s
    /\ serving s' = serving s
    /\ running s' = running s.
Proof.
  induction items as [|[cid ref] items IH]; intros dis s; cbn [fan_out].
  - repeat split.
  - destruct (nth_error (objects s) ref) as [conn|]; [|apply IH].
    destruct (send_message conn text) as [ok conn'].
    match goal with
    | |- context [fan_out text items ?d ?s1] =>
        destruct (IH d s1) as (Hq & Hs & Hr)
    end.
    cbv zeta. rewrite Hq, Hs, Hr. repeat split.
Qed.

Lemma broadcast_rest (s : GameServer) :
  let s' := _broadcast_game_state s in
  message_queue s' = message_queue s
  /\ serving s' = serving s
  /\ running s' = running s.
Proof.
  unfold _broadcast_game_state. cbv zeta.
  match goal with
  | |- context [fan_out ?t ?i ?d ?s0] =>
      pose proof (fan_out_rest t i d s0) as H;
      destruct (fan_out t i d s0) as [dis s1]
  end.
  cbv zeta in H. cbn [snd] in H. destruct H as (Hq & Hs & Hr).
  destruct (clean_up_rest dis s1) as (Hq' & Hs' & Hr').
  rewrite Hq', Hs', Hr'. auto.
Qed.

Lemma accept_rest (sk : socket) (addr : str * Z) (s : GameServer) :
  let s' := _accept_connections sk addr s in
  message_queue s' = message_queue s /\ running s' = running s.
Proof.
  unfold _accept_connections, accept_try. cbv zeta.
  destruct (len (clients s) >=? max_players s).
  - destruct (send (lit "Server full") sk) as [[n|e] sk']; [split; reflexivity|].
    cbn [add_stray running]. destruct (running s) eqn:E; split; cbn; auto.
  - split; reflexivity.
Qed.

(** A stopped server stays stopped, and its queue gets nothing more. *)
Lemma step_stopped (s : GameServer) (e : event) :
  running s = false ->
  running (step s e) = false /\ message_queue (step s e) = message_queue s.
Proof.
  intros Hr.
  destruct e as [sk addr|cid|ref| |cid message|ref| ]; cbn [step].
  - destruct (accept_rest sk addr s) as (Hq & Hr'). split; congruence.
  - destruct (disconnect_rest cid s) as (Hq & _ & Hr' & _). split; congruence.
  - unfold _handle_client.
    destruct (existsb (Nat.eqb ref) (serving s)); [|auto].
    destruct (nth_error (objects s) ref) as [conn|]; [|auto].
    rewrite Hr. cbn [andb].
    destruct (disconnect_rest (client_id conn) (retire s ref))
      as (Hq & _ & Hr' & _).
    split; [rewrite Hr'|rewrite Hq]; auto.
  - destruct (broadcast_rest s) as (Hq & _ & Hr'). split; congruence.
  - rewrite process_game_message_reaction. cbn. auto.
  - cbn. auto.
  - cbn. auto.
Qed.

Lemma run_stopped (es : list event) :
  forall s : GameServer,
    running s = false ->
    running (run s es) = false /\ message_queue (run s es) = message_queue s.
Proof.
  unfold run. induction es as [|e es IH]; intros s Hr; cbn [fold_left]; auto.
  destruct (step_stopped s e Hr) as (Hr' & Hq).
  destruct (IH (step s e) Hr') as (Hr'' & Hq'). split; congruence.
Qed.

Lemma retired (ref : nat) (l : list nat) :
  existsb (Nat.eqb ref) (filter (fun r => negb (Nat.eqb ref r)) l) = false.
Proof.
  induction l as [|x l IH]; [reflexivity|]. cbn [filter].
  destruct (Nat.eqb ref x) eqn:E; cbn [negb]; [exact IH|].
  cbn [existsb]. now rewrite E.
Qed.

(** The first read of a stream that starts with four zero bytes. *)
Lemma receive_message_empty_frame
  (c : ClientConnection) (more : bytes) (rest : list bytes) :
  closed (socket_of c) = false ->
  inbox (socket_of c) = (0 :: 0 :: 0 :: 0 :: more) :: rest ->
  exists c',
    receive_message c = (Some [], c') /\ client_id c' = client_id c.
Proof.
  intros Hc Hi. unfold receive_message, receive_try, mbind.
  destruct more as [|b more].
  - rewrite (recv_whole 4 _ _ rest Hc Hi) by (unfold len; cbn [length]; lia).
    change (from_bytes [0; 0; 0; 0]) with 0.
    rewrite recv_loop_done by (change (len (@nil Z)) with 0; lia).
    eexists. split; reflexivity.
  - rewrite (recv_part 4 _ _ rest Hc Hi) by (unfold len; cbn [length]; lia).
    change (Z.to_nat 4) with 4%nat. cbn [firstn skipn].
    change (from_bytes [0; 0; 0; 0]) with 0.
    rewrite recv_loop_done by (change (len (@nil Z)) with 0; lia).
    eexists. split; reflexivity.
Qed.

(** ** Further properties of the server *)

(** X1.  In every state a server can reach, the connection stored under a
    key of [self.clients] carries that key as its [client_id]. *)
Theorem registry_keys_name_connections
  (max : Z) (es : list event) (cid : str) (ref : nat) :
  let s := run (new_server max) es in
  Dict.get (clients s) cid = Some ref ->
  exists c, nth_error (objects s) ref = Some c /\ client_id c = cid.
Proof.
  intros s Hg.
  destruct (sound_run false es (new_server max)) as (_ & H).
  { discriminate. }
  { apply sound_new_server. }
  destruct (H cid ref (dict_get_In _ _ _ Hg)) as (c & Hc & Hid & _).
  now exists c.
Qed.

Lemma registry_keys_name_connections_witness :
  exists c,
    nth_error
      (objects (run (new_server 4)
                    [Accept (peer []) localhost; Accept (peer []) localhost;
                     Receive 0%nat; Accept (peer []) localhost]))
      2%nat = Some c
    /\ client_id c = lit "player_2".
Proof.
  exact (registry_keys_name_connections 4
           [Accept (peer []) localhost; Accept (peer []) localhost;
            Receive 0%nat; Accept (peer []) localhost]
           (lit "player_2") 2%nat eq_refl).
Defined.

(** X2.  When every accepted socket is open, no connection of the registry
    has a closed socket, in any state the server can reach: the server
    closes the socket of a connection only as it deletes its entry. *)
Theorem registered_sockets_are_open
  (max : Z) (es : list event) (cid : str) (ref : nat) (c : ClientConnection) :
  accepts_open es ->
  let s := run (new_server max) es in
  Dict.get (clients s) cid = Some ref ->
  nth_error (objects s) ref = Some c ->
  closed (socket_of c) = false.
Proof.
  intros Ha s Hg Hc.
  destruct (sound_run true es (new_server max)) as (_ & H).
  { intros _. exact Ha. }
  { apply sound_new_server. }
  destruct (H cid ref (dict_get_In _ _ _ Hg)) as (c' & Hc' & _ & Hopen).
  fold s in Hc'. rewrite Hc in Hc'. injection Hc' as <-. now apply Hopen.
Qed.

Lemma registered_sockets_are_open_witness :
  closed (socket_of (new_connection (lit "player_2") (peer []) localhost))
  = false.
Proof.
  apply (registered_sockets_are_open 3
           [Accept (mkSocket [] [] false false) localhost;
            Accept (peer []) localhost; Broadcast;
            Accept (peer []) localhost]
           (lit "player_2") 2%nat).
  - intros sk addr Hin. cbn [In] in Hin.
    repeat (destruct Hin as [Hin|Hin];
            [try discriminate; injection Hin as <- _; reflexivity|]).
    destruct Hin.
  - reflexivity.
  - reflexivity.
Defined.

(** X3.  A frame whose declared length is zero ends the connection: the
    handler reads the empty message, takes it for the end of the stream,
    enqueues nothing, removes the connection's id from the registry, closes
    the socket registered under it and ends its thread. *)
Theorem empty_message_ends_connection
  (s : GameServer) (ref : nat) (c : ClientConnection)
  (more : bytes) (rest : list bytes) :
  existsb (Nat.eqb ref) (serving s) = true ->
  nth_error (objects s) ref = Some c ->
  running s = true -> connected c = true ->
  closed (socket_of c) = false ->
  inbox (socket_of c) = (0 :: 0 :: 0 :: 0 :: more) :: rest ->
  let s' := _handle_client ref s in
  message_queue s' = message_queue s
  /\ Dict.get (clients s') (client_id c) = None
  /\ existsb (Nat.eqb ref) (serving s') = false
  /\ (Dict.get (clients s) (client_id c) = Some ref ->
      exists c', nth_error (objects s') ref = Some c'
                 /\ closed (socket_of c') = true).
Proof.
  intros Hs Ho Hr Hc Hcl Hi. unfold _handle_client.
  rewrite Hs, Ho, Hr, Hc. cbn [andb].
  destruct (receive_message_empty_frame c more rest Hcl Hi) as (c' & E & Hid).
  rewrite E, Hid.
  set (s1 := retire (set_objects s (update (objects s) ref (fun _ => c'))) ref).
  destruct (disconnect_rest (client_id c) s1) as (Hq & Hsv & _).
  cbv zeta. rewrite Hq, Hsv, disconnect_clients.
  split; [reflexivity|]. split; [apply dict_get_del_same|].
  split; [apply retired|].
  intros Hg. rewrite disconnect_objects. unfold refers.
  change (clients s1) with (clients s). rewrite Hg, Nat.eqb_refl.
  change (objects s1) with (update (objects s) ref (fun _ => c')).
  rewrite nth_error_update_same, Ho. cbn [option_map].
  eexists. split; reflexivity.
Qed.

Lemma empty_message_ends_connection_witness :
  let s := run (new_server 2)
               [Accept (peer [[0; 0; 0; 0]; [0; 0; 0; 1; 97]]) localhost] in
  message_queue (_handle_client 0 s) = []
  /\ Dict.get (clients (_handle_client 0 s)) (lit "player_1") = None.
Proof.
  cbv zeta.
  destruct (empty_message_ends_connection
              (run (new_server 2)
                   [Accept (peer [[0; 0; 0; 0]; [0; 0; 0; 1; 97]]) localhost])
              0%nat
              (new_connection (lit "player_1")
                 (peer [[0; 0; 0; 0]; [0; 0; 0; 1; 97]]) localhost)
              [] [[0; 0; 0; 1; 97]]
              eq_refl eq_refl eq_refl eq_refl eq_refl eq_refl)
    as (H1 & H2 & _).
  split; [exact H1|exact H2].
Defined.

(** X4.  Frames that arrive one per segment are read one per round of the
    handler, and their messages, when none is empty, are put on the queue
    in the order of arrival, each with the id of the connection; the
    registry, the handler threads and the trace are not touched, and the
    segments after the frames stay unread. *)
Theorem handler_enqueues_in_order
  (ms : list str) (frames rest : list bytes) (s : GameServer) (ref : nat)
  (c : ClientConnection) :
  framed ms frames -> nonempty_texts ms ->
  existsb (Nat.eqb ref) (serving s) = true ->
  nth_error (objects s) ref = Some c ->
  running s = true -> connected c = true ->
  closed (socket_of c) = false ->
  inbox (socket_of c) = frames ++ rest ->
  let s' := handler_rounds (length ms) ref s in
  message_queue s' = message_queue s ++ map (pair (client_id c)) ms
  /\ nth_error (objects s') ref = Some (read_up_to c rest)
  /\ clients s' = clients s
  /\ serving s' = serving s
  /\ effects s' = effects s.
Proof. apply handler_rounds_frames. Qed.

Lemma handler_enqueues_in_order_witness :
  let s := run (new_server 2)
               [Accept (peer [[0; 0; 0; 2; 104; 105]; [0; 0; 0; 1; 33]; [9]])
                       localhost] in
  message_queue (handler_rounds 2 0 s)
  = [(lit "player_1", [104; 105]); (lit "player_1", [33])].
Proof.
  cbv zeta.
  assert (Hf : framed [[104; 105]; [33]]
                      [[0; 0; 0; 2; 104; 105]; [0; 0; 0; 1; 33]])
    by (repeat constructor).
  assert (Hn : nonempty_texts [[104; 105]; [33]])
    by (repeat constructor; discriminate).
  exact (proj1 (handler_enqueues_in_order
                  [[104; 105]; [33]]
                  [[0; 0; 0; 2; 104; 105]; [0; 0; 0; 1; 33]] [[9]]
                  (run (new_server 2)
                     [Accept (peer [[0; 0; 0; 2; 104; 105];
                                    [0; 0; 0; 1; 33]; [9]])
                             localhost])
                  0%nat
                  (new_connection (lit "player_1")
                     (peer [[0; 0; 0; 2; 104; 105]; [0; 0; 0; 1; 33]; [9]])
                     localhost)
                  Hf Hn eq_refl eq_refl eq_refl eq_refl eq_refl eq_refl)).
Defined.

(** X5.  The message processor dispatches in the order of the queue: as
    long as no dispatch raises, [n] rounds take the [n] oldest messages off
    the queue and add to the trace what each of them produces, oldest
    first; the registry and the connections are not touched. *)
Theorem processor_dispatches_in_order
  (q rest : list (str * str)) (s : GameServer) :
  running s = true ->
  message_queue s = q ++ rest ->
  forallb harmless q = true ->
  let r := processor_rounds (length q) s in
  fst r = Return tt
  /\ message_queue (snd r) = rest
  /\ effects (snd r) = effects s ++ flat_map reaction q
  /\ clients (snd r) = clients s
  /\ objects (snd r) = objects s.
Proof.
  intros Hr Hq Hh. cbv zeta.
  rewrite (processor_rounds_harmless q rest s Hr Hq Hh).
  repeat split.
Qed.

Lemma processor_dispatches_in_order_witness :
  let skill := JObject [(lit "type", JString (lit "skill_use"))] in
  let action := JObject [(lit "type", JString (lit "player_action"))] in
  let s := set_queue (new_server 2)
             [(lit "player_2", dumps skill); (lit "player_1", lit "{");
              (lit "player_1", dumps action); (lit "player_2", lit "[]")] in
  effects (snd (processor_rounds 3 s))
  = [SkillUse (lit "player_2") skill;
     Printed (InvalidJSON (lit "player_1"));
     PlayerAction (lit "player_1") action]
  /\ message_queue (snd (processor_rounds 3 s)) = [(lit "player_2", lit "[]")].
Proof.
  cbv zeta.
  destruct (processor_dispatches_in_order
              [(lit "player_2",
                dumps (JObject [(lit "type", JString (lit "skill_use"))]));
               (lit "player_1", lit "{");
               (lit "player_1",
                dumps (JObject [(lit "type", JString (lit "player_action"))]))]
              [(lit "player_2", lit "[]")]
              (set_queue (new_server 2)
                 [(lit "player_2",
                   dumps (JObject [(lit "type", JString (lit "skill_use"))]));
                  (lit "player_1", lit "{");
                  (lit "player_1",
                   dumps (JObject [(lit "type", JString (lit "player_action"))]));
                  (lit "player_2", lit "[]")])
              eq_refl eq_refl eq_refl) as (_ & H1 & H2 & _).
  split; [exact H2|exact H1].
Defined.

(** X6.  A message whose dispatch raises ends the processor: it is taken
    off the queue, the exception leaves the loop, and the messages behind
    it stay on the queue however many rounds are asked for. *)
Theorem processor_stops_at_raising_message
  (q rest : list (str * str)) (bad : str * str) (n : nat) (s : GameServer) :
  running s = true ->
  message_queue s = q ++ bad :: rest ->
  forallb harmless q = true ->
  harmless bad = false ->
  let r := processor_rounds (length q + S n) s in
  (exists e, fst r = Raise e)
  /\ message_queue (snd r) = rest
  /\ effects (snd r) = effects s ++ flat_map reaction q.
Proof.
  revert s. induction q as [|[cid m] q IH]; intros s Hr Hq Hh Hb; cbv zeta.
  - cbn [length Nat.add processor_rounds app flat_map] in *.
    unfold _message_processor. rewrite Hr, Hq. destruct bad as [cid m].
    rewrite process_game_message_reaction.
    unfold harmless in Hb. cbn [fst snd] in Hb.
    assert (Hre : reaction (cid, m) = []).
    { unfold reaction. cbn [fst snd].
      revert Hb. unfold _process_game_message, process_try, mbind, lift, ret.
      destruct (loads m) as [data|e].
      - destruct (get_type data) as [t|e].
        + destruct (is_str t (lit "player_action")); [discriminate|].
          destruct (is_str t (lit "skill_use")); discriminate.
        + destruct e; try discriminate; reflexivity.
      - destruct e; try discriminate; reflexivity. }
    destruct (fst (_process_game_message cid m (new_server 0))) as [u|e];
      [discriminate|].
    rewrite Hre, emit_nil. cbn. rewrite app_nil_r.
    split; [now exists e|]. split; reflexivity.
  - cbn [forallb] in Hh. apply andb_true_iff in Hh as [Hm Hh].
    cbn [length Nat.add processor_rounds]. unfold _message_processor.
    rewrite Hr, Hq. cbn [app].
    rewrite process_game_message_reaction.
    unfold harmless in Hm. cbn [fst snd] in Hm.
    destruct (fst (_process_game_message cid m (new_server 0))) as [[]|e];
      [|discriminate].
    destruct (IH (emit (set_queue s (q ++ bad :: rest)) (reaction (cid, m))))
      as (He & Hq' & Hef); auto.
    cbv zeta in *. split; [exact He|]. split; [exact Hq'|].
    rewrite Hef. cbn [flat_map effects emit set_queue].
    now rewrite app_assoc.
Qed.

Lemma processor_stops_at_raising_message_witness :
  let s := set_queue (new_server 2)
             [(lit "player_1", lit "{"); (lit "player_2", lit "[]");
              (lit "player_1", lit "{}")] in
  message_queue (snd (processor_rounds 5 s)) = [(lit "player_1", lit "{}")]
  /\ effects (snd (processor_rounds 5 s))
     = [Printed (InvalidJSON (lit "player_1"))].
Proof.
  cbv zeta.
  destruct (processor_stops_at_raising_message
              [(lit "player_1", lit "{")] [(lit "player_1", lit "{}")]
              (lit "player_2", lit "[]") 3
              (set_queue (new_server 2)
                 [(lit "player_1", lit "{"); (lit "player_2", lit "[]");
                  (lit "player_1", lit "{}")])
              eq_refl eq_refl eq_refl eq_refl) as (_ & H1 & H2).
  split; [exact H1|exact H2].
Defined.


(** ** The client: reading frames *)

Lemma recv_at_most (k : Z) (sk sk' : socket) (c : bytes) :
  0 <= k -> recv k sk = (Return c, sk') -> len c <= k.
Proof.
  intros Hk. unfold recv. destruct (closed sk); [discriminate|].
  destruct (inbox sk) as [|seg rest].
  - intros [= <- _]. exact Hk.
  - destruct (Z.leb_spec (len seg) k).
    + intros [= <- _]. assumption.
    + intros [= <- _]. unfold len in *. rewrite length_firstn. lia.
Qed.

(** The payload loops of the server and of the client read the same bytes:
    where the server's returns a payload the client's returns it too, and
    it is complete; where the server's gives up the client's returns an
    incomplete payload. *)
Lemma payload_loops_agree (fuel : nat) :
  forall (n : Z) (message : bytes) (sk : socket),
    len message <= n ->
    match recv_loop fuel n message sk with
    | (Return (Some x), sk') =>
        client_recv_loop fuel n message sk = (Return x, sk') /\ len x = n
    | (Return None, sk') =>
        exists y, client_recv_loop fuel n message sk = (Return y, sk')
                  /\ len y < n
    | (Raise e, sk') => client_recv_loop fuel n message sk = (Raise e, sk')
    end.
Proof.
  induction fuel as [|fuel IH]; intros n message sk Hle;
    cbn [recv_loop client_recv_loop];
    destruct (Z.ltb_spec (len message) n) as [Hlt|Hge].
  - exists message. split; [reflexivity|assumption].
  - split; [reflexivity|lia].
  - unfold mbind.
    destruct (recv (n - len message) sk) as [[chunk|e] sk1] eqn:Er;
      [|reflexivity].
    destruct chunk as [|b chunk].
    + exists message. split; [reflexivity|assumption].
    + apply IH. rewrite len_app.
      assert (Hk : 0 <= n - len message) by lia.
      pose proof (recv_at_most _ _ _ _ Hk Er). lia.
  - split; [reflexivity|lia].
Qed.

Lemma recv_header_is_firstn (sk sk' : socket) (hd : bytes) :
  recv 4 sk = (Return hd, sk') ->
  hd = match inbox sk with
       | [] => []
       | c :: _ => firstn 4 c
       end.
Proof.
  unfold recv. destruct (closed sk); [discriminate|].
  destruct (inbox sk) as [|seg rest]; [now intros [= <- _]|].
  destruct (Z.leb_spec (len seg) 4) as [H|H]; intros [= <- _].
  - symmetry. apply firstn_all2. unfold len in H. lia.
  - reflexivity.
Qed.

(** The [try] blocks of the two readers agree on every stream whose first
    read declares a length that is not negative. *)
Lemma receive_tries_agree (sk : socket) :
  header_nonneg sk ->
  match receive_try sk with
  | (Return (Some text), sk') =>
      client_receive_try sk = (Return (Some (Some text)), sk')
  | (Return None, sk') =>
      client_receive_try sk = (Return None, sk')
      \/ client_receive_try sk = (Return (Some None), sk')
  | (Raise e, sk') => client_receive_try sk = (Raise e, sk')
  end.
Proof.
  intros Hh. unfold receive_try, client_receive_try, mbind.
  destruct (recv 4 sk) as [[hd|e] sk1] eqn:Er; [|reflexivity].
  pose proof (recv_header_is_firstn _ _ _ Er) as Hhd.
  destruct hd as [|b hd]; [now left|].
  assert (Hn : 0 <= from_bytes (b :: hd)).
  { unfold header_nonneg in Hh. destruct (inbox sk); [discriminate|].
    now rewrite Hhd. }
  set (n := from_bytes (b :: hd)) in *.
  pose proof (payload_loops_agree (Z.to_nat n) n [] sk1 Hn) as Ha.
  destruct (recv_loop (Z.to_nat n) n [] sk1) as [[[x|]|e] sk2].
  - destruct Ha as (-> & Hx). rewrite Hx, Z.eqb_refl.
    unfold lift, ret. destruct (decode_utf8 x); reflexivity.
  - destruct Ha as (y & -> & Hy). right.
    destruct (Z.eqb_spec (len y) n); [lia|reflexivity].
  - now rewrite Ha.
Qed.

Lemma octets_header_nonneg (sk : socket) : octets sk -> header_nonneg sk.
Proof.
  unfold octets, header_nonneg. destruct (inbox sk) as [|c rest]; [auto|].
  intros H. inversion H as [|? ? Hc _]; subst.
  assert (Hf : is_bytes (firstn 4 c)).
  { unfold is_bytes in *. rewrite <- (firstn_skipn 4 c) in Hc.
    apply Forall_app in Hc. exact (proj1 Hc). }
  clear - Hf. unfold from_bytes.
  assert (G : forall l acc, is_bytes l -> 0 <= acc ->
                0 <= fold_left (fun a b => a * 256 + b) l acc).
  { induction l as [|x l IH]; intros acc Hl Ha; cbn [fold_left]; [lia|].
    inversion Hl as [|? ? Hx Hl']; subst. apply IH; [assumption|].
    unfold is_byte in Hx. lia. }
  apply G; [assumption|lia].
Qed.

(** A frame that is the first segment of the stream, read by the client. *)
Lemma client_receive_one_frame
  (sk : socket) (m : str) (frame : bytes) (rest : list bytes) :
  Wire.encode m = Return frame ->
  closed sk = false ->
  inbox sk = frame :: rest ->
  client_receive_try sk = (Return (Some (Some m)), set_inbox sk rest).
Proof.
  intros He Hc Hi.
  pose proof (receive_message_one_frame
                (mkConn [] sk ([], 0) true) m frame rest He Hc Hi) as Hs.
  unfold receive_message in Hs. cbn [socket_of] in Hs.
  assert (Hh : header_nonneg sk).
  { unfold header_nonneg. rewrite Hi.
    destruct (encode_parts _ _ He) as (b0 & b1 & b2 & b3 & data & -> & Hf & _).
    cbn [firstn]. rewrite Hf. apply len_nonneg. }
  pose proof (receive_tries_agree sk Hh) as Ha.
  destruct (receive_try sk) as [[[text|]|e] sk']; cbn in Hs;
    try discriminate.
  injection Hs as -> ->. exact Ha.
Qed.

(** ** The client: the queue of incoming messages *)

Lemma get_loop_valid (inq : list str) :
  forall (vs messages : list json),
    Forall2 (fun text v => loads text = Return v) inq vs ->
    get_loop inq messages = (Return (messages ++ vs), []).
Proof.
  induction inq as [|text inq IH]; intros vs messages H;
    inversion H as [|? v ? vs' Hl Hrest]; subst; cbn [get_loop].
  - now rewrite app_nil_r.
  - rewrite Hl, (IH vs' (messages ++ [v]) Hrest), <- app_assoc. reflexivity.
Qed.

Lemma get_loop_invalid (good : list str) :
  forall (vs messages : list json) (bad : str) (e : exn) (rest : list str),
    Forall2 (fun text v => loads text = Return v) good vs ->
    loads bad = Raise e ->
    get_loop (good ++ bad :: rest) messages = (Raise e, rest).
Proof.
  induction good as [|text good IH]; intros vs messages bad e rest H Hb;
    inversion H as [|? v ? vs' Hl Hrest]; subst; cbn [get_loop app].
  - now rewrite Hb.
  - rewrite Hl. eapply IH; eassumption.
Qed.

(** ** The client: sending *)

Lemma send_loop_one (sk : socket) (on : bool) (inq out : list str)
  (m : str) (frame : bytes) :
  Wire.encode m = Return frame ->
  closed sk = false -> writable sk = true ->
  _send_loop (mkClient (Some sk) true inq (m :: out)) =
    (true,
     mkClient (Some (mkSocket (inbox sk) (outbox sk ++ [frame]) false true))
              true inq out).
Proof.
  intros He Hc Hw. unfold _send_loop. cbn [is_connected outgoing_messages
    socket_opt incoming_messages].
  rewrite send_try_encode, He, Hc, Hw. reflexivity.
Qed.

Lemma send_rounds_frames (ms : list str) :
  forall (frames : list bytes) (sk : socket) (inq out : list str),
    framed ms frames ->
    closed sk = false -> writable sk = true ->
    send_rounds (length ms) (mkClient (Some sk) true inq (ms ++ out)) =
      mkClient (Some (mkSocket (inbox sk) (outbox sk ++ frames) false true))
               true inq out.
Proof.
  induction ms as [|m ms IH]; intros frames sk inq out Hf Hc Hw;
    inversion Hf as [|? frame ? frames' He Hf']; subst.
  - cbn. rewrite app_nil_r. destruct sk. cbn in *. now subst.
  - cbn [length send_rounds app].
    rewrite (send_loop_one sk true inq (ms ++ out) m frame He Hc Hw).
    rewrite (IH frames'); auto. cbn. now rewrite <- app_assoc.
Qed.

(** ** The client *)

(** X8.  When every queued text is valid JSON, [get_messages] returns the
    parsed values in the order of the queue and leaves the queue empty; the
    socket, the liveness flag and the outgoing queue are not touched. *)
Theorem get_messages_returns_all_in_order
  (self : GameClient) (vs : list json) :
  Forall2 (fun text v => loads text = Return v) (incoming_messages self) vs ->
  get_messages self =
    (Return vs,
     mkClient (socket_opt self) (is_connected self) []
              (outgoing_messages self)).
Proof.
  intros H. unfold get_messages.
  rewrite (get_loop_valid _ vs [] H). reflexivity.
Qed.

Lemma get_messages_returns_all_in_order_witness :
  get_messages (reading (peer []) [lit "{}"; lit "[1, 2]"; lit " null "]) =
    (Return [JObject []; JArray [JInt 1; JInt 2]; JNull],
     reading (peer []) []).
Proof.
  apply (get_messages_returns_all_in_order
           (reading (peer []) [lit "{}"; lit "[1, 2]"; lit " null "])
           [JObject []; JArray [JInt 1; JInt 2]; JNull]).
  repeat constructor.
Defined.

(** X9.  [get_messages] does not guard [json.loads]: at the first queued
    text that is not valid JSON it raises the decoder's exception.  The
    texts before it and the text itself have left the queue, the values
    parsed so far are not returned, and the texts after it stay queued. *)
Theorem get_messages_raises_at_invalid_text
  (self : GameClient) (good rest : list str) (bad : str) (vs : list json)
  (e : exn) :
  incoming_messages self = good ++ bad :: rest ->
  Forall2 (fun text v => loads text = Return v) good vs ->
  loads bad = Raise e ->
  get_messages self =
    (Raise e,
     mkClient (socket_opt self) (is_connected self) rest
              (outgoing_messages self)).
Proof.
  intros Hq Hg Hb. unfold get_messages.
  rewrite Hq, (get_loop_invalid good vs [] bad e rest Hg Hb). reflexivity.
Qed.

Lemma get_messages_raises_at_invalid_text_witness :
  get_messages (reading (peer []) [lit "{}"; lit "{oops"; lit "[1, 2]"]) =
    (Raise JSONDecodeError, reading (peer []) [lit "[1, 2]"]).
Proof.
  apply (get_messages_raises_at_invalid_text
           (reading (peer []) [lit "{}"; lit "{oops"; lit "[1, 2]"])
           [lit "{}"] [lit "[1, 2]"] (lit "{oops") [JObject []]
           JSONDecodeError).
  - reflexivity.
  - repeat constructor.
  - reflexivity.
Defined.

(** X10.  On a stream of octets the reader of the client and the reader of
    the server take the same frames: [receive_message] returns a text and
    leaves the socket in a state exactly when one round of [_receive_loop]
    on the same socket puts that text on the incoming queue and leaves the
    socket in that state. *)
Theorem frame_readers_agree
  (c : ClientConnection) (inq : list str) (text : str) (sk' : socket) :
  octets (socket_of c) ->
  receive_message c = (Some text, with_socket c sk')
  <-> _receive_loop (reading (socket_of c) inq)
      = (true, reading sk' (inq ++ [text])).
Proof.
  intros Ho. pose proof (receive_tries_agree _ (octets_header_nonneg _ Ho)) as Ha.
  unfold receive_message, _receive_loop, reading, client_state.
  cbn [is_connected socket_opt incoming_messages outgoing_messages].
  destruct (receive_try (socket_of c)) as [[[t|]|e] sk1].
  - rewrite Ha. split.
    + intros [= -> ->]. reflexivity.
    + intros [= -> Hq]. apply app_inv_head in Hq.
      injection Hq as ->. reflexivity.
  - split; [discriminate|].
    destruct Ha as [-> | ->]; [discriminate|].
    intros [= _ Hq]. exfalso.
    apply (f_equal (@length str)) in Hq. rewrite length_app in Hq.
    cbn [length] in Hq. lia.
  - rewrite Ha. split; discriminate.
Qed.

Lemma frame_readers_agree_witness :
  _receive_loop (reading (peer [[0; 0; 0; 2]; [104]; [105; 0; 0]]) [])
  = (true, reading (peer [[0; 0]]) [[104; 105]]).
Proof.
  apply (frame_readers_agree
           (new_connection (lit "player_1")
              (peer [[0; 0; 0; 2]; [104]; [105; 0; 0]]) localhost)
           [] [104; 105] (peer [[0; 0]])).
  - repeat constructor; unfold is_byte; lia.
  - reflexivity.
Defined.

(** X11.  A message that [send_message] has sent reaches the client: when
    the frame that the server wrote arrives as the next segment of the
    client's open socket, one round of [_receive_loop] puts the text of
    the message at the end of the incoming queue, reads nothing beyond the
    frame, and the loop goes on.  The empty text is put like any other. *)
Theorem sent_message_reaches_client
  (c : ClientConnection) (text : str) (frame : bytes) (sk : socket)
  (rest : list bytes) (inq : list str) :
  fst (send_message c text) = true ->
  outbox (socket_of (snd (send_message c text)))
  = outbox (socket_of c) ++ [frame] ->
  closed sk = false ->
  inbox sk = frame :: rest ->
  _receive_loop (reading sk inq)
  = (true, reading (set_inbox sk rest) (inq ++ [text])).
Proof.
  intros Hs Ho Hc Hi.
  destruct (send_message_sent c text Hs) as (frame' & He & Hm).
  rewrite Hm in Ho. cbn [snd with_socket socket_of outbox] in Ho.
  apply app_inv_head in Ho. injection Ho as <-.
  unfold _receive_loop, reading, client_state.
  cbn [is_connected socket_opt incoming_messages outgoing_messages].
  rewrite (client_receive_one_frame sk text frame' rest He Hc Hi).
  reflexivity.
Qed.

Lemma sent_message_reaches_client_witness :
  _receive_loop (reading (peer [[0; 0; 0; 2; 104; 105]; [7]]) [[33]])
  = (true, reading (peer [[7]]) [[33]; [104; 105]]).
Proof.
  apply (sent_message_reaches_client
           (new_connection (lit "player_1") (peer []) localhost)
           [104; 105] [0; 0; 0; 2; 104; 105]
           (peer [[0; 0; 0; 2; 104; 105]; [7]]) [[7]] [[33]]);
    reflexivity.
Defined.

(** X12.  Messages that the client queued reach the queue of the server in
    order: when every message can be framed and none is empty, the send
    loop of a connected client with an open, writable socket writes one
    frame per message and empties the outgoing queue; and a server whose
    connection reads what that socket wrote, one frame per segment, puts
    the messages on its queue in the same order under the connection's
    id. *)
Theorem client_messages_reach_server_queue
  (ms : list str) (frames : list bytes) (sk wire : socket)
  (s : GameServer) (ref : nat) (c : ClientConnection) :
  framed ms frames -> nonempty_texts ms ->
  closed sk = false -> writable sk = true -> outbox sk = [] ->
  socket_opt (send_rounds (length ms) (sending sk ms)) = Some wire ->
  existsb (Nat.eqb ref) (serving s) = true ->
  nth_error (objects s) ref = Some c ->
  running s = true -> connected c = true ->
  closed (socket_of c) = false ->
  inbox (socket_of c) = outbox wire ->
  outgoing_messages (send_rounds (length ms) (sending sk ms)) = []
  /\ outbox wire = frames
  /\ message_queue (handler_rounds (length ms) ref s)
     = message_queue s ++ map (pair (client_id c)) ms.
Proof.
  intros Hf Hn Hc Hw Ho Hwire Hs Hobj Hr Hcon Hcl Hin.
  unfold sending in *.
  rewrite <- (app_nil_r ms) in Hwire at 2.
  rewrite <- (app_nil_r ms) at 2.
  rewrite (send_rounds_frames ms frames sk [] [] Hf Hc Hw) in *.
  cbn [socket_opt outgoing_messages] in *.
  injection Hwire as <-. cbn [outbox] in *. rewrite Ho in *. cbn [app] in *.
  repeat split.
  rewrite <- (app_nil_r frames) in Hin.
  exact (proj1 (handler_rounds_frames ms frames [] s ref c
                  Hf Hn Hs Hobj Hr Hcon Hcl Hin)).
Qed.

Lemma client_messages_reach_server_queue_witness :
  let s := run (new_server 2)
               [Accept (peer [[0; 0; 0; 2; 104; 105]; [0; 0; 0; 1; 33]])
                       localhost] in
  outgoing_messages (send_rounds 2 (sending (peer []) [[104; 105]; [33]]))
  = []
  /\ [[0; 0; 0; 2; 104; 105]; [0; 0; 0; 1; 33]]
     = [[0; 0; 0; 2; 104; 105]; [0; 0; 0; 1; 33]]
  /\ message_queue (handler_rounds 2 0 s)
     = [(lit "player_1", [104; 105]); (lit "player_1", [33])].
Proof.
  cbv zeta.
  assert (Hf : framed [[104; 105]; [33]]
                      [[0; 0; 0; 2; 104; 105]; [0; 0; 0; 1; 33]])
    by (repeat constructor).
  assert (Hn : nonempty_texts [[104; 105]; [33]])
    by (repeat constructor; discriminate).
  exact (client_messages_reach_server_queue
           [[104; 105]; [33]]
           [[0; 0; 0; 2; 104; 105]; [0; 0; 0; 1; 33]]
           (peer [])
           (mkSocket [] [[0; 0; 0; 2; 104; 105]; [0; 0; 0; 1; 33]] false true)
           (run (new_server 2)
              [Accept (peer [[0; 0; 0; 2; 104; 105]; [0; 0; 0; 1; 33]])
                      localhost])
           0%nat
           (new_connection (lit "player_1")
              (peer [[0; 0; 0; 2; 104; 105]; [0; 0; 0; 1; 33]]) localhost)
           Hf Hn eq_refl eq_refl eq_refl eq_refl eq_refl eq_refl eq_refl
           eq_refl eq_refl eq_refl).
Defined.

(** ** [json]: strings written by [dumps] and read by [loads] *)

Lemma hex_value_digit (d : Z) :
  0 <= d < 16 -> hex_value (hex_digit d) = Some d.
Proof.
  intros H.
  assert (E : d = 0 \/ d = 1 \/ d = 2 \/ d = 3 \/ d = 4 \/ d = 5 \/ d = 6
              \/ d = 7 \/ d = 8 \/ d = 9 \/ d = 10 \/ d = 11 \/ d = 12
              \/ d = 13 \/ d = 14 \/ d = 15) by lia.
  repeat (destruct E as [->|E]; [reflexivity|]). subst d. reflexivity.
Qed.

Lemma decode_hexes (n : Z) :
  0 <= n < 65536 ->
  decode_uXXXX [hex_digit (n / 4096); hex_digit ((n / 256) mod 16);
                hex_digit ((n / 16) mod 16); hex_digit (n mod 16)]
  = Some (n, []).
Proof.
  intros H. unfold decode_uXXXX.
  assert (B3 : 0 <= n / 4096 < 16)
    by (split; [apply Z.div_pos; lia | apply Z.div_lt_upper_bound; lia]).
  assert (B2 : 0 <= (n / 256) mod 16 < 16) by (apply Z.mod_pos_bound; lia).
  assert (B1 : 0 <= (n / 16) mod 16 < 16) by (apply Z.mod_pos_bound; lia).
  assert (B0 : 0 <= n mod 16 < 16) by (apply Z.mod_pos_bound; lia).
  rewrite (hex_value_digit _ B3), (hex_value_digit _ B2),
    (hex_value_digit _ B1), (hex_value_digit _ B0).
  f_equal. f_equal.
  pose proof (Z.div_mod n 16 ltac:(lia)) as E0.
  pose proof (Z.div_mod (n / 16) 16 ltac:(lia)) as E1.
  pose proof (Z.div_mod (n / 256) 16 ltac:(lia)) as E2.
  replace (n / 16 / 16) with (n / 256) in E1
    by (rewrite Z.div_div by lia; reflexivity).
  replace (n / 256 / 16) with (n / 4096) in E2
    by (rewrite Z.div_div by lia; reflexivity).
  lia.
Qed.

Lemma scanstring_quote_end (r acc : str) :
  scanstring (34 :: r) acc = Parsed (rev acc) r.
Proof. reflexivity. Qed.

Lemma scanstring_plain (c : Z) (r acc : str) :
  c <> 34 -> c <> 92 -> 32 <= c ->
  scanstring (c :: r) acc = scanstring r (c :: acc).
Proof.
  intros H1 H2 H3. cbn [scanstring].
  destruct (Z.eqb_spec c 34); [contradiction|].
  destruct (Z.eqb_spec c 92); [contradiction|].
  destruct (Z.ltb_spec c 32); [lia|].
  rewrite andb_false_r. reflexivity.
Qed.

Lemma scanstring_short_escape (e x : Z) (r acc : str) :
  e <> 117 -> unescape e = Some x ->
  scanstring (92 :: e :: r) acc = scanstring r (x :: acc).
Proof.
  intros H1 H2.
  change (scanstring (92 :: e :: r) acc)
    with (if e =? 117
          then scanstring (92 :: 117 :: r) acc
          else match unescape e with
               | Some x => scanstring r (x :: acc)
               | None => Invalid
               end).
  destruct (Z.eqb_spec e 117); [contradiction|]. now rewrite H2.
Qed.

Lemma scanstring_u (a b x d uni : Z) (r2 acc : str) :
  decode_uXXXX [a; b; x; d] = Some (uni, []) ->
  (0xD800 <=? uni) && (uni <=? 0xDBFF) = false ->
  scanstring (92 :: 117 :: a :: b :: x :: d :: r2) acc
  = scanstring r2 (uni :: acc).
Proof.
  intros Hd Hs.
  change (scanstring (92 :: 117 :: a :: b :: x :: d :: r2) acc)
    with (match decode_uXXXX [a; b; x; d] with
          | None => Invalid
          | Some (uni, _) =>
              if (0xD800 <=? uni) && (uni <=? 0xDBFF) then
                match r2 with
                | 92 :: 117 :: a2 :: b2 :: x2 :: d2 :: r3 =>
                    match decode_uXXXX [a2; b2; x2; d2] with
                    | None => Invalid
                    | Some (uni2, _) =>
                        if (0xDC00 <=? uni2) && (uni2 <=? 0xDFFF) then
                          scanstring r3
                            (0x10000 + ((uni - 0xD800) * 1024
                                        + (uni2 - 0xDC00)) :: acc)
                        else scanstring r2 (uni :: acc)
                    end
                | 92 :: 117 :: _ => Invalid
                | _ => scanstring r2 (uni :: acc)
                end
              else scanstring r2 (uni :: acc)
          end).
  rewrite Hd, Hs. reflexivity.
Qed.

Lemma scanstring_pair (a b x d a2 b2 x2 d2 uni uni2 : Z) (r3 acc : str) :
  decode_uXXXX [a; b; x; d] = Some (uni, []) ->
  decode_uXXXX [a2; b2; x2; d2] = Some (uni2, []) ->
  (0xD800 <=? uni) && (uni <=? 0xDBFF) = true ->
  (0xDC00 <=? uni2) && (uni2 <=? 0xDFFF) = true ->
  scanstring (92 :: 117 :: a :: b :: x :: d
              :: 92 :: 117 :: a2 :: b2 :: x2 :: d2 :: r3) acc
  = scanstring r3
      (0x10000 + ((uni - 0xD800) * 1024 + (uni2 - 0xDC00)) :: acc).
Proof.
  intros Hd Hd2 Hs Hs2.
  change (scanstring (92 :: 117 :: a :: b :: x :: d
                      :: 92 :: 117 :: a2 :: b2 :: x2 :: d2 :: r3) acc)
    with (match decode_uXXXX [a; b; x; d] with
          | None => Invalid
          | Some (uni, _) =>
              if (0xD800 <=? uni) && (uni <=? 0xDBFF) then
                match decode_uXXXX [a2; b2; x2; d2] with
                | None => Invalid
                | Some (uni2, _) =>
                    if (0xDC00 <=? uni2) && (uni2 <=? 0xDFFF) then
                      scanstring r3
                        (0x10000 + ((uni - 0xD800) * 1024
                                    + (uni2 - 0xDC00)) :: acc)
                    else
                      scanstring
                        (92 :: 117 :: a2 :: b2 :: x2 :: d2 :: r3)
                        (uni :: acc)
                end
              else
                scanstring (92 :: 117 :: a2 :: b2 :: x2 :: d2 :: r3)
                           (uni :: acc)
          end).
  rewrite Hd, Hs, Hd2, Hs2. reflexivity.
Qed.

(** One character: what [dumps] writes for it, [loads] reads as it. *)
Lemma scanstring_escape_char (c : Z) (tail acc : str) :
  is_scalar c = true ->
  scanstring (escape_char c ++ tail) acc = scanstring tail (c :: acc).
Proof.
  unfold is_scalar, is_surrogate. intros H.
  apply andb_prop in H. destruct H as (H & Hs).
  apply andb_prop in H. destruct H as (H0 & H1).
  apply Z.leb_le in H0. apply Z.ltb_lt in H1.
  apply negb_true_iff in Hs.
  unfold escape_char.
  destruct (Z.eqb_spec c 34) as [->|N34];
    [apply scanstring_short_escape; [discriminate|reflexivity]|].
  destruct (Z.eqb_spec c 92) as [->|N92];
    [apply scanstring_short_escape; [discriminate|reflexivity]|].
  destruct (Z.eqb_spec c 10) as [->|N10];
    [apply scanstring_short_escape; [discriminate|reflexivity]|].
  destruct (Z.eqb_spec c 13) as [->|N13];
    [apply scanstring_short_escape; [discriminate|reflexivity]|].
  destruct (Z.eqb_spec c 9) as [->|N9];
    [apply scanstring_short_escape; [discriminate|reflexivity]|].
  destruct (Z.eqb_spec c 12) as [->|N12];
    [apply scanstring_short_escape; [discriminate|reflexivity]|].
  destruct (Z.eqb_spec c 8) as [->|N8];
    [apply scanstring_short_escape; [discriminate|reflexivity]|].
  destruct (Z.leb_spec 32 c) as [L32|L32]; cbn [andb].
  - destruct (Z.leb_spec c 126) as [L126|L126].
    + apply scanstring_plain; assumption.
    + destruct (Z.ltb_spec c 0x10000) as [Lb|Lb].
      * unfold u_escape. cbn [app].
        apply scanstring_u; [apply decode_hexes; lia|].
        destruct (Z.leb_spec 0xD800 c), (Z.leb_spec c 0xDBFF);
          try reflexivity.
        exfalso. destruct (Z.leb_spec 0xD800 c); [|lia].
        destruct (Z.leb_spec c 0xDFFF); [discriminate|lia].
      * set (n := c - 0x10000).
        assert (Hn : 0 <= n < 0x100000) by (unfold n; lia).
        assert (Hq : (n / 1024) mod 1024 = n / 1024).
        { apply Z.mod_small. split; [apply Z.div_pos; lia|].
          apply Z.div_lt_upper_bound; lia. }
        assert (Hr : 0 <= n mod 1024 < 1024) by (apply Z.mod_pos_bound; lia).
        assert (Hd : 0 <= n / 1024 < 1024).
        { split; [apply Z.div_pos; lia|].
          apply Z.div_lt_upper_bound; lia. }
        rewrite Hq. unfold u_escape. cbn [app].
        set (hi := 0xD800 + n / 1024). set (lo := 0xDC00 + n mod 1024).
        rewrite (scanstring_pair _ _ _ _ _ _ _ _ hi lo).
        -- f_equal. f_equal. unfold hi, lo.
           pose proof (Z.div_mod n 1024 ltac:(lia)). unfold n in *. lia.
        -- apply decode_hexes. unfold hi. lia.
        -- apply decode_hexes. unfold lo. lia.
        -- unfold hi. apply andb_true_intro.
           split; [apply Z.leb_le | apply Z.leb_le]; lia.
        -- unfold lo. apply andb_true_intro.
           split; [apply Z.leb_le | apply Z.leb_le]; lia.
  - destruct (Z.ltb_spec c 0x10000) as [Lb|Lb]; [|lia].
    unfold u_escape. cbn [app].
    apply scanstring_u; [apply decode_hexes; lia|].
    destruct (Z.leb_spec 0xD800 c); [lia|reflexivity].
Qed.

(** A string literal written by [dumps] is read back by [py_scanstring]. *)
Lemma scanstring_escaped (s : str) :
  forall (acc rest : str),
    is_text s = true ->
    scanstring (flat_map escape_char s ++ 34 :: rest) acc
    = Parsed (rev acc ++ s) rest.
Proof.
  induction s as [|c s IH]; intros acc rest H.
  - cbn [flat_map app]. rewrite scanstring_quote_end, app_nil_r. reflexivity.
  - cbn [is_text forallb] in H. apply andb_prop in H. destruct H as (Hc & Hs).
    cbn [flat_map]. rewrite <- app_assoc.
    rewrite (scanstring_escape_char c _ acc Hc).
    rewrite (IH (c :: acc) rest Hs). cbn [rev]. rewrite <- app_assoc.
    reflexivity.
Qed.

(** ** [json]: integers written by [dumps] and read by [loads] *)

Lemma lit_String (a : ascii) (s : string) :
  lit (String a s) = Z.of_nat (nat_of_ascii a) :: lit s.
Proof. reflexivity. Qed.

Ltac ascii_code :=
  match goal with
  | |- context [Z.of_nat (nat_of_ascii ?a)] =>
      let v := eval vm_compute in (Z.of_nat (nat_of_ascii a)) in
      change (Z.of_nat (nat_of_ascii a)) with v
  end.

Lemma uint_digits (d : Decimal.uint) :
  forallb is_digit (lit (NilEmpty.string_of_uint d)) = true.
Proof.
  induction d; cbn [NilEmpty.string_of_uint]; [reflexivity|..];
    rewrite lit_String; cbn [forallb]; rewrite IHd; reflexivity.
Qed.

Lemma uint_digits_value (d : Decimal.uint) :
  forall acc : nat,
    fold_left (fun a c => a * 10 + (c - 48))
              (lit (NilEmpty.string_of_uint d)) (Z.of_nat acc)
    = Z.of_nat (Nat.of_uint_acc d acc).
Proof.
  induction d; intros acc; cbn [NilEmpty.string_of_uint Nat.of_uint_acc];
    [reflexivity|..];
    rewrite lit_String; cbn [fold_left]; rewrite <- IHd; f_equal;
    rewrite Nat.tail_mul_spec; ascii_code; lia.
Qed.

Lemma take_digits_app (ds : str) :
  forall rest : str,
    forallb is_digit ds = true ->
    match rest with [] => True | c :: _ => is_digit c = false end ->
    take_digits (ds ++ rest) = (ds, rest).
Proof.
  induction ds as [|c ds IH]; intros rest Hd Hr.
  - destruct rest as [|c r]; [reflexivity|]. cbn [app take_digits].
    now rewrite Hr.
  - cbn [forallb] in Hd. apply andb_prop in Hd. destruct Hd as (Hc & Hd).
    cbn [app take_digits]. now rewrite Hc, (IH rest Hd Hr).
Qed.

Lemma follower_no_digit (rest : str) :
  follower rest ->
  match rest with [] => True | c :: _ => is_digit c = false end.
Proof.
  destruct rest as [|c r]; [trivial|].
  intros [->|[->| ->]]; reflexivity.
Qed.

Lemma nzhead_shape (d : Decimal.uint) :
  match Decimal.nzhead d with
  | Decimal.D0 _ => False
  | _ => True
  end.
Proof. induction d; cbn [Decimal.nzhead]; trivial. Qed.

(** The decimal digits of a natural number: a single zero, or a digit from
    1 to 9 followed by digits. *)
Lemma format_int_shape (k : nat) :
  format_int k = [48]
  \/ exists c ds, format_int k = c :: ds /\ 49 <= c <= 57
                  /\ forallb is_digit ds = true.
Proof.
  unfold format_int.
  assert (E : Nat.to_uint k = Decimal.unorm (Nat.to_uint k)).
  { rewrite <- DecimalNat.Unsigned.to_of, DecimalNat.Unsigned.of_to. reflexivity. }
  rewrite E. unfold Decimal.unorm.
  pose proof (nzhead_shape (Nat.to_uint k)) as Hs.
  destruct (Decimal.nzhead (Nat.to_uint k)) as [|u|u|u|u|u|u|u|u|u|u];
    [left; reflexivity | destruct Hs | ..];
    right; cbn [NilZero.string_of_uint NilEmpty.string_of_uint];
    rewrite lit_String; ascii_code;
    eexists; eexists; (split; [reflexivity|]); (split; [lia|]);
    apply uint_digits.
Qed.

Lemma format_int_value (k : nat) : digits_value (format_int k) = Z.of_nat k.
Proof.
  unfold format_int, digits_value.
  rewrite <- (DecimalNat.Unsigned.of_to k) at 2. unfold Nat.of_uint.
  rewrite <- uint_digits_value.
  destruct (Nat.to_uint k); reflexivity.
Qed.

Ltac after_digits rest Hf :=
  match goal with
  | |- context [take_digits (?c :: ?ds ++ rest)] =>
      change (take_digits (c :: ds ++ rest))
        with (take_digits ((c :: ds) ++ rest));
      rewrite (take_digits_app (c :: ds) rest)
        by first [ assumption
                 | apply follower_no_digit; assumption ]
  | _ => idtac
  end;
  destruct rest as [|f r];
  [reflexivity|destruct Hf as [->|[->| ->]]; reflexivity].

(** [NUMBER_RE] on the digits of an integer, with or without a sign. *)
Lemma scan_number_digits (ds rest : str) :
  ds = [48]
  \/ (exists c ds', ds = c :: ds' /\ 49 <= c <= 57
                    /\ forallb is_digit ds' = true) ->
  follower rest ->
  scan_number (ds ++ rest) = Some (JInt (digits_value ds), rest)
  /\ scan_number (45 :: ds ++ rest) = Some (JInt (- digits_value ds), rest).
Proof.
  intros [->|(c & ds' & -> & Hc & Hd)] Hf.
  - split; cbn [app]; unfold scan_number; after_digits rest Hf.
  - assert (E : c = 49 \/ c = 50 \/ c = 51 \/ c = 52 \/ c = 53 \/ c = 54
                \/ c = 55 \/ c = 56 \/ c = 57) by lia.
    clear Hc.
    repeat (destruct E as [->|E];
            [split; cbn [app]; unfold scan_number;
             match goal with
             | |- context [is_digit ?c] =>
                 let v := eval vm_compute in (is_digit c) in
                 change (is_digit c) with v
             end; cbv iota; after_digits rest Hf|]).
    subst c. split; cbn [app]; unfold scan_number;
      match goal with
      | |- context [is_digit ?c] =>
          let v := eval vm_compute in (is_digit c) in
          change (is_digit c) with v
      end; cbv iota; after_digits rest Hf.
Qed.

(** An integer written by [dumps] is read back as that integer. *)
Lemma scan_number_format_Z (n : Z) (rest : str) :
  follower rest ->
  scan_number (format_Z n ++ rest) = Some (JInt n, rest).
Proof.
  intros Hf. unfold format_Z.
  destruct (Z.ltb_spec n 0) as [Hn|Hn].
  - cbn [app].
    rewrite (proj2 (scan_number_digits _ rest
                      (format_int_shape (Z.to_nat (- n))) Hf)).
    rewrite format_int_value. do 2 f_equal. f_equal. lia.
  - rewrite (proj1 (scan_number_digits _ rest
                      (format_int_shape (Z.to_nat n)) Hf)).
    rewrite format_int_value. do 2 f_equal. f_equal. lia.
Qed.

(** ** [json]: values written by [dumps] and read by [loads] *)

Lemma is_ws_above (h : Z) : 33 <= h -> is_ws h = false.
Proof.
  intros H. unfold is_ws.
  destruct (Z.eqb_spec h 32); [lia|]. destruct (Z.eqb_spec h 9); [lia|].
  destruct (Z.eqb_spec h 10); [lia|]. destruct (Z.eqb_spec h 13); [lia|].
  reflexivity.
Qed.

Lemma skip_ws_above (h : Z) (t : str) : 33 <= h -> skip_ws (h :: t) = h :: t.
Proof. intros H. cbn [skip_ws]. now rewrite is_ws_above. Qed.

Lemma format_Z_head (n : Z) :
  exists h t, format_Z n = h :: t /\ (h = 45 \/ 48 <= h <= 57).
Proof.
  unfold format_Z. destruct (n <? 0).
  - eexists; eexists; split; [reflexivity|now left].
  - destruct (format_int_shape (Z.to_nat n)) as [->|(c & ds & -> & Hc & _)];
      eexists; eexists; (split; [reflexivity|right; lia]).
Qed.

(** The first character of what [dumps] writes: never white space, never
    the end of an array. *)
Lemma dumps_head (v : json) :
  portable v = true ->
  exists h t, dumps v = h :: t /\ 34 <= h /\ h <> 93.
Proof.
  destruct v as [|[|]|n|l|s|items|members]; intros Hp.
  - exists 110, (lit "ull"). repeat split; [lia|discriminate].
  - exists 116, (lit "rue"). repeat split; [lia|discriminate].
  - exists 102, (lit "alse"). repeat split; [lia|discriminate].
  - cbn [dumps].
    destruct (format_Z_head n) as (h & t & -> & Hh).
    exists h, t. split; [reflexivity|lia].
  - discriminate Hp.
  - eexists 34, _. repeat split; [lia|discriminate].
  - eexists 91, _. repeat split; [lia|discriminate].
  - eexists 123, _. repeat split; [lia|discriminate].
Qed.

Lemma join_cons (sep p : str) (ps : list str) :
  join sep (p :: ps)
  = p ++ match ps with [] => [] | _ => sep ++ join sep ps end.
Proof. destruct ps; cbn [join]; [now rewrite app_nil_r|reflexivity]. Qed.

(** The opening bracket of an array that is not empty. *)
Lemma scan_once_open_array (fuel : nat) (h : Z) (t : str) :
  34 <= h -> h <> 93 ->
  scan_once (S fuel) (91 :: h :: t) = array_items fuel (h :: t) [].
Proof.
  intros H1 H2.
  change (scan_once (S fuel) (91 :: h :: t))
    with (match skip_ws (h :: t) with
          | 93 :: rest => Parsed (JArray []) rest
          | r' => array_items fuel r' []
          end).
  rewrite skip_ws_above by lia.
  destruct h as [|p|p]; try reflexivity.
  repeat (destruct p as [p|p|]; try reflexivity).
  exfalso. apply H2. reflexivity.
Qed.

(** A value that is not a string, an array, a dictionary or a constant is
    read as a number. *)
Lemma scan_once_number (fuel : nat) (h : Z) (t rest : str) (v : json) :
  h = 45 \/ 48 <= h <= 57 ->
  scan_number (h :: t) = Some (v, rest) ->
  scan_once (S fuel) (h :: t) = Parsed v rest.
Proof.
  intros Hh Hn.
  change (scan_once (S fuel) (h :: t))
    with (if h =? 34 then
            match scanstring t [] with
            | Parsed x rest => Parsed (JString x) rest
            | Invalid => Invalid
            | Starved => Starved
            end
          else if h =? 123 then
            match skip_ws t with
            | 125 :: rest => Parsed (JObject []) rest
            | 34 :: rest => object_members fuel rest []
            | _ => Invalid
            end
          else if h =? 91 then
            match skip_ws t with
            | 93 :: rest => Parsed (JArray []) rest
            | r' => array_items fuel r' []
            end
          else
            match strip_prefix (lit "null") (h :: t) with
            | Some rest => Parsed JNull rest
            | None =>
            match strip_prefix (lit "true") (h :: t) with
            | Some rest => Parsed (JBool true) rest
            | None =>
            match strip_prefix (lit "false") (h :: t) with
            | Some rest => Parsed (JBool false) rest
            | None =>
            match scan_number (h :: t) with
            | Some (v, rest) => Parsed v rest
            | None => scan_constant (h :: t)
            end end end end).
  destruct (Z.eqb_spec h 34); [lia|].
  destruct (Z.eqb_spec h 123); [lia|].
  destruct (Z.eqb_spec h 91); [lia|].
  assert (N1 : strip_prefix (lit "null") (h :: t) = None).
  { change (strip_prefix (lit "null") (h :: t))
      with (if 110 =? h then strip_prefix (lit "ull") t else None).
    destruct (Z.eqb_spec 110 h); [lia|reflexivity]. }
  assert (N2 : strip_prefix (lit "true") (h :: t) = None).
  { change (strip_prefix (lit "true") (h :: t))
      with (if 116 =? h then strip_prefix (lit "rue") t else None).
    destruct (Z.eqb_spec 116 h); [lia|reflexivity]. }
  assert (N3 : strip_prefix (lit "false") (h :: t) = None).
  { change (strip_prefix (lit "false") (h :: t))
      with (if 102 =? h then strip_prefix (lit "alse") t else None).
    destruct (Z.eqb_spec 102 h); [lia|reflexivity]. }
  rewrite N1, N2, N3, Hn. reflexivity.
Qed.

Lemma dict_set_new {V} (d : Dict.dict V) (k : str) (v : V) :
  ~ In k (map fst d) -> Dict.set d k v = d ++ [(k, v)].
Proof.
  induction d as [|[k' v'] d IH]; intros Hn; cbn [Dict.set app];
    [reflexivity|].
  cbn [map fst In] in Hn. unfold str_eqb.
  destruct (str_eq_dec k' k) as [->|_]; [tauto|].
  rewrite IH by tauto. reflexivity.
Qed.

Lemma distinct_NoDup (ks : list str) : distinct ks = true -> NoDup ks.
Proof.
  induction ks as [|k ks IH]; intros H; [constructor|].
  cbn [distinct] in H. apply andb_prop in H. destruct H as (H1 & H2).
  constructor; [|auto].
  intros Hin. apply negb_true_iff in H1.
  assert (E : existsb (str_eqb k) ks = true).
  { apply existsb_exists. exists k. split; [assumption|].
    unfold str_eqb. destruct (str_eq_dec k k); congruence. }
  congruence.
Qed.

Lemma array_items_step (fuel : nat) (s : str) (acc : list json) :
  array_items (S fuel) s acc
  = match scan_once fuel s with
    | Parsed v rest =>
        match skip_ws rest with
        | 93 :: rest' => Parsed (JArray (rev (v :: acc))) rest'
        | 44 :: rest' => array_items fuel (skip_ws rest') (v :: acc)
        | _ => Invalid
        end
    | Invalid => Invalid
    | Starved => Starved
    end.
Proof. reflexivity. Qed.

Lemma object_members_step (fuel : nat) (s : str) (acc : Dict.dict json) :
  object_members (S fuel) s acc
  = match scanstring s [] with
    | Parsed key rest =>
        match skip_ws rest with
        | 58 :: rest1 =>
            match scan_once fuel (skip_ws rest1) with
            | Parsed v rest2 =>
                let acc' := Dict.set acc key v in
                match skip_ws rest2 with
                | 125 :: rest3 => Parsed (JObject acc') rest3
                | 44 :: rest3 =>
                    match skip_ws rest3 with
                    | 34 :: rest4 => object_members fuel rest4 acc'
                    | _ => Invalid
                    end
                | _ => Invalid
                end
            | Invalid => Invalid
            | Starved => Starved
            end
        | _ => Invalid
        end
    | Invalid => Invalid
    | Starved => Starved
    end.
Proof. reflexivity. Qed.

Lemma skip_ws_dumps (v : json) (tail : str) :
  portable v = true -> skip_ws (dumps v ++ tail) = dumps v ++ tail.
Proof.
  intros Hp. destruct (dumps_head v Hp) as (h & t & -> & Hh & _).
  cbn [app]. apply skip_ws_above. lia.
Qed.

(** The items of an array that is not empty, up to its closing bracket. *)
Lemma array_items_dumps (items : list json) :
  forall (acc : list json) (fuel : nat) (rest : str),
    Forall (fun v =>
              portable v = true
              /\ forall fuel rest,
                   (weight v <= fuel)%nat -> follower rest ->
                   scan_once fuel (dumps v ++ rest) = Parsed v rest) items ->
    items <> [] ->
    (fold_right (fun x a => S (weight x + a)) O items <= fuel)%nat ->
    array_items fuel (join (lit ", ") (map dumps items) ++ 93 :: rest) acc
    = Parsed (JArray (rev acc ++ items)) rest.
Proof.
  induction items as [|v vs IH]; intros acc fuel rest Hall Hne Hfuel;
    [contradiction|].
  inversion Hall as [|? ? (Hp & Hv) Hvs]; subst.
  cbn [fold_right] in Hfuel. destruct fuel as [|f]; [lia|].
  rewrite array_items_step.
  destruct vs as [|v2 vs'].
  - cbn [map join]. rewrite Hv by (cbn [fold_right] in Hfuel; cbn; lia || auto).
    reflexivity.
  - set (Y := join (lit ", ") (map dumps (v2 :: vs')) ++ 93 :: rest).
    assert (Etext : join (lit ", ") (map dumps (v :: v2 :: vs')) ++ 93 :: rest
                    = dumps v ++ 44 :: 32 :: Y).
    { unfold Y. cbn [map]. rewrite (join_cons _ (dumps v)).
      rewrite <- !app_assoc. reflexivity. }
    rewrite Etext, Hv by (cbn; lia || auto).
    transitivity (array_items f (skip_ws Y) (v :: acc)); [reflexivity|].
    assert (Hs : skip_ws Y = Y).
    { unfold Y. cbn [map]. rewrite join_cons, <- app_assoc.
      inversion Hvs as [|? ? (Hp2 & _) _]; subst.
      apply skip_ws_dumps. assumption. }
    rewrite Hs. unfold Y.
    rewrite (IH (v :: acc) f rest Hvs) by (discriminate || lia).
    cbn [rev]. rewrite <- app_assoc. reflexivity.
Qed.

(** The members of a dictionary that is not empty, from the first key to
    the closing brace. *)
Lemma object_members_dumps (members : list (str * json)) :
  forall (acc : Dict.dict json) (fuel : nat) (rest X : str),
    Forall (fun kv =>
              is_text (fst kv) = true
              /\ portable (snd kv) = true
              /\ forall fuel rest,
                   (weight (snd kv) <= fuel)%nat -> follower rest ->
                   scan_once fuel (dumps (snd kv) ++ rest)
                   = Parsed (snd kv) rest) members ->
    NoDup (map fst (acc ++ members)) ->
    (fold_right (fun kv a => S (weight (snd kv) + a)) O members <= fuel)%nat ->
    join (lit ", ")
         (map (fun kv => quote (fst kv) ++ lit ": " ++ dumps (snd kv)) members)
      ++ 125 :: rest = 34 :: X ->
    object_members fuel X acc = Parsed (JObject (acc ++ members)) rest.
Proof.
  induction members as [|[k v] ms IH];
    intros acc fuel rest X Hall Hnd Hfuel Htext; [discriminate Htext|].
  inversion Hall as [|? ? (Hk & Hp & Hv) Hms]; subst.
  cbn [fst snd] in Hk, Hp, Hv.
  cbn [fold_right snd] in Hfuel. destruct fuel as [|f]; [lia|].
  set (T := match ms with
            | [] => 125 :: rest
            | _ =>
                44 :: 32
                :: join (lit ", ")
                     (map (fun kv =>
                             quote (fst kv) ++ lit ": " ++ dumps (snd kv)) ms)
                   ++ 125 :: rest
            end).
  assert (EX : X = flat_map escape_char k
                   ++ 34 :: 58 :: 32 :: dumps v ++ T).
  { cbn [map fst snd] in Htext. rewrite join_cons in Htext.
    unfold quote in Htext. rewrite <- !app_assoc in Htext.
    cbn [app] in Htext. injection Htext as <-.
    f_equal. unfold T. destruct ms; reflexivity. }
  assert (Hkey : ~ In k (map fst acc)).
  { rewrite map_app in Hnd. cbn [map fst] in Hnd.
    apply NoDup_remove_2 in Hnd. intros Hin. apply Hnd.
    apply in_or_app. now left. }
  assert (HT : follower T).
  { unfold T. destruct ms; cbn; auto. }
  rewrite object_members_step, EX.
  rewrite (scanstring_escaped k [] _ Hk). cbn [rev app].
  transitivity
    (match scan_once f (skip_ws (dumps v ++ T)) with
     | Parsed v rest2 =>
         let acc' := Dict.set acc k v in
         match skip_ws rest2 with
         | 125 :: rest3 => Parsed (JObject acc') rest3
         | 44 :: rest3 =>
             match skip_ws rest3 with
             | 34 :: rest4 => object_members f rest4 acc'
             | _ => Invalid
             end
         | _ => Invalid
         end
     | Invalid => Invalid
     | Starved => Starved
     end); [reflexivity|].
  rewrite (skip_ws_dumps v T Hp), (Hv f T) by (lia || assumption).
  cbv zeta. rewrite (dict_set_new acc k v Hkey).
  unfold T. destruct ms as [|kv2 ms'].
  - reflexivity.
  - set (J := join (lit ", ")
                (map (fun kv => quote (fst kv) ++ lit ": " ++ dumps (snd kv))
                     (kv2 :: ms')) ++ 125 :: rest).
    assert (EJ : exists X', J = 34 :: X').
    { unfold J. cbn [map]. rewrite join_cons. unfold quote.
      rewrite <- !app_assoc. cbn [app]. eexists. reflexivity. }
    destruct EJ as (X' & EJ).
    transitivity (object_members f X' (acc ++ [(k, v)])).
    { rewrite EJ. reflexivity. }
    rewrite (IH (acc ++ [(k, v)]) f rest X' Hms).
    + rewrite <- app_assoc. reflexivity.
    + rewrite <- app_assoc. exact Hnd.
    + cbn [fold_right] in *. lia.
    + exact EJ.
Qed.

Lemma json_by_weight (P : json -> Prop) :
  (forall v, (forall x, (weight x < weight v)%nat -> P x) -> P v) ->
  forall v, P v.
Proof.
  intros Hstep.
  assert (G : forall n v, (weight v < n)%nat -> P v).
  { induction n as [|n IH]; intros v Hv; [lia|].
    apply Hstep. intros x Hx. apply IH. lia. }
  intros v. apply (G (S (weight v))). lia.
Qed.

Lemma weight_item (items : list json) (x : json) :
  In x items -> (weight x < weight (JArray items))%nat.
Proof.
  cbn [weight]. induction items as [|v vs IH]; intros Hin; [destruct Hin|].
  cbn [fold_right]. destruct Hin as [->|Hin]; [lia|].
  specialize (IH Hin). lia.
Qed.

Lemma weight_member (members : list (str * json)) (kv : str * json) :
  In kv members -> (weight (snd kv) < weight (JObject members))%nat.
Proof.
  cbn [weight]. induction members as [|m ms IH]; intros Hin; [destruct Hin|].
  cbn [fold_right]. destruct Hin as [->|Hin]; [lia|].
  specialize (IH Hin). lia.
Qed.

(** What [dumps] writes for a portable value, followed by what can follow
    a value, is read by the decoder as that value; the decoder stops right
    after it. *)
Lemma scan_once_dumps (v : json) :
  portable v = true ->
  forall (fuel : nat) (rest : str),
    (weight v <= fuel)%nat -> follower rest ->
    scan_once fuel (dumps v ++ rest) = Parsed v rest.
Proof.
  induction v as [v IH] using json_by_weight.
  intros Hp fuel rest Hfuel Hrest.
  destruct fuel as [|f]; [destruct v; cbn [weight] in Hfuel; lia|].
  destruct v as [|[|]|n|l|s|items|members]; try reflexivity.
  - cbn [dumps]. destruct (format_Z_head n) as (h & t & E & Hh).
    pose proof (scan_number_format_Z n rest Hrest) as Hn.
    rewrite E in *. cbn [app] in *. now apply scan_once_number.
  - discriminate Hp.
  - cbn [dumps portable] in *. unfold quote. rewrite <- !app_assoc.
    transitivity
      (match scanstring (flat_map escape_char s ++ 34 :: rest) [] with
       | Parsed x rest => Parsed (JString x) rest
       | Invalid => Invalid
       | Starved => Starved
       end); [reflexivity|].
    now rewrite scanstring_escaped.
  - destruct items as [|v1 vs]; [reflexivity|].
    cbn [portable] in Hp. cbn [weight] in Hfuel.
    set (Y := join (lit ", ") (map dumps (v1 :: vs)) ++ 93 :: rest).
    assert (Hall : Forall (fun v =>
                portable v = true
                /\ forall fuel rest,
                     (weight v <= fuel)%nat -> follower rest ->
                     scan_once fuel (dumps v ++ rest) = Parsed v rest)
              (v1 :: vs)).
    { apply Forall_forall. intros x Hx.
      assert (Hpx : portable x = true)
        by (rewrite forallb_forall in Hp; now apply Hp).
      split; [assumption|]. apply IH; [now apply weight_item|assumption]. }
    assert (HY : exists h t, Y = h :: t /\ 34 <= h /\ h <> 93).
    { unfold Y. cbn [map]. rewrite join_cons, <- app_assoc.
      inversion Hall as [|? ? (Hp1 & _) _]; subst.
      destruct (dumps_head v1 Hp1) as (h & t & -> & Hh).
      cbn [app]. eexists; eexists. split; [reflexivity|assumption]. }
    destruct HY as (h & t & HY & Hh1 & Hh2).
    transitivity (scan_once (S f) (91 :: Y)).
    { unfold Y. cbn [dumps]. rewrite <- !app_assoc. reflexivity. }
    rewrite HY, scan_once_open_array, <- HY by assumption. unfold Y.
    apply (array_items_dumps (v1 :: vs) [] f rest Hall);
      [discriminate|lia].
  - destruct members as [|m ms]; [reflexivity|].
    cbn [portable] in Hp. apply andb_prop in Hp. destruct Hp as (Hp & Hd).
    cbn [weight] in Hfuel.
    set (J := join (lit ", ")
                (map (fun kv => quote (fst kv) ++ lit ": " ++ dumps (snd kv))
                     (m :: ms)) ++ 125 :: rest).
    assert (EJ : exists X, J = 34 :: X).
    { unfold J. cbn [map]. rewrite join_cons. unfold quote.
      rewrite <- !app_assoc. cbn [app]. eexists. reflexivity. }
    destruct EJ as (X & EJ).
    transitivity (scan_once (S f) (123 :: J)).
    { unfold J. cbn [dumps]. rewrite <- !app_assoc. reflexivity. }
    rewrite EJ.
    transitivity (object_members f X []); [reflexivity|].
    apply (object_members_dumps (m :: ms) [] f rest X).
    + apply Forall_forall. intros kv Hkv.
      rewrite forallb_forall in Hp. specialize (Hp kv Hkv).
      apply andb_prop in Hp. destruct Hp as (Hk & Hpv).
      repeat split; try assumption.
      apply IH; [now apply weight_member|assumption].
    + cbn [app]. now apply distinct_NoDup.
    + lia.
    + exact EJ.
Qed.

Lemma join_length (sep : str) (parts : list str) :
  length (join sep parts)
  = (fold_right (fun p a => length p + a) 0 parts
     + length sep * pred (length parts))%nat.
Proof.
  induction parts as [|p ps IH]; [cbn; lia|].
  rewrite join_cons. destruct ps as [|q ps].
  - cbn. rewrite app_nil_r. lia.
  - rewrite !length_app, IH. cbn [fold_right length pred]. lia.
Qed.

(** The fuel that [loads] grants is enough for what [dumps] writes. *)
Lemma weight_le_length (v : json) :
  portable v = true -> (weight v <= length (dumps v))%nat.
Proof.
  induction v as [v IH] using json_by_weight. intros Hp.
  destruct v as [|[|]|n|l|s|items|members];
    try (cbn; lia); try discriminate Hp.
  - cbn [dumps weight]. destruct (format_Z_head n) as (h & t & -> & _).
    cbn [length]. lia.
  - cbn [dumps portable] in *. rewrite !length_app, join_length.
    cbn [length weight]. rewrite length_map.
    assert (G : forall xs,
               (forall x, In x xs -> (weight x <= length (dumps x))%nat) ->
               (fold_right (fun x a => S (weight x + a)) 0 xs
                <= fold_right (fun p a => length p + a) 0 (map dumps xs)
                   + length xs)%nat).
    { induction xs as [|x xs IHx]; intros Hx; cbn [fold_right map length];
        [lia|].
      pose proof (Hx x (or_introl eq_refl)).
      specialize (IHx (fun y Hy => Hx y (or_intror Hy))). lia. }
    specialize (G items).
    assert (Hi : forall x, In x items -> (weight x <= length (dumps x))%nat).
    { intros x Hx. apply IH; [now apply weight_item|].
      rewrite forallb_forall in Hp. now apply Hp. }
    specialize (G Hi). change (length (lit ", ")) with 2%nat.
    destruct items; cbn [length pred] in *; lia.
  - cbn [dumps portable] in *. apply andb_prop in Hp. destruct Hp as (Hp & _).
    rewrite !length_app, join_length.
    cbn [length weight]. rewrite length_map.
    assert (G : forall xs : list (str * json),
               (forall kv, In kv xs ->
                           (weight (snd kv) <= length (dumps (snd kv)))%nat) ->
               (fold_right (fun kv a => S (weight (snd kv) + a)) 0 xs
                <= fold_right (fun p a => length p + a) 0
                     (map (fun kv =>
                             quote (fst kv) ++ lit ": " ++ dumps (snd kv)) xs)
                   + length xs)%nat).
    { induction xs as [|x xs IHx]; intros Hx; cbn [fold_right map length];
        [lia|].
      pose proof (Hx x (or_introl eq_refl)).
      specialize (IHx (fun y Hy => Hx y (or_intror Hy))).
      rewrite !length_app. lia. }
    specialize (G members).
    assert (Hi : forall kv, In kv members ->
                   (weight (snd kv) <= length (dumps (snd kv)))%nat).
    { intros kv Hkv. apply IH; [now apply weight_member|].
      rewrite forallb_forall in Hp. specialize (Hp kv Hkv).
      apply andb_prop in Hp. tauto. }
    specialize (G Hi). change (length (lit ", ")) with 2%nat.
    destruct members; cbn [length pred] in *; lia.
Qed.

(** [json.loads(json.dumps(v))] is [v], for every portable value. *)
Lemma loads_dumps (v : json) :
  portable v = true -> loads (dumps v) = Return v.
Proof.
  intros Hp. unfold loads.
  pose proof (skip_ws_dumps v [] Hp) as Hs. rewrite app_nil_r in Hs.
  rewrite Hs. rewrite <- (app_nil_r (dumps v)) at 2.
  rewrite (scan_once_dumps v Hp _ []); [reflexivity| |exact I].
  pose proof (weight_le_length v Hp). lia.
Qed.

(** ** What [dumps] writes is ASCII, and can always be framed *)

Lemma hex_digit_ascii (d : Z) : 0 <= d < 16 -> 0 <= hex_digit d < 128.
Proof. intros H. unfold hex_digit. destruct (d <? 10); lia. Qed.

Lemma u_escape_ascii (n : Z) :
  0 <= n < 65536 -> Forall (fun c => 0 <= c < 128) (u_escape n).
Proof.
  intros H. unfold u_escape.
  apply Forall_cons; [lia|]. apply Forall_cons; [lia|].
  apply Forall_cons.
  { apply hex_digit_ascii.
    split; [apply Z.div_pos; lia | apply Z.div_lt_upper_bound; lia]. }
  repeat (apply Forall_cons;
          [apply hex_digit_ascii; apply Z.mod_pos_bound; lia|]).
  apply Forall_nil.
Qed.

Lemma escape_char_ascii (c : Z) :
  0 <= c -> Forall (fun c => 0 <= c < 128) (escape_char c).
Proof.
  intros H. unfold escape_char.
  repeat match goal with
         | |- context [?a =? ?b] =>
             destruct (Z.eqb_spec a b); [repeat constructor; lia|]
         end.
  destruct (Z.leb_spec 32 c), (Z.leb_spec c 126); cbn [andb];
    try (repeat constructor; lia);
    (destruct (Z.ltb_spec c 0x10000);
     [apply u_escape_ascii; lia
     |apply Forall_app; split; apply u_escape_ascii;
      match goal with
      | |- context [?a mod 1024] =>
          pose proof (Z.mod_pos_bound a 1024 ltac:(lia)); lia
      end]).
Qed.

Lemma quote_ascii (s : str) :
  is_text s = true -> Forall (fun c => 0 <= c < 128) (quote s).
Proof.
  intros H. unfold quote. apply Forall_app. split; [repeat constructor; lia|].
  apply Forall_app. split; [|repeat constructor; lia].
  apply Forall_flat_map. apply Forall_forall. intros c Hc.
  apply escape_char_ascii. unfold is_text in H.
  rewrite forallb_forall in H. specialize (H c Hc). unfold is_scalar in H.
  apply andb_prop in H. destruct H as (H & _).
  apply andb_prop in H. destruct H as (H & _). now apply Z.leb_le.
Qed.

Lemma format_Z_ascii (n : Z) : Forall (fun c => 0 <= c < 128) (format_Z n).
Proof.
  assert (G : forall k, Forall (fun c => 0 <= c < 128) (format_int k)).
  { intros k.
    destruct (format_int_shape k) as [->|(c & ds & -> & Hc & Hd)];
      [repeat constructor; lia|].
    constructor; [lia|]. apply Forall_forall. intros x Hx.
    rewrite forallb_forall in Hd. specialize (Hd x Hx).
    unfold is_digit in Hd. apply andb_prop in Hd. destruct Hd as (A & B).
    apply Z.leb_le in A. apply Z.leb_le in B. lia. }
  unfold format_Z. destruct (n <? 0); [constructor; [lia|]|]; apply G.
Qed.

Lemma join_Forall (P : Z -> Prop) (sep : str) (parts : list str) :
  Forall P sep -> Forall (Forall P) parts -> Forall P (join sep parts).
Proof.
  intros Hs. induction parts as [|p ps IH]; intros Hp; [constructor|].
  inversion Hp as [|? ? H1 H2]; subst. rewrite join_cons.
  apply Forall_app. split; [assumption|].
  destruct ps; [constructor|]. apply Forall_app. split; auto.
Qed.

Lemma dumps_ascii (v : json) :
  portable v = true -> Forall (fun c => 0 <= c < 128) (dumps v).
Proof.
  induction v as [v IH] using json_by_weight. intros Hp.
  destruct v as [|[|]|n|l|s|items|members]; try discriminate Hp.
  - repeat constructor; lia.
  - repeat constructor; lia.
  - repeat constructor; lia.
  - apply format_Z_ascii.
  - now apply quote_ascii.
  - cbn [dumps portable] in *.
    apply Forall_app. split; [repeat constructor; lia|].
    apply Forall_app. split; [|repeat constructor; lia].
    apply join_Forall; [repeat constructor; lia|].
    apply Forall_map. apply Forall_forall. intros x Hx.
    apply IH; [now apply weight_item|].
    rewrite forallb_forall in Hp. now apply Hp.
  - cbn [dumps portable] in *. apply andb_prop in Hp. destruct Hp as (Hp & _).
    apply Forall_app. split; [repeat constructor; lia|].
    apply Forall_app. split; [|repeat constructor; lia].
    apply join_Forall; [repeat constructor; lia|].
    apply Forall_map. apply Forall_forall. intros kv Hkv.
    rewrite forallb_forall in Hp. specialize (Hp kv Hkv).
    apply andb_prop in Hp. destruct Hp as (Hk & Hv).
    apply Forall_app. split; [now apply quote_ascii|].
    apply Forall_app. split; [repeat constructor; lia|].
    apply IH; [now apply weight_member|assumption].
Qed.

Lemma encode_utf8_ascii (s : str) :
  Forall (fun c => 0 <= c < 128) s -> encode_utf8 s = Return s.
Proof.
  induction 1 as [|c s Hc _ IH]; [reflexivity|].
  cbn [encode_utf8]. unfold encode_cp.
  destruct (Z.ltb_spec c 0); [lia|]. destruct (Z.ltb_spec c 0x80); [|lia].
  rewrite IH. reflexivity.
Qed.

(** A serialized portable value shorter than [2 ^ 32] characters has a
    frame. *)
Lemma dumps_framed (v : json) :
  portable v = true -> len (dumps v) < 2 ^ 32 ->
  exists frame, Wire.encode (dumps v) = Return frame.
Proof.
  intros Hp Hl. unfold Wire.encode.
  rewrite (encode_utf8_ascii _ (dumps_ascii v Hp)). cbn [bind].
  unfold to_bytes4.
  destruct (Z.ltb_spec (len (dumps v)) 0) as [H|_];
    [pose proof (len_nonneg (dumps v)); lia|].
  destruct (Z.leb_spec (2 ^ 32) (len (dumps v))); [lia|].
  cbn [orb bind]. eexists. reflexivity.
Qed.

(** ** Dispatch of serialized dictionaries *)

Lemma dispatch_player_action (cid : str) (action data : json)
  (s : GameServer) :
  portable action = true -> portable data = true ->
  _process_game_message cid (dumps (player_action action data)) s
  = (Return tt, emit s [PlayerAction cid (player_action action data)]).
Proof.
  intros Ha Hd.
  assert (Hp : portable (player_action action data) = true).
  { unfold player_action. cbn [portable forallb fst snd map].
    rewrite Ha, Hd. reflexivity. }
  unfold _process_game_message, process_try, mbind, lift.
  rewrite (loads_dumps _ Hp). reflexivity.
Qed.

Lemma dispatch_skill_use (cid : str) (skill_index target_id : json)
  (s : GameServer) :
  portable skill_index = true -> portable target_id = true ->
  _process_game_message cid (dumps (skill_use skill_index target_id)) s
  = (Return tt, emit s [SkillUse cid (skill_use skill_index target_id)]).
Proof.
  intros Ha Hd.
  assert (Hp : portable (skill_use skill_index target_id) = true).
  { unfold skill_use. cbn [portable forallb fst snd map].
    rewrite Ha, Hd. reflexivity. }
  unfold _process_game_message, process_try, mbind, lift.
  rewrite (loads_dumps _ Hp). reflexivity.
Qed.

(** ** Client and server agree on the messages *)









(** ** The ids of the first clients *)

Lemma format_int_inj (a b : nat) : format_int a = format_int b -> a = b.
Proof.
  intros H. apply (f_equal digits_value) in H.
  rewrite !format_int_value in H. lia.
Qed.

Lemma run_snoc (s : GameServer) (es : list event) (e : event) :
  run s (es ++ [e]) = step (run s es) e.
Proof. unfold run. now rewrite fold_left_app. Qed.

(** Accepts on a fresh server, as long as there is room: the registry
    holds the ids in order of arrival, and the object behind the [i]-th id
    is the connection made for the [i]-th socket. *)
Lemma accepts_numbered (max : Z) (arrivals : list (socket * (str * Z))) :
  len arrivals <= max ->
  let s := run (new_server max)
               (map (fun a => Accept (fst a) (snd a)) arrivals) in
  max_players s = max
  /\ clients s
     = map (fun i => (lit "player_" ++ format_int (i + 1), i))
           (seq 0 (length arrivals))
  /\ length (objects s) = length arrivals
  /\ forall i a,
       nth_error arrivals i = Some a ->
       nth_error (objects s) i
       = Some (new_connection (lit "player_" ++ format_int (i + 1))
                              (fst a) (snd a)).
Proof.
  induction arrivals as [|a l IH] using rev_ind; intros Hl.
  - cbn. repeat split. intros [|i] a H; discriminate H.
  - unfold len in Hl. rewrite length_app in Hl. cbn [length] in Hl.
    destruct IH as (Hmax & Hcl & Hlen & Hobj); [unfold len; lia|].
    cbv zeta. rewrite map_app. cbn [map]. rewrite run_snoc.
    set (s := run (new_server max)
                  (map (fun a => Accept (fst a) (snd a)) l)) in *.
    cbn [step]. unfold _accept_connections, accept_try.
    assert (Hn : length (clients s) = length l)
      by (rewrite Hcl, length_map, length_seq; reflexivity).
    destruct (Z.geb_spec (len (clients s)) (max_players s)) as [Hge|_];
      [unfold len in Hge; lia|].
    cbv zeta. cbn [max_players clients objects emit submit set_clients
                   set_objects].
    rewrite Hn, Hlen.
    assert (Hfresh : ~ In (lit "player_" ++ format_int (length l + 1))
                          (map fst (clients s))).
    { rewrite Hcl, map_map. cbn [fst]. intros Hin.
      apply in_map_iff in Hin. destruct Hin as (i & Ei & Hi).
      apply in_seq in Hi. apply app_inv_head in Ei.
      apply format_int_inj in Ei. lia. }
    rewrite (dict_set_new _ _ _ Hfresh), Hcl.
    repeat split.
    + assumption.
    + rewrite length_app. cbn [length]. rewrite Nat.add_1_r, seq_S, map_app.
      cbn [map]. rewrite Nat.add_1_r. reflexivity.
    + rewrite !length_app. cbn [length]. lia.
    + intros i b Hb.
      destruct (Nat.lt_ge_cases i (length l)) as [Hi|Hi].
      * rewrite nth_error_app1 in Hb by assumption.
        rewrite nth_error_app1 by lia. now apply Hobj.
      * rewrite nth_error_app2 in Hb by assumption.
        rewrite nth_error_app2 by lia. rewrite Hlen.
        destruct (i - length l)%nat as [|k] eqn:Ek;
          [|destruct k; discriminate Hb].
        cbn in Hb. injection Hb as <-.
        replace i with (length l) by lia. reflexivity.
Qed.

(** X17.  As long as nobody is removed, ids are what they say: the first
    clients of a fresh server, up to [max_players] of them, are registered
    as [player_1], [player_2], ... in order of arrival, no id is given
    twice, and the id of the [i]-th arrival leads to the connection made
    for its socket and address. *)
Theorem first_clients_are_numbered
  (max : Z) (arrivals : list (socket * (str * Z))) (i : nat)
  (a : socket * (str * Z)) :
  len arrivals <= max ->
  nth_error arrivals i = Some a ->
  let s := run (new_server max)
               (map (fun a => Accept (fst a) (snd a)) arrivals) in
  Dict.keys (clients s)
  = map (fun i => lit "player_" ++ format_int (i + 1))
        (seq 0 (length arrivals))
  /\ NoDup (Dict.keys (clients s))
  /\ exists ref,
       Dict.get (clients s) (lit "player_" ++ format_int (i + 1)) = Some ref
       /\ nth_error (objects s) ref
          = Some (new_connection (lit "player_" ++ format_int (i + 1))
                                 (fst a) (snd a)).
Proof.
  intros Hl Ha s.
  destruct (accepts_numbered max arrivals Hl) as (_ & Hcl & _ & Hobj).
  fold s in Hcl, Hobj.
  assert (Hk : Dict.keys (clients s)
               = map (fun i => lit "player_" ++ format_int (i + 1))
                     (seq 0 (length arrivals))).
  { unfold Dict.keys. rewrite Hcl, map_map. reflexivity. }
  assert (Hnd : NoDup (Dict.keys (clients s))).
  { rewrite Hk. apply NoDup_map_NoDup_ForallPairs; [|apply seq_NoDup].
    intros x y _ _ E. apply app_inv_head in E.
    apply format_int_inj in E. lia. }
  split; [assumption|]. split; [assumption|].
  exists i. split; [|now apply Hobj].
  apply dict_In_get; [exact Hnd|].
  rewrite Hcl. apply in_map_iff. exists i. split; [reflexivity|].
  apply in_seq.
  assert (nth_error arrivals i <> None) by congruence.
  apply nth_error_Some in H. lia.
Qed.

Lemma first_clients_are_numbered_witness :
  let s := run (new_server 2)
               (map (fun a => Accept (fst a) (snd a))
                    [(peer [], localhost); (peer [[1]], localhost)]) in
  Dict.keys (clients s)
  = map (fun i => lit "player_" ++ format_int (i + 1)) (seq 0 2)
  /\ NoDup (Dict.keys (clients s))
  /\ exists ref,
       Dict.get (clients s) (lit "player_" ++ format_int (1 + 1)) = Some ref
       /\ nth_error (objects s) ref
          = Some (new_connection (lit "player_" ++ format_int (1 + 1))
                                 (peer [[1]]) localhost).
Proof.
  assert (Hl : len [(peer [], localhost); (peer [[1]], localhost)] <= 2)
    by (unfold len; cbn [length]; lia).
  exact (first_clients_are_numbered 2
           [(peer [], localhost); (peer [[1]], localhost)] 1%nat
           (peer [[1]], localhost) Hl eq_refl).
Defined.

(** ** The client: a send that fails *)

Lemma send_try_raises (m : str) (sk : socket) :
  closed sk = true \/ writable sk = false ->
  exists e, send_try m sk = (Raise e, sk).
Proof.
  intros H. rewrite send_try_encode.
  destruct (Wire.encode m) as [frame|e]; [|now exists e].
  exists OSError. destruct H as [-> | ->]; [reflexivity|].
  now rewrite orb_true_r.
Qed.

(** X18.  A send that fails ends the send loop without a trace: the
    message that was taken off the queue is lost, nothing is written, the
    messages behind it are never sent however long the client lives, and
    [connected] stays [True], so that the receive loop goes on and
    [send_player_action] keeps queueing. *)
Theorem failed_send_ends_sending
  (g : GameClient) (sk : socket) (m : str) (rest : list str) (n : nat) :
  is_connected g = true ->
  socket_opt g = Some sk ->
  outgoing_messages g = m :: rest ->
  closed sk = true \/ writable sk = false ->
  _send_loop g = (false, mkClient (Some sk) true (incoming_messages g) rest)
  /\ send_rounds (S n) g
     = mkClient (Some sk) true (incoming_messages g) rest
  /\ forall action data,
       outgoing_messages
         (send_player_action action data (send_rounds (S n) g))
       = rest ++ [dumps (player_action action data)].
Proof.
  intros Hc Hs Ho Hbad.
  destruct (send_try_raises m sk Hbad) as (e & He).
  assert (H1 : _send_loop g
               = (false, mkClient (Some sk) true (incoming_messages g) rest)).
  { unfold _send_loop. now rewrite Hc, Ho, Hs, He. }
  assert (H2 : send_rounds (S n) g
               = mkClient (Some sk) true (incoming_messages g) rest).
  { cbn [send_rounds]. now rewrite H1. }
  repeat split; [assumption..|].
  intros action data. now rewrite H2.
Qed.

Lemma failed_send_ends_sending_witness :
  send_rounds 5
    (mkClient (Some (mkSocket [] [] false false)) true [] [[104]; [105]])
  = mkClient (Some (mkSocket [] [] false false)) true [] [[105]].
Proof.
  exact (proj1 (proj2 (failed_send_ends_sending
                         (mkClient (Some (mkSocket [] [] false false)) true []
                                   [[104]; [105]])
                         (mkSocket [] [] false false) [104] [[105]] 4
                         eq_refl eq_refl eq_refl (or_intror eq_refl)))).
Defined.
